(** * pyhmmer.hmmer: the threaded search dispatcher

    A shallow embedding of [src/pyhmmer/hmmer.py]: the [_Chore] result slot,
    the [_BaseWorker] thread loop, the [_BaseDispatcher] constructor with its
    two generators ([_single_threaded], [_multi_threaded]) and the [cpus]
    selection of the four entry points.

    Threads are modelled by an interleaving semantics: a state holds the
    shared objects (the chores, the semaphore, the queue, the counter and the
    kill switch), the locals of the generator running in the main thread and
    the program point of every worker thread; [step] runs one actor for one
    atomic action, and a schedule is a list of actors. An action is one
    operation on a shared object (a [put], a [release], an [acquire], a
    [set], a call of [process] with its one read of the counter), together
    with the thread-local statements around it. The queries are a finite
    sequence whose iteration does not raise, and the caller neither closes
    nor abandons the generator.

    Beside the dispatcher the file embeds the [query] methods of the four
    worker classes, with their dispatch on the class of the query, the
    conversion of the profiles in [hmmscan], and the check of existing
    files of the command-line [_hmmpress]. The engine (the pipelines, the
    writers of HMMs, profiles and indexes) is a parameter of these
    definitions. *)

From Stdlib Require Import ZArith Lia.
From stdpp Require Import base numbers option strings gmap list.

Set Default Proof Using "Type".
Local Open Scope Z_scope.

(** ** Python values used by the module *)

(** [raise ValueError("`cpus` must be strictly positive, not {!r}")]; the
    only exception the dispatcher itself creates. *)
Inductive PyError : Type :=
| ValueError (cpus : Z).

(** [operator.length_hint(obj)] with its default of [0]: the length of a
    sized object, the [__length_hint__] of an iterator that has one, and [0]
    for an iterable that has neither. *)
Record Iterable (Q : Type) : Type := mkIterable {
  items : list Q;
  size_hint : option nat
}.
Arguments mkIterable {Q} _ _.
Arguments items {Q} _.
Arguments size_hint {Q} _.

Definition length_hint {Q : Type} (queries : Iterable Q) : Z :=
  match size_hint queries with
  | Some n => Z.of_nat n
  | None => 0
  end.

(** A Python [list] is sized: its hint is its length. *)
Definition py_list {Q : Type} (l : list Q) : Iterable Q :=
  mkIterable l (Some (length l)).

(** [x or y] on [Optional[int]] operands: [x] when it is truthy (neither
    [None] nor [0]). *)
Definition truthy (x : option Z) : bool :=
  match x with
  | Some n => negb (n =? 0)
  | None => false
  end.

Definition py_or (x y : option Z) : option Z :=
  if truthy x then x else y.

(** [x or n] with an [int] on the right. *)
Definition py_or_int (x : option Z) (n : Z) : Z :=
  match x with
  | Some m => if m =? 0 then n else m
  | None => n
  end.

(** ** [_Chore] *)

Section Chore.
Context {Q H E : Type}.

Record Chore : Type := mkChore {
  query : Q;
  event : bool;              (* threading.Event *)
  hits : option H;
  exception : option E
}.

(** [_Chore.__init__] *)
Definition new_chore (q : Q) : Chore :=
  mkChore q false None None.

(** [_Chore.available] *)
Definition available (c : Chore) : bool := event c.

(** [_Chore.complete]: [self.hits = hits; self.event.set()] *)
Definition complete (c : Chore) (h : H) : Chore :=
  mkChore (query c) true (Some h) (exception c).

(** [_Chore.fail]: [self.exception = exception; self.event.set()] *)
Definition fail (c : Chore) (e : E) : Chore :=
  mkChore (query c) true (hits c) (Some e).

(** The three ways a call of [_Chore.get] can go: [self.event.wait()] does
    not return while the event is unset, a recorded exception is raised,
    and otherwise [self.hits] is returned as it is. *)
Inductive GetResult : Type :=
| Blocked
| Returns (v : option H)
| Throws (e : E).

Definition get (c : Chore) : GetResult :=
  if event c then
    match exception c with
    | Some e => Throws e
    | None => Returns (hits c)
    end
  else Blocked.
End Chore.
Arguments Chore : clear implicits.
Arguments GetResult : clear implicits.

(** ** [_BaseDispatcher.__init__] and the entry points *)

Section Setup.
Context {Q : Type}.

Record Dispatcher : Type := mkDispatcher {
  d_queries : Iterable Q;
  d_cpus : Z
}.

(** [_BaseDispatcher.__init__]: the check on [cpus], then the reduction of
    the number of threads to the length hint of the queries. *)
Definition dispatcher_init (queries : Iterable Q) (cpus : Z)
  : PyError + Dispatcher :=
  if cpus <=? 0 then inl (ValueError cpus)
  else
    let hint := length_hint queries in
    inr (mkDispatcher queries (if 0 <? hint then Z.min cpus hint else cpus)).

(** [cpus if cpus > 0 else psutil.cpu_count(logical=False) or
    os.cpu_count() or 1], the first statement about [cpus] of every entry
    point. The two detected counts are what the two library calls return. *)
Definition select_cpus (cpus : Z) (psutil_cpu_count os_cpu_count : option Z) : Z :=
  if 0 <? cpus then cpus
  else py_or_int (py_or psutil_cpu_count os_cpu_count) 1.
End Setup.
Arguments Dispatcher : clear implicits.

(** ** The threads *)

(** [multiprocessing.Value(ctypes.c_ulong)]: [value += 1] wraps at 64 bits. *)
Definition c_ulong_incr (n : Z) : Z := (n + 1) mod 2 ^ 64.

(** [queue.Queue(maxsize)]: [put] waits while [maxsize > 0] and the queue
    holds [maxsize] items. *)
Definition queue_full {A : Type} (maxsize : Z) (q : list A) : bool :=
  (0 <? maxsize) && (maxsize <=? Z.of_nat (length q)).

Inductive Actor : Type :=
| Main                (* the caller and the generator it drives *)
| Worker (i : nat).   (* threads[i] *)

#[global] Instance Actor_eq_dec : EqDecision Actor.
Proof. solve_decision. Defined.

Section Model.
Context {Q H E : Type}.

(** [_BaseWorker.query], the engine: the hits of a query, or the exception
    it raises. *)
Variable query_fn : Q -> H + E.
(** [self.callback(query, total)]: [None] when the call returns, [Some e]
    when it raises [e]. *)
Variable callback : Q -> Z -> option E.

(** [_BaseWorker.process]; [total] is [self.query_count.value] as read for
    the callback. [self.pipeline.clear()] only resets the private engine. *)
Definition process (q : Q) (total : Z) : H + E :=
  match query_fn q with
  | inl h =>
      match callback q total with
      | None => inl h
      | Some e => inr e
      end
  | inr e => inr e
  end.

(** What the caller gets from one [next()] on the generator, when it is
    not [StopIteration]. *)
Inductive Output : Type :=
| Yielded (v : option H)
| Raised (e : E).

(** Program points of [_BaseWorker.run]. A chore is named by its index in
    the store of chores. *)
Inductive WorkerPC : Type :=
| W_Loop                       (* while not self.kill_switch.is_set() *)
| W_Acquire                    (* self.query_available.acquire(timeout=1) *)
| W_Get                        (* chore = self.query_queue.get_nowait() *)
| W_Process (c : nat)          (* hits = self.process(chore.query) *)
| W_Complete (c : nat) (h : H) (* chore.complete(hits) *)
| W_Kill (c : nat) (e : E)     (* self.kill() *)
| W_Fail (c : nat) (e : E)     (* chore.fail(exc) *)
| W_Returned                   (* run has returned *)
| W_Crashed.                   (* queue.Empty left run *)

(** Program points of the two generators. *)
Inductive MainPC : Type :=
| S_Loop                       (* _single_threaded: for query in self.queries *)
| M_Spawn                      (* for _ in range(self.cpus) *)
| M_Feed                       (* for query in self.queries *)
| M_Put (c : nat)              (* query_queue.put(chore) *)
| M_Release (c : nat)          (* query_available.release() *)
| M_Append (c : nat)           (* results.append(chore); if results[0].available() *)
| M_YieldFeed                  (* yield results[0].get() *)
| M_PopFeed                    (* results.popleft() *)
| M_Poison (k : nat)           (* for _ in threads: query_queue.put(None) *)
| M_PoisonRelease (k : nat)    (* query_available.release() *)
| M_Drain                      (* while results: yield results[0].get() *)
| M_PopDrain                   (* results.popleft() *)
| M_Except (e : E)             (* except BaseException: kill_switch.set(); raise *)
| G_Done.                      (* the generator is finished *)

Record State : Type := mkState {
  cpus : Z;                          (* self.cpus *)
  queries : list Q;                  (* what is left of self.queries *)
  chores : list (Chore Q H E);       (* every _Chore, in creation order *)
  query_available : nat;             (* threading.Semaphore(0) *)
  query_queue : list (option nat);   (* queue.Queue(maxsize=self.cpus) *)
  query_count : Z;
  kill_switch : bool;                (* threading.Event *)
  results : list nat;                (* collections.deque *)
  threads : list WorkerPC;
  pc : MainPC;
  suspended : bool;                  (* the generator waits for next() *)
  output : list Output               (* what the caller has received *)
}.

Definition set_queries v s := mkState (cpus s) v (chores s) (query_available s)
  (query_queue s) (query_count s) (kill_switch s) (results s) (threads s)
  (pc s) (suspended s) (output s).
Definition set_chores v s := mkState (cpus s) (queries s) v (query_available s)
  (query_queue s) (query_count s) (kill_switch s) (results s) (threads s)
  (pc s) (suspended s) (output s).
Definition set_query_available v s := mkState (cpus s) (queries s) (chores s) v
  (query_queue s) (query_count s) (kill_switch s) (results s) (threads s)
  (pc s) (suspended s) (output s).
Definition set_query_queue v s := mkState (cpus s) (queries s) (chores s)
  (query_available s) v (query_count s) (kill_switch s) (results s) (threads s)
  (pc s) (suspended s) (output s).
Definition set_query_count v s := mkState (cpus s) (queries s) (chores s)
  (query_available s) (query_queue s) v (kill_switch s) (results s) (threads s)
  (pc s) (suspended s) (output s).
Definition set_kill_switch v s := mkState (cpus s) (queries s) (chores s)
  (query_available s) (query_queue s) (query_count s) v (results s) (threads s)
  (pc s) (suspended s) (output s).
Definition set_results v s := mkState (cpus s) (queries s) (chores s)
  (query_available s) (query_queue s) (query_count s) (kill_switch s) v (threads s)
  (pc s) (suspended s) (output s).
Definition set_threads v s := mkState (cpus s) (queries s) (chores s)
  (query_available s) (query_queue s) (query_count s) (kill_switch s) (results s) v
  (pc s) (suspended s) (output s).
Definition set_pc v s := mkState (cpus s) (queries s) (chores s)
  (query_available s) (query_queue s) (query_count s) (kill_switch s) (results s)
  (threads s) v (suspended s) (output s).
Definition set_suspended v s := mkState (cpus s) (queries s) (chores s)
  (query_available s) (query_queue s) (query_count s) (kill_switch s) (results s)
  (threads s) (pc s) v (output s).
Definition set_output v s := mkState (cpus s) (queries s) (chores s)
  (query_available s) (query_queue s) (query_count s) (kill_switch s) (results s)
  (threads s) (pc s) (suspended s) v.

(** [yield v]: the caller receives [v] and the generator waits at the
    program point after the [yield]. *)
Definition yield (v : option H) (next : MainPC) (s : State) : State :=
  set_pc next (set_suspended true (set_output (output s ++ [Yielded v]) s)).

(** An exception leaves the generator: the caller receives it and the
    generator is finished. *)
Definition raise (e : E) (s : State) : State :=
  set_pc G_Done (set_output (output s ++ [Raised e]) s).

(** [results[0]] *)
Definition head_chore (s : State) : option (Chore Q H E) :=
  c ← head (results s); chores s !! c.

(** [yield results[0].get()] *)
Definition yield_head (next : MainPC) (s : State) : option State :=
  ch ← head_chore s;
  match get ch with
  | Blocked => None
  | Returns v => Some (yield v next s)
  | Throws e => Some (set_pc (M_Except e) s)
  end.

(** One action of the main thread. [None]: the thread is blocked. *)
Definition main_step (s : State) : option State :=
  if suspended s then
    match pc s with
    | G_Done => None
    | _ => Some (set_suspended false s)     (* the caller calls next() *)
    end
  else
    match pc s with
    | S_Loop =>
        match queries s with
        | [] => Some (set_pc G_Done s)
        | q :: rest =>
            let total := c_ulong_incr (query_count s) in
            let s' := set_query_count total (set_queries rest s) in
            match process q total with
            | inl h => Some (yield (Some h) S_Loop s')
            | inr e => Some (raise e s')
            end
        end
    | M_Spawn =>
        if Z.of_nat (length (threads s)) <? cpus s
        then Some (set_threads (threads s ++ [W_Loop]) s)
        else Some (set_pc M_Feed s)
    | M_Feed =>
        match queries s with
        | [] => Some (set_pc (M_Poison 0) s)
        | q :: rest =>
            Some (set_pc (M_Put (length (chores s)))
                   (set_chores (chores s ++ [new_chore q])
                     (set_query_count (c_ulong_incr (query_count s))
                       (set_queries rest s))))
        end
    | M_Put c =>
        if queue_full (cpus s) (query_queue s) then None
        else Some (set_pc (M_Release c)
                    (set_query_queue (query_queue s ++ [Some c]) s))
    | M_Release c =>
        Some (set_pc (M_Append c)
               (set_query_available (S (query_available s)) s))
    | M_Append c =>
        let s' := set_results (results s ++ [c]) s in
        ch ← head_chore s';
        Some (set_pc (if available ch then M_YieldFeed else M_Feed) s')
    | M_YieldFeed => yield_head M_PopFeed s
    | M_PopFeed => Some (set_pc M_Feed (set_results (tail (results s)) s))
    | M_Poison k =>
        if (k <? length (threads s))%nat then
          if queue_full (cpus s) (query_queue s) then None
          else Some (set_pc (M_PoisonRelease k)
                      (set_query_queue (query_queue s ++ [None]) s))
        else Some (set_pc M_Drain s)
    | M_PoisonRelease k =>
        Some (set_pc (M_Poison (S k))
               (set_query_available (S (query_available s)) s))
    | M_Drain =>
        match results s with
        | [] => Some (set_pc G_Done s)
        | _ :: _ => yield_head M_PopDrain s
        end
    | M_PopDrain => Some (set_pc M_Drain (set_results (tail (results s)) s))
    | M_Except e => Some (raise e (set_kill_switch true s))
    | G_Done => None
    end.

Definition set_thread (i : nat) (w : WorkerPC) (s : State) : State :=
  set_threads (<[i := w]> (threads s)) s.

(** One action of the worker [threads[i]], which is at [w]. *)
Definition worker_step (i : nat) (w : WorkerPC) (s : State) : option State :=
  match w with
  | W_Loop =>
      Some (set_thread i (if kill_switch s then W_Returned else W_Acquire) s)
  | W_Acquire =>
      match query_available s with
      | O => Some (set_thread i W_Loop s)            (* timeout; continue *)
      | S n => Some (set_thread i W_Get (set_query_available n s))
      end
  | W_Get =>
      match query_queue s with
      | [] => Some (set_thread i W_Crashed s)
      | None :: q => Some (set_thread i W_Returned (set_query_queue q s))
      | Some c :: q => Some (set_thread i (W_Process c) (set_query_queue q s))
      end
  | W_Process c =>
      ch ← chores s !! c;
      match process (query ch) (query_count s) with
      | inl h => Some (set_thread i (W_Complete c h) s)
      | inr e => Some (set_thread i (W_Kill c e) s)
      end
  | W_Complete c h =>
      ch ← chores s !! c;
      Some (set_thread i W_Loop (set_chores (<[c := complete ch h]> (chores s)) s))
  | W_Kill c e =>
      Some (set_thread i (W_Fail c e) (set_kill_switch true s))
  | W_Fail c e =>
      ch ← chores s !! c;
      Some (set_thread i W_Loop (set_chores (<[c := fail ch e]> (chores s)) s))
  | W_Returned | W_Crashed => None
  end.

Definition step (a : Actor) (s : State) : option State :=
  match a with
  | Main => main_step s
  | Worker i => w ← threads s !! i; worker_step i w s
  end.

(** A schedule names the actor to run at each turn; an actor that is
    blocked when its turn comes does not move. *)
Definition sched_step (s : State) (a : Actor) : State :=
  default s (step a s).

Definition exec (sched : list Actor) (s : State) : State :=
  foldl sched_step s sched.

(** The generator objects, before the first [next()]. *)
Definition generator (start : MainPC) (d : Dispatcher Q) : State :=
  mkState (d_cpus d) (items (d_queries d)) [] 0%nat [] 0 false [] [] start true [].

Definition single_threaded := generator S_Loop.
Definition multi_threaded := generator M_Spawn.

(** [_BaseDispatcher.run] *)
Definition run (d : Dispatcher Q) : State :=
  if d_cpus d =? 1 then single_threaded d else multi_threaded d.
End Model.

Arguments Output : clear implicits.
Arguments WorkerPC : clear implicits.
Arguments MainPC : clear implicits.
Arguments State : clear implicits.

(** ** The entry points *)

Section EntryPoints.
Context {Q H E : Type}.

(** What [psutil.cpu_count(logical=False)] and [os.cpu_count()] return on
    the machine: a number of CPUs, or [None]. *)
Variable psutil_cpu_count os_cpu_count : option Z.

(** What the four entry points do with [cpus]: select the number of
    workers, build the dispatcher and return [dispatcher.run()]. The
    preparation of the targets, of the builder and of the background is the
    engine's business. *)
Definition entry_point (queries : Iterable Q) (cpus : Z)
  : PyError + State Q H E :=
  let _cpus := select_cpus cpus psutil_cpu_count os_cpu_count in
  match dispatcher_init queries _cpus with
  | inl err => inl err
  | inr d => inr (run d)
  end.

Definition phmmer (queries : Iterable Q) (cpus : Z) : PyError + State Q H E :=
  entry_point queries cpus.
Definition nhmmer (queries : Iterable Q) (cpus : Z) : PyError + State Q H E :=
  entry_point queries cpus.
Definition hmmscan (queries : Iterable Q) (cpus : Z) : PyError + State Q H E :=
  entry_point queries cpus.
End EntryPoints.

(** [if not isinstance(queries, collections.abc.Iterable): queries =
    (queries,)], the statement of every entry point on its [queries]
    argument: a single query object becomes a tuple of one element, which
    is sized. *)
Definition as_iterable {Q : Type} (queries : Q + Iterable Q) : Iterable Q :=
  match queries with
  | inl query => mkIterable [query] (Some 1%nat)
  | inr queries => queries
  end.

(** A detected number of CPUs is not negative. *)
Definition detected (x : option Z) : Prop :=
  match x with
  | Some n => 0 <= n
  | None => True
  end.

(** ** The objects the module tells apart *)

(** The exceptions the module raises with a message of its own.
    [UnboundLocalError] is what Python raises on a local variable that is
    read before it is bound. *)
Inductive PyException : Type :=
| TypeError (msg : string)
| ValueError_msg (msg : string)
| UnboundLocalError (var : string).

Section Objects.
Context {Hmm Gm Om Sq Msa : Type}.

(** An object by its class, as [isinstance] and [singledispatchmethod] see
    it: one of the five classes of [pyhmmer.plan7] and [pyhmmer.easel] the
    module registers, or an object of any other class, of which only
    [type(obj).__name__] matters. *)
Inductive Object : Type :=
| HMM (hmm : Hmm)
| Profile (gm : Gm)
| OptimizedProfile (om : Om)
| DigitalSequence (sq : Sq)
| DigitalMSA (msa : Msa)
| Other (class_name : string).

(** [type(obj).__name__] *)
Definition type_name (obj : Object) : string :=
  match obj with
  | HMM _ => "HMM"
  | Profile _ => "Profile"
  | OptimizedProfile _ => "OptimizedProfile"
  | DigitalSequence _ => "DigitalSequence"
  | DigitalMSA _ => "DigitalMSA"
  | Other class_name => class_name
  end%string.
End Objects.
Arguments Object : clear implicits.

(** ** The [query] methods of the workers *)

(** The four programs, each with its worker class. *)
Inductive Program : Type := Hmmsearch | Phmmer | Nhmmer | Hmmscan.

Definition program_name (p : Program) : string :=
  match p with
  | Hmmsearch => "hmmsearch"
  | Phmmer => "phmmer"
  | Nhmmer => "nhmmer"
  | Hmmscan => "hmmscan"
  end%string.

Section Workers.
Context {Hmm Gm Om Sq Msa H E : Type}.
Local Abbreviation Object := (Object Hmm Gm Om Sq Msa).

(** The methods of [self.pipeline], with [self.targets] and [self.builder]
    of the worker: the hits, or the exception the engine raises. *)
Variable search_hmm : Hmm + Gm + Om → H + E.
Variable search_seq : Sq → H + E.
Variable search_msa : Msa → H + E.
Variable scan_seq : Sq → H + E.

(** The default implementation of every [query]:
    [raise TypeError("Unsupported query type for `...`: {}".format(
    type(query).__name__))]. *)
Definition unsupported (p : Program) (query : Object) : PyException :=
  TypeError ("Unsupported query type for `" +:+ program_name p +:+ "`: "
             +:+ type_name query).

(** A call of the engine from a registered implementation. *)
Definition engine_call (r : H + E) : H + (PyException + E) :=
  match r with
  | inl hits => inl hits
  | inr e => inr (inr e)
  end.

(** [_SEARCHWorker.query] *)
Definition SEARCHWorker_query (query : Object) : H + (PyException + E) :=
  match query with
  | HMM hmm => engine_call (search_hmm (inl (inl hmm)))
  | Profile gm => engine_call (search_hmm (inl (inr gm)))
  | OptimizedProfile om => engine_call (search_hmm (inr om))
  | _ => inr (inl (unsupported Hmmsearch query))
  end.

(** [_PHMMERWorker.query] *)
Definition PHMMERWorker_query (query : Object) : H + (PyException + E) :=
  match query with
  | DigitalSequence sq => engine_call (search_seq sq)
  | DigitalMSA msa => engine_call (search_msa msa)
  | _ => inr (inl (unsupported Phmmer query))
  end.

(** [_NHMMERWorker.query] *)
Definition NHMMERWorker_query (query : Object) : H + (PyException + E) :=
  match query with
  | DigitalSequence sq => engine_call (search_seq sq)
  | DigitalMSA msa => engine_call (search_msa msa)
  | HMM hmm => engine_call (search_hmm (inl (inl hmm)))
  | Profile gm => engine_call (search_hmm (inl (inr gm)))
  | OptimizedProfile om => engine_call (search_hmm (inr om))
  | _ => inr (inl (unsupported Nhmmer query))
  end.

(** [_SCANWorker.query] *)
Definition SCANWorker_query (query : Object) : H + (PyException + E) :=
  match query with
  | DigitalSequence sq => engine_call (scan_seq sq)
  | _ => inr (inl (unsupported Hmmscan query))
  end.

(** The [query] method of the worker class of a program. *)
Definition worker_query (p : Program) : Object → H + (PyException + E) :=
  match p with
  | Hmmsearch => SEARCHWorker_query
  | Phmmer => PHMMERWorker_query
  | Nhmmer => NHMMERWorker_query
  | Hmmscan => SCANWorker_query
  end.

(** The classes registered on the [query] method of a program. *)
Definition registered (p : Program) (query : Object) : bool :=
  match p, query with
  | (Hmmsearch | Nhmmer), (HMM _ | Profile _ | OptimizedProfile _) => true
  | (Phmmer | Nhmmer), (DigitalSequence _ | DigitalMSA _) => true
  | Hmmscan, DigitalSequence _ => true
  | _, _ => false
  end.
End Workers.

(** ** The profiles of [hmmscan] *)

Section ScanProfiles.
Context {Hmm Gm Om Sq Msa : Type}.
Local Abbreviation Object := (Object Hmm Gm Om Sq Msa).

(** [Profile(item.M, item.alphabet)] configured for [item] with the
    background, and [item.optimized()]. *)
Variable configure : Hmm → Gm.
Variable optimized : Gm → Om.

(** The body of the loop over [profiles]: three tests in a row, then
    [block.append(item)] or [TypeError]. *)
Definition optimize_item (item : Object) : PyException + Om :=
  let item :=
    match item with
    | HMM hmm => Profile (configure hmm)
    | _ => item
    end in
  let item :=
    match item with
    | Profile gm => OptimizedProfile (optimized gm)
    | _ => item
    end in
  match item with
  | OptimizedProfile om => inr om
  | _ =>
      inl (TypeError ("Expected HMM, Profile or OptimizedProfile, found "
                      +:+ type_name item))
  end.

(** [for item in profiles: ...] on the block built so far. *)
Fixpoint optimize_profiles (profiles : list Object) (block : list Om)
  : PyException + list Om :=
  match profiles with
  | [] => inr block
  | item :: rest =>
      match optimize_item item with
      | inl exc => inl exc
      | inr om => optimize_profiles rest (block ++ [om])
      end
  end.

(** The [profiles] argument: an [OptimizedProfileBlock] already, or any
    other iterable. *)
Inductive Profiles : Type :=
| OptimizedProfileBlock (block : list Om)
| ProfileIterable (profiles : list Object).

(** The targets [hmmscan] hands to its dispatcher. *)
Definition scan_targets (profiles : Profiles) : PyException + list Om :=
  match profiles with
  | OptimizedProfileBlock block => inr block
  | ProfileIterable l => optimize_profiles l []
  end.

(** The item is of one of the three classes the loop converts. *)
Definition is_profile (item : Object) : bool :=
  match item with
  | HMM _ | Profile _ | OptimizedProfile _ => true
  | _ => false
  end.
End ScanProfiles.

(** ** The command-line [_hmmpress] *)

Section PressCommand.
Context {Exc : Type}.

(** [with HMMFile(args.hmmfile) as hmms: hmmpress(hmms, args.hmmfile)], the
    work of the engine and of its writers on the files that exist: the
    files that exist afterwards, and the exception that leaves the block,
    if any. *)
Variable press : string → gset string → gset string * option Exc.

(** The four paths [_hmmpress] checks, in this order. *)
Definition extensions : list string := ["h3m"; "h3i"; "h3f"; "h3p"]%string.
Definition output_path (hmmfile ext : string) : string :=
  hmmfile +:+ "." +:+ ext.
Definition output_paths (hmmfile : string) : list string :=
  output_path hmmfile <$> extensions.

(** [for ext in ...]: the paths that exist, [os.remove] with [--force],
    and otherwise the message printed before [return 1]. *)
Fixpoint check_outputs (force : bool) (paths : list string)
    (fs : gset string) : gset string * option string :=
  match paths with
  | [] => (fs, None)
  | path :: rest =>
      if decide (path ∈ fs) then
        if force then check_outputs force rest (fs ∖ {[path]})
        else (fs, Some ("file " +:+ path +:+ " already exists"))
      else check_outputs force rest fs
  end.

(** What is left of [_hmmpress] once the check has passed: the pressing,
    then [return 0]. *)
Definition press_exit (hmmfile : string) (fs : gset string)
  : gset string * list string * (Exc + Z) :=
  let '(fs', exc) := press hmmfile fs in
  (fs', [],
   match exc with
   | Some e => inl e
   | None => inr 0
   end).

(** [_hmmpress(args)]: the paths that exist afterwards, what was printed,
    and the exit code or the exception that leaves the function. *)
Definition _hmmpress (force : bool) (hmmfile : string) (fs : gset string)
  : gset string * list string * (Exc + Z) :=
  match check_outputs force (output_paths hmmfile) fs with
  | (fs', Some message) => (fs', [message], inr 1)
  | (fs', None) => press_exit hmmfile fs'
  end.
End PressCommand.

(** ** Concrete runs *)

(** An engine that succeeds on every query, one that raises on the query
    [2], and the default callback [_none_callback]. *)
Definition engine (q : nat) : nat + nat := inl (10 * q)%nat.
Definition faulty_engine (q : nat) : nat + nat :=
  if (q =? 2)%nat then inr 99%nat else inl (10 * q)%nat.
Definition none_callback (q : nat) (total : Z) : option nat := None.

Definition turns (n : nat) (a : Actor) : list Actor := replicate n a.

(** Three queries on two workers; the second query raises. The first
    worker takes the first query and is slow; the second worker takes the
    second query, fails and returns; the generator puts the third query
    and one pill, and then waits for room in the queue; the first worker
    completes its query, sees the kill switch and returns. *)
Definition three_queries : Dispatcher nat := mkDispatcher (py_list [1; 2; 3]%nat) 2.
Definition stuck_schedule : list Actor :=
  turns 4 Main                                   (* next(); two workers; feed *)
  ++ turns 3 Main ++ turns 3 (Worker 0) ++ [Main]  (* chore 0, taken by worker 0 *)
  ++ turns 3 Main ++ turns 6 (Worker 1) ++ [Main]  (* chore 1 fails in worker 1 *)
  ++ turns 4 Main                                (* chore 2 *)
  ++ turns 3 Main                                (* one pill; the queue is full *)
  ++ [Worker 1]                                  (* worker 1 returns *)
  ++ turns 3 (Worker 0).                         (* chore 0 is completed *)

(** The same run up to the moment the second worker is about to process
    the second query. *)
Definition fault_schedule : list Actor :=
  turns 4 Main
  ++ turns 3 Main ++ turns 3 (Worker 0) ++ [Main]
  ++ turns 3 Main ++ turns 3 (Worker 1).

(** Six queries on two workers: the first worker is slow on the first
    query while the second one completes the four next ones. *)
Definition six_queries : Dispatcher nat :=
  mkDispatcher (py_list [1; 2; 3; 4; 5; 6]%nat) 2.
Definition one_round : list Actor := turns 3 Main ++ turns 5 (Worker 1) ++ [Main].
Definition slow_head_schedule : list Actor :=
  turns 4 Main
  ++ turns 3 Main ++ turns 3 (Worker 0) ++ [Main]
  ++ one_round ++ one_round ++ one_round ++ one_round
  ++ turns 3 Main.

(** No query, eight workers requested. *)
Definition no_queries : Iterable nat := py_list [].

(** Two queries on two workers: the first query raises in the first
    worker, and the generator raises its exception to the caller. *)
Definition two_queries : Dispatcher nat := mkDispatcher (py_list [2; 1]%nat) 2.
Definition raise_schedule : list Actor :=
  turns 4 Main ++ turns 3 Main ++ turns 6 (Worker 0) ++ turns 3 Main.

(** [fault_schedule], then the two actions in which the second worker sets
    the kill switch. *)
Definition kill_schedule : list Actor := fault_schedule ++ turns 2 (Worker 1).

(** Three queries on one worker, the second one raising. *)
Definition one_worker : Dispatcher nat := mkDispatcher (py_list [1; 2; 3]%nat) 1.

(** [hmmscan] on three queries of which the second is an HMM, with an
    engine that finds hits for every sequence. *)
Definition hmm_engine (q : nat + nat + nat) : nat + nat := inl 0%nat.
Definition seq_engine (sq : nat) : nat + nat := inl (10 * sq)%nat.
Definition scan_queries : Dispatcher (Object nat nat nat nat nat) :=
  mkDispatcher (py_list [DigitalSequence 1; HMM 2; DigitalSequence 3]%nat) 1.
Definition quiet_callback (q : Object nat nat nat nat nat) (total : Z)
  : option (PyException + nat) := None.

(** Six queries on two workers again: the run of [slow_head_schedule], in
    which the queries 2 to 5 are completed before the first one, and then
    the three threads in turn until all is done. *)
Definition round_robin (n : nat) : list Actor :=
  concat (replicate n [Main; Worker 0; Worker 1]).
Definition delivering_schedule : list Actor :=
  slow_head_schedule ++ round_robin 30.

(** ** Runs: invariants, termination, claims *)

Section Invariants.
Context {Q H E : Type}.
Variable query_fn : Q -> H + E.
Variable callback : Q -> Z -> option E.
Local Open Scope nat_scope.

Local Abbreviation State := (State Q H E).
Local Abbreviation process := (process query_fn callback).
Local Abbreviation step := (step query_fn callback).
Local Abbreviation main_step := (main_step query_fn callback).
Local Abbreviation worker_step := (worker_step query_fn callback).
Local Abbreviation sched_step := (sched_step query_fn callback).
Local Abbreviation exec := (exec query_fn callback).

(** Where the newest chore is, by program point of the generator: created
    but not yet in the queue, in the queue but not yet in [results], put
    but not yet announced on the semaphore; and whether the head of
    [results] was yielded and is about to be popped. *)
Definition put_pending (p : MainPC E) : nat :=
  match p with M_Put _ => 1 | _ => 0 end.
Definition unappended (p : MainPC E) : nat :=
  match p with M_Put _ | M_Release _ | M_Append _ => 1 | _ => 0 end.
Definition release_pending (p : MainPC E) : nat :=
  match p with M_Release _ | M_PoisonRelease _ => 1 | _ => 0 end.
Definition popping (p : MainPC E) : nat :=
  match p with M_PopFeed | M_PopDrain => 1 | _ => 0 end.
Definition finished (p : MainPC E) : nat :=
  match p with G_Done => 1 | _ => 0 end.

(** Counting functions over the threads, the queue and the chores. *)
Definition holds (c : nat) (w : WorkerPC H E) : nat :=
  match w with
  | W_Process c' | W_Complete c' _ | W_Kill c' _ | W_Fail c' _ =>
      if decide (c' = c) then 1 else 0
  | _ => 0
  end.
Definition at_get (w : WorkerPC H E) : nat :=
  match w with W_Get => 1 | _ => 0 end.
Definition returned (w : WorkerPC H E) : nat :=
  match w with W_Returned => 1 | _ => 0 end.
Definition queued (c : nat) (x : option nat) : nat :=
  match x with
  | Some c' => if decide (c' = c) then 1 else 0
  | None => 0
  end.
Definition is_done (c : nat) (chs : list (Chore Q H E)) : nat :=
  match chs !! c with
  | Some ch => if event ch then 1 else 0
  | None => 0
  end.
Definition enqueued (c : nat) (p : MainPC E) (n : nat) : nat :=
  if decide (c + put_pending p < n) then 1 else 0.

(** The chores put on the queue so far; among them, those whose event is
    not set yet, and those the caller has not received yet. *)
Definition enqueued_chores (s : State) : nat :=
  length (chores s) - put_pending (pc s).
Definition unfinished (s : State) : nat :=
  length (filter (λ ch, event ch = false) (take (enqueued_chores s) (chores s))).
Definition unconsumed (s : State) : nat :=
  enqueued_chores s - length (output s).

(** What [get] hands to the generator for a chore whose event is set. *)
Definition outcome (ch : Chore Q H E) : Output H E :=
  match exception ch with
  | Some e => Raised e
  | None => Yielded (hits ch)
  end.

(** What the caller gets for a query on which [process] did [r]. *)
Definition to_output (r : H + E) : Output H E :=
  match r with
  | inl h => Yielded (Some h)
  | inr e => Raised e
  end.

(** [o] is the result for the query [q]: what [process] makes of [q], for
    some value of the counter handed to the callback. *)
Definition result_of (q : Q) (o : Output H E) : Prop :=
  ∃ total, o = to_output (process q total).

(** The queries processed one after the other, as the loop of
    [_single_threaded] does: the outputs up to the first exception. *)
Fixpoint sequential (qs : list Q) (total : Z) : list (Output H E) :=
  match qs with
  | [] => []
  | q :: rest =>
      let total' := c_ulong_incr total in
      match process q total' with
      | inl h => Yielded (Some h) :: sequential rest total'
      | inr e => [Raised e]
      end
  end.

(** The invariant of [_single_threaded] on the queries [qs0]. *)
Definition SInv (qs0 : list Q) (s : State) : Prop :=
  (threads s = [] ∧ chores s = [] ∧ query_queue s = []) ∧
  ((pc s = S_Loop ∧
    output s ++ sequential (queries s) (query_count s) = sequential qs0 0%Z ∧
    ∀ e, Raised e ∉ output s) ∨
   (pc s = G_Done ∧ output s = sequential qs0 0%Z)).

(** A chore records what [process] did on its query, and nothing before
    its event is set. *)
Definition chore_ok (qs0 : list Q) (c : nat) (ch : Chore Q H E) : Prop :=
  qs0 !! c = Some (query ch) ∧
  if event ch then
    ∃ total,
      match process (query ch) total with
      | inl h => hits ch = Some h ∧ exception ch = None
      | inr e => hits ch = None ∧ exception ch = Some e
      end
  else hits ch = None ∧ exception ch = None.

Definition worker_ok (qs0 : list Q) (kill : bool) (w : WorkerPC H E) : Prop :=
  match w with
  | W_Complete c h => ∃ q total, qs0 !! c = Some q ∧ process q total = inl h
  | W_Kill c e => ∃ q total, qs0 !! c = Some q ∧ process q total = inr e
  | W_Fail c e =>
      (∃ q total, qs0 !! c = Some q ∧ process q total = inr e) ∧
      kill = true
  | W_Crashed => False
  | _ => True
  end.

Definition pc_ok (p : MainPC E) (qs : list Q) (chs : list (Chore Q H E))
    (res : list nat) (nthreads : nat) (out : list (Output H E)) : Prop :=
  match p with
  | S_Loop => False
  | M_Put c | M_Release c | M_Append c => S c = length chs
  | M_YieldFeed => 1 ≤ length res ∧ is_done (length out) chs = 1
  | M_Except e =>
      ∃ ch, chs !! length out = Some ch ∧
            event ch = true ∧ exception ch = Some e
  | M_Poison k => qs = [] ∧ k ≤ nthreads
  | M_PoisonRelease k => qs = [] ∧ k < nthreads
  | M_Drain | M_PopDrain => qs = []
  | G_Done =>
      (∃ e, last out = Some (Raised e)) ∨
      (qs = [] ∧ length out = length chs)
  | _ => True
  end.

(** The invariant of [_multi_threaded] on the queries [qs0]. *)
Record Inv (qs0 : list Q) (s : State) : Prop := mkInv {
  inv_cpus : (1 ≤ cpus s)%Z;
  inv_queries : queries s = drop (length (chores s)) qs0;
  inv_chores : ∀ c ch, chores s !! c = Some ch → chore_ok qs0 c ch;
  inv_threads : ∀ i w,
    threads s !! i = Some w → worker_ok qs0 (kill_switch s) w;
  (* every chore that was put is in the queue, with one worker, or done *)
  inv_tokens : ∀ c,
    sum_list_with (queued c) (query_queue s)
    + sum_list_with (holds c) (threads s)
    + is_done c (chores s) = enqueued c (pc s) (length (chores s));
  (* every item of the queue has its permit *)
  inv_permits :
    query_available s + sum_list_with at_get (threads s)
    + release_pending (pc s) = length (query_queue s);
  inv_pool :
    (Z.of_nat (length (threads s)) ≤ cpus s)%Z ∧
    (pc s ≠ M_Spawn → Z.of_nat (length (threads s)) = cpus s);
  inv_queue : (Z.of_nat (length (query_queue s)) ≤ cpus s)%Z;
  (* results holds the chores not yet yielded, in creation order *)
  inv_results : pc s ≠ G_Done →
    results s = seq (length (output s) - popping (pc s)) (length (results s)) ∧
    length (output s) - popping (pc s) + length (results s)
    + unappended (pc s) = length (chores s);
  inv_popping :
    popping (pc s) ≤ length (output s) ∧ popping (pc s) ≤ length (results s);
  (* the caller has received the outcomes of the first chores *)
  inv_output : output s = outcome <$> take (length (output s)) (chores s);
  inv_delivered : ∀ c, c < length (output s) → is_done c (chores s) = 1;
  inv_yielded : ∀ c ch,
    c + finished (pc s) < length (output s) →
    chores s !! c = Some ch → exception ch = None;
  inv_pc :
    pc_ok (pc s) (queries s) (chores s) (results s) (length (threads s))
      (output s)
}.

(** A budget of actions: what a worker can still do from its program
    point without a new permit, and what the generator can still do. One
    permit of the semaphore is worth 5 actions of a worker. *)
Definition weight (w : WorkerPC H E) : nat :=
  match w with
  | W_Loop | W_Acquire => 1
  | W_Get => 5
  | W_Process _ => 4
  | W_Kill _ _ => 3
  | W_Complete _ _ | W_Fail _ _ => 2
  | W_Returned | W_Crashed => 0
  end.

Definition drain_cost (r : nat) : nat := 3 * r + 1.
Definition feed_cost (q r nthreads : nat) : nat :=
  12 * q + 3 * r + 7 * nthreads + 3.

Definition main_cost (s : State) : nat :=
  let q := length (queries s) in
  let r := length (results s) in
  let t := length (threads s) in
  match pc s with
  | S_Loop => 3 * q + 1
  | M_Spawn => 2 * (Z.to_nat (cpus s) - t) + 1 + feed_cost q r (Z.to_nat (cpus s))
  | M_Feed | M_YieldFeed => feed_cost q r t
  | M_Put _ => 11 + feed_cost q r t
  | M_Release _ => 10 + feed_cost q r t
  | M_Append _ => 4 + feed_cost q r t
  | M_PopFeed => feed_cost q r t - 2
  | M_Poison k => 7 * (t - k) + 1 + drain_cost r
  | M_PoisonRelease k => 7 * (t - k) + drain_cost r
  | M_Drain => drain_cost r
  | M_PopDrain => drain_cost r - 2
  | M_Except _ => 1
  | G_Done => 0
  end.

Definition measure (s : State) : nat :=
  main_cost s + (if suspended s then 1 else 0)
  + 5 * query_available s + sum_list_with weight (threads s).

(** The idle spin of a worker: the loop test with the kill switch unset,
    and the timeout of [acquire]. *)
Definition spins (a : Actor) (s : State) : bool :=
  match a with
  | Main => false
  | Worker i =>
      match threads s !! i with
      | Some W_Loop => negb (kill_switch s)
      | Some W_Acquire => bool_decide (query_available s = 0)
      | _ => false
      end
  end.

(** The actions of a schedule that are taken and are not idle spins. *)
Fixpoint productive (sched : list Actor) (s : State) : nat :=
  match sched with
  | [] => 0
  | a :: rest =>
      match step a s with
      | Some s' => (if spins a s then 0 else 1) + productive rest s'
      | None => productive rest s
      end
  end.

(** [process] raises on no query of [qs0]. *)
Definition no_fault (qs0 : list Q) : Prop :=
  ∀ q total, q ∈ qs0 → ∃ h, process q total = inl h.

(** The poison pills put so far, by program point of the generator. *)
Definition pills_put (p : MainPC E) (nthreads : nat) : nat :=
  match p with
  | M_Poison k => k
  | M_PoisonRelease k => S k
  | M_Drain | M_PopDrain | G_Done => nthreads
  | _ => 0
  end.

(** The worker is not handling a fault. *)
Definition calm (w : WorkerPC H E) : Prop :=
  match w with
  | W_Kill _ _ | W_Fail _ _ | W_Crashed => False
  | _ => True
  end.

(** The invariant of the runs without a fault. *)
Record Live (s : State) : Prop := mkLive {
  live_kill : kill_switch s = false;
  live_threads : ∀ i w, threads s !! i = Some w → calm w;
  live_pc : ∀ e, pc s ≠ M_Except e;
  (* the queue holds chores, then pills; a worker that has returned took a
     pill, which it can only do once the chores are gone *)
  live_queue : ∃ ids pills,
    query_queue s = (Some <$> ids) ++ replicate pills None ∧
    pills + sum_list_with returned (threads s)
      = pills_put (pc s) (length (threads s)) ∧
    (ids = [] ∨ sum_list_with returned (threads s) = 0)
}.

(** The worker has a permit or a chore in hand. *)
Definition busy (w : WorkerPC H E) : bool :=
  match w with
  | W_Get | W_Process _ | W_Complete _ _ => true
  | _ => false
  end.

(** The callback does the same whatever the counter it is handed, so that
    [process] depends on the query only. *)
Definition deterministic : Prop :=
  ∀ q total total', callback q total = callback q total'.

(** A schedule in which the worker [i] has no turn. *)
Definition others (i : nat) (sched : list Actor) : Prop :=
  Forall (λ a, a ≠ Worker i) sched.

(** No actor can move. *)
Definition stuck (s : State) : Prop := ∀ a, step a s = None.

(** The actions a worker has before it, at most, once the kill switch is
    set. *)
Definition rank (w : WorkerPC H E) : nat :=
  match w with
  | W_Returned | W_Crashed => 0
  | W_Loop => 1
  | W_Complete _ _ | W_Fail _ _ => 2
  | W_Kill _ _ => 3
  | W_Process _ => 4
  | W_Get => 5
  | W_Acquire => 6
  end.

(** The turns of an actor in a schedule. *)
Definition turns_of (a : Actor) (sched : list Actor) : nat :=
  length (filter (λ b, b = a) sched).

(** The queries the generator has taken from its input [qs0] so far, and
    what the counter [query_count] records of them. *)
Definition consumed (qs0 : list Q) (s : State) : nat :=
  length qs0 - length (queries s).
Definition Counted (qs0 : list Q) (s : State) : Prop :=
  length (queries s) ≤ length qs0 ∧
  query_count s = (Z.of_nat (consumed qs0 s) mod 2 ^ 64)%Z.

(** The caller has received an exception. *)
Definition has_raised (out : list (Output H E)) : Prop :=
  ∃ e, Raised e ∈ out.

(** Every worker thread has left [run]. *)
Definition all_returned (s : State) : Prop :=
  ∀ i w, threads s !! i = Some w → w = W_Returned.

(** *** Counting lemmas *)

Lemma sum_list_with_insert {A} (f : A → nat) l i x y :
  l !! i = Some x →
  sum_list_with f (<[i:=y]> l) + f x = sum_list_with f l + f y.
Proof.
  revert i. induction l as [|a l IH]; intros [|i] Hi; simplify_eq/=; [lia|].
  specialize (IH _ Hi). lia.
Qed.

Lemma sum_list_with_snoc {A} (f : A → nat) l x :
  sum_list_with f (l ++ [x]) = sum_list_with f l + f x.
Proof. rewrite sum_list_with_app. simpl. lia. Qed.

Lemma is_done_alloc c (chs : list (Chore Q H E)) q :
  is_done c (chs ++ [new_chore q]) = is_done c chs.
Proof.
  unfold is_done. destruct (decide (c < length chs)) as [Hlt|Hge].
  - by rewrite lookup_app_l.
  - rewrite (lookup_ge_None_2 chs c) by lia.
    destruct (decide (c = length chs)) as [->|Hne].
    + by rewrite list_lookup_middle.
    + rewrite lookup_ge_None_2; [done|]. rewrite length_app. simpl. lia.
Qed.

Lemma is_done_insert_ne c c' (chs : list (Chore Q H E)) ch :
  c ≠ c' → is_done c (<[c':=ch]> chs) = is_done c chs.
Proof. intros Hne. unfold is_done. by rewrite list_lookup_insert_ne. Qed.

Lemma is_done_insert_eq c (chs : list (Chore Q H E)) ch :
  c < length chs → is_done c (<[c:=ch]> chs) = if event ch then 1 else 0.
Proof. intros Hlt. unfold is_done. by rewrite list_lookup_insert_eq. Qed.

Lemma is_done_lt c (chs : list (Chore Q H E)) :
  is_done c chs = 1 → c < length chs.
Proof.
  unfold is_done. destruct (chs !! c) eqn:Hc; [|done].
  intros _. by eapply lookup_lt_Some.
Qed.

Lemma is_done_le_1 c (chs : list (Chore Q H E)) : is_done c chs ≤ 1.
Proof. unfold is_done. destruct (chs !! c) as [ch|]; [destruct (event ch)|]; lia. Qed.

Lemma sum_list_with_update {A} (f : A → nat) l i x y :
  l !! i = Some x →
  ∃ r, sum_list_with f l = r + f x ∧ sum_list_with f (<[i:=y]> l) = r + f y.
Proof.
  intros Hi. pose proof (sum_list_with_insert f l i x y Hi).
  assert (f x ≤ sum_list_with f l).
  { apply sum_list_with_in. by eapply list_elem_of_lookup_2. }
  exists (sum_list_with f l - f x). lia.
Qed.

Ltac sum_update Hi :=
  repeat match goal with
  | |- context [sum_list_with ?f (<[?i:=?y]> ?l)] =>
      let r := fresh "r" in
      let H1 := fresh "Hsum" in
      let H2 := fresh "Hsum" in
      destruct (sum_list_with_update f l i _ y Hi) as (r & H1 & H2);
      rewrite H2; try rewrite H1 in *; clear H2
  end.

Lemma threads_ok_update qs0 kill kill' (ths : list (WorkerPC H E)) i w' :
  (∀ j w, ths !! j = Some w → worker_ok qs0 kill w) →
  (kill = true → kill' = true) →
  worker_ok qs0 kill' w' →
  ∀ j w, <[i:=w']> ths !! j = Some w → worker_ok qs0 kill' w.
Proof.
  intros Hall Hk Hw' j w Hj.
  destruct (decide (j = i)) as [->|Hne].
  - apply list_lookup_insert_Some in Hj as [(_ & -> & _)|[? _]]; done.
  - rewrite list_lookup_insert_ne in Hj by done.
    specialize (Hall _ _ Hj). destruct w; simpl in *; try done.
    destruct Hall; split; auto.
Qed.

Ltac solve_pool :=
  match goal with
  | H : (_ ≤ _)%Z ∧ (_ ≠ M_Spawn → _) |- _ ∧ (_ ≠ M_Spawn → _) =>
      let Hpool := fresh "Hpool" in
      destruct H as [? Hpool]; split; [done|]; intros _; by apply Hpool
  end.

(** A chore held by a worker is not done, and nobody else has it. *)
Lemma held_not_done qs0 s i w c :
  Inv qs0 s → threads s !! i = Some w → holds c w = 1 →
  is_done c (chores s) = 0.
Proof.
  intros HI Hi Hc. pose proof (inv_tokens _ _ HI c) as Htok.
  destruct (sum_list_with_update (holds c) _ _ _ w Hi) as (r & Hr & _).
  unfold enqueued in Htok. case_decide; lia.
Qed.

Lemma finish_chore_inv qs0 s i w c ch' :
  Inv qs0 s → threads s !! i = Some w → holds c w = 1 →
  event ch' = true → chore_ok qs0 c ch' →
  Inv qs0 (set_thread i W_Loop (set_chores (<[c:=ch']> (chores s)) s)).
Proof.
  intros HI Hi Hc Hev Hok.
  pose proof (held_not_done _ _ _ _ _ HI Hi Hc) as Hundone.
  destruct s as [cp qs chs sem qu cnt kill res ths p susp out].
  destruct HI as [Icpus Iqs Ichs Iths Itok Iperm Ipool Iqu Ires Ipop Iout Idel Iyld Ipc].
  simpl in *.
  assert (Hclt : c < length chs).
  { specialize (Itok c).
    destruct (sum_list_with_update (holds c) _ _ _ w Hi) as (r & Hr & _).
    unfold enqueued in Itok. case_decide; lia. }
  assert (Hout : length out ≤ c).
  { destruct (decide (c < length out)) as [Hlt|]; [|lia].
    specialize (Idel _ Hlt). lia. }
  assert (Hgetw : at_get w = 0) by (destruct w; simpl in *; done).
  split; simpl; rewrite ?length_insert; try done.
  - intros c' ch'' Hc'. destruct (decide (c' = c)) as [->|Hne].
    + rewrite list_lookup_insert_eq in Hc' by done. by simplify_eq.
    + rewrite list_lookup_insert_ne in Hc' by done. eauto.
  - eapply threads_ok_update; eauto; done.
  - intros c'. specialize (Itok c'). sum_update Hi.
    destruct (decide (c' = c)) as [->|Hne].
    + rewrite is_done_insert_eq, Hev by done. simpl. lia.
    + rewrite is_done_insert_ne by done.
      assert (holds c' w = 0); [|simpl; lia].
      destruct w; simpl in *; try done; repeat case_decide; simplify_eq; lia.
  - sum_update Hi. simpl. lia.
  - by rewrite take_insert_ge.
  - intros c' Hc'. rewrite is_done_insert_ne by lia. eauto.
  - intros c' ch0 Hc' Hl. rewrite list_lookup_insert_ne in Hl by lia. eauto.
  - destruct p; simpl in *; rewrite ?length_insert; try done.
    + destruct Ipc as [? Hd]. split; [done|].
      rewrite is_done_insert_ne; [done|]. intros Heq. rewrite Heq in Hd. lia.
    + destruct Ipc as (ch0 & Hl & Hev0 & He0). exists ch0.
      rewrite list_lookup_insert_ne; [done|]. intros Heq. rewrite <- Heq in Hl.
      unfold is_done in Hundone. rewrite Hl, Hev0 in Hundone. done.
Qed.

Lemma worker_step_inv qs0 s i w s' :
  Inv qs0 s → threads s !! i = Some w → worker_step i w s = Some s' →
  Inv qs0 s'.
Proof.
  destruct s as [cp qs chs sem qu cnt kill res ths p susp out].
  intros HI Hi Hstep.
  pose proof HI as [Icpus Iqs Ichs Iths Itok Iperm Ipool Iqu Ires Ipop Iout Idel Iyld Ipc].
  simpl in *.
  pose proof (Iths _ _ Hi) as Hw.
  destruct w; simpl in Hstep, Hw.
  - (* W_Loop *)
    simplify_eq. split; simpl; rewrite ?length_insert; try done.
    + eapply threads_ok_update; eauto. by destruct kill.
    + intros c. specialize (Itok c). sum_update Hi. by destruct kill.
    + sum_update Hi. by destruct kill.
  - (* W_Acquire *)
    destruct sem as [|sem]; simplify_eq;
      (split; simpl; rewrite ?length_insert; try done).
    + eapply threads_ok_update; eauto.
    + intros c. specialize (Itok c). by sum_update Hi.
    + by sum_update Hi.
    + eapply threads_ok_update; eauto.
    + intros c. specialize (Itok c). by sum_update Hi.
    + sum_update Hi. simpl in *. lia.
  - (* W_Get *)
    destruct qu as [|[c|] qu]; simplify_eq.
    { exfalso. sum_update Hi.
      destruct (sum_list_with_update at_get _ _ _ W_Get Hi) as (r & Hr & _).
      simpl in *. lia. }
    all: split; simpl; rewrite ?length_insert; try done.
    all: try (eapply threads_ok_update; by eauto).
    all: try (intros c'; specialize (Itok c'); sum_update Hi; simpl in *;
              repeat case_decide; simplify_eq; lia).
    all: try (sum_update Hi; simpl in *; lia).
    all: simpl in *; lia.
  - (* W_Process *)
    destruct (chs !! c) as [ch|] eqn:Hc; simplify_eq/=.
    destruct (Ichs _ _ Hc) as [Hq _].
    destruct (process (query ch) cnt) eqn:Hp; simplify_eq.
    all: split; simpl; rewrite ?length_insert; try done.
    all: try (eapply threads_ok_update; eauto; simpl; by eauto).
    all: try (intros c'; specialize (Itok c'); by sum_update Hi).
    all: try (by sum_update Hi).
  - (* W_Complete *)
    destruct (chs !! c) as [ch|] eqn:Hc; simplify_eq/=.
    destruct Hw as (q & total & Hq & Hp).
    destruct (Ichs _ _ Hc) as [Hq' Hch].
    assert (Hholds : holds c (W_Complete c h : WorkerPC H E) = 1)
      by (simpl; by case_decide).
    pose proof (held_not_done _ _ _ _ _ HI Hi Hholds) as Hundone.
    simpl in Hundone. unfold is_done in Hundone. rewrite Hc in Hundone.
    destruct (event ch) eqn:Hev; [done|]. destruct Hch as [Hh He].
    apply (finish_chore_inv _ _ _ _ c (complete ch h) HI Hi Hholds); [done|].
    split; simpl; [done|]. simplify_eq. exists total. by rewrite Hp.
  - (* W_Kill *)
    simplify_eq.
    split; simpl; rewrite ?length_insert; try done.
    all: try (eapply threads_ok_update; by eauto).
    all: try (intros c'; specialize (Itok c'); by sum_update Hi).
    all: try (by sum_update Hi).
  - (* W_Fail *)
    destruct (chs !! c) as [ch|] eqn:Hc; simplify_eq/=.
    destruct Hw as [(q & total & Hq & Hp) Hkill].
    destruct (Ichs _ _ Hc) as [Hq' Hch].
    assert (Hholds : holds c (W_Fail c e : WorkerPC H E) = 1)
      by (simpl; by case_decide).
    pose proof (held_not_done _ _ _ _ _ HI Hi Hholds) as Hundone.
    simpl in Hundone. unfold is_done in Hundone. rewrite Hc in Hundone.
    destruct (event ch) eqn:Hev; [done|]. destruct Hch as [Hh He].
    apply (finish_chore_inv _ _ _ _ c (fail ch e) HI Hi Hholds); [done|].
    split; simpl; [done|]. simplify_eq. exists total. by rewrite Hp.
  - done.
  - done.
Qed.

Lemma drop_cons_inv {A} (l : list A) n x rest :
  drop n l = x :: rest → l !! n = Some x ∧ drop (S n) l = rest.
Proof.
  intros Hd. assert (Hx : l !! n = Some x).
  { rewrite <- (Nat.add_0_r n), <- lookup_drop, Hd. done. }
  split; [done|]. rewrite (drop_S _ _ _ Hx) in Hd. by simplify_eq.
Qed.

Lemma seq_head_tail lo len :
  1 ≤ len → head (seq lo len) = Some lo ∧ tail (seq lo len) = seq (S lo) (len - 1).
Proof. destruct len; [lia|]. simpl. by rewrite Nat.sub_0_r. Qed.

(** [yield results[0].get()] keeps the invariant, at both places. *)
Lemma yield_head_inv qs0 s s' next :
  Inv qs0 s → suspended s = false →
  (pc s = M_YieldFeed ∧ next = M_PopFeed) ∨
  (pc s = M_Drain ∧ next = M_PopDrain ∧ results s ≠ []) →
  yield_head next s = Some s' → Inv qs0 s'.
Proof.
  destruct s as [cp qs chs sem qu cnt kill res ths p susp out].
  intros HI Hsusp Hpc Hstep.
  pose proof HI as [Icpus Iqs Ichs Iths Itok Iperm Ipool Iqu Ires Ipop Iout Idel Iyld Ipc].
  unfold yield_head, head_chore in Hstep. simpl in *.
  assert (Hlen : 1 ≤ length res).
  { destruct Hpc as [[-> _]|(_ & _ & Hne)]; simpl in *; [lia|].
    destruct res; simpl; [done|lia]. }
  assert (Hres : res = seq (length out) (length res)
                 ∧ length out + length res = length chs).
  { destruct Hpc as [[-> _]|(-> & _)]; simpl in *;
      destruct (Ires ltac:(done)) as [Hres Hcount];
      rewrite Nat.sub_0_r in Hres, Hcount; (split; [done|lia]). }
  destruct Hres as [Hres Hcount].
  destruct (seq_head_tail (length out) _ Hlen) as [Hhead _].
  rewrite <- Hres in Hhead. rewrite Hhead in Hstep. simpl in Hstep.
  destruct (chs !! length out) as [ch|] eqn:Hch; simplify_eq/=.
  unfold get in Hstep. destruct (event ch) eqn:Hev; [|done].
  destruct (exception ch) as [e|] eqn:Hexc; simplify_eq.
  - (* the exception is raised into the generator *)
    destruct Hpc as [[-> ->]|(-> & -> & Hne)]; simpl in *.
    all: split; simpl; rewrite ?Nat.sub_0_r; try done.
    all: try (split; [done|lia]).
    all: try (split; [lia|tauto]).
    all: try solve_pool.
    all: exists ch; done.
  - (* the hits are yielded *)
    assert (Hout' : outcome <$> take (length (out ++ [Yielded (hits ch)])) chs
                    = out ++ [Yielded (hits ch)]).
    { rewrite length_app, Nat.add_1_r. rewrite (take_S_r _ _ _ Hch), fmap_app.
      rewrite <- Iout. simpl. unfold outcome. by rewrite Hexc. }
    assert (Hdel' : ∀ c, c < length (out ++ [Yielded (hits ch)]) →
                         is_done c chs = 1).
    { intros c. rewrite length_app. simpl. intros Hc.
      destruct (decide (c = length out)) as [->|Hne].
      - unfold is_done. by rewrite Hch, Hev.
      - apply Idel. lia. }
    assert (Hyld' : ∀ c ch0, c + 0 < length (out ++ [Yielded (hits ch)]) →
                             chs !! c = Some ch0 → exception ch0 = None).
    { intros c ch0. rewrite length_app. simpl. intros Hc Hl.
      destruct (decide (c = length out)) as [->|Hne].
      - by simplify_eq.
      - destruct Hpc as [[-> _]|(-> & _)]; (eapply Iyld; [|done]); simpl; lia. }
    destruct Hpc as [[-> ->]|(-> & -> & Hne)]; simpl in *.
    all: split; simpl; try done.
    all: rewrite ?length_app; simpl.
    all: try (intros _; replace (length out + 1 - 1) with (length out) by lia).
    all: try (split; [done|lia]).
    all: try lia.
    all: try solve_pool.
Qed.

Ltac auto_inv Itok :=
  simpl; rewrite ?length_app, ?Nat.sub_0_r; simpl;
  try done;
  try lia;
  try solve_pool;
  try (intros _; split; [done|lia]);
  try (split; [done|lia]);
  try (split; lia);
  try (let c := fresh "c" in
       intros c; specialize (Itok c); rewrite ?sum_list_with_snoc;
       unfold enqueued in *; simpl in *;
       repeat case_decide; simplify_eq; lia);
  try (rewrite ?sum_list_with_snoc; simpl in *; lia).

Lemma main_step_inv qs0 s s' :
  Inv qs0 s → main_step s = Some s' → Inv qs0 s'.
Proof.
  destruct s as [cp qs chs sem qu cnt kill res ths p susp out].
  intros HI Hstep.
  pose proof HI as [Icpus Iqs Ichs Iths Itok Iperm Ipool Iqu Ires Ipop Iout Idel Iyld Ipc].
  unfold main_step in Hstep. simpl in *.
  destruct susp.
  { destruct p; simplify_eq; by split. }
  destruct p; simpl in *; try done;
    destruct (Ires ltac:(done)) as [Hres Hcount]; simpl in Hres, Hcount;
    rewrite ?Nat.sub_0_r in Hres, Hcount.
  - (* M_Spawn *)
    case_match eqn:Hlt; simplify_eq;
      [apply Z.ltb_lt in Hlt|apply Z.ltb_ge in Hlt].
    all: split; auto_inv Itok.
    all: try (split; [lia|]; intros _; lia).
    all: try (split; [lia|done]).
    intros i w Hi; apply lookup_app_Some in Hi as [Hi|[_ Hi]]; [by eauto|].
    destruct (i - length ths) as [|?]; by simplify_eq/=.
  - (* M_Feed *)
    destruct (drop (length chs) qs0) as [|q rest] eqn:Hdrop; simplify_eq.
    + split; auto_inv Itok.
    + apply drop_cons_inv in Hdrop as [Hq Hrest].
      split; auto_inv Itok.
      * by rewrite Nat.add_1_r.
      * intros c ch Hc. apply lookup_app_Some in Hc as [Hc|[Hge Hc]]; [eauto|].
        destruct (c - length chs) as [|?] eqn:Hcd; simplify_eq/=.
        replace c with (length chs) by lia. by split.
      * intros c. specialize (Itok c). rewrite is_done_alloc.
        unfold enqueued in *. simpl in *. repeat case_decide; lia.
      * rewrite take_app_le by lia. done.
      * intros c Hc. rewrite is_done_alloc. eauto.
      * intros c ch Hc Hl. rewrite lookup_app_l in Hl by lia. eauto.
  - (* M_Put *)
    case_match eqn:Hfull; simplify_eq.
    apply andb_false_iff in Hfull as [Hfull|Hfull]; [lia|].
    apply Z.leb_gt in Hfull.
    split; auto_inv Itok.
  - (* M_Release *)
    simplify_eq. split; auto_inv Itok.
  - (* M_Append *)
    assert (Hres' : res ++ [c] = seq (length out) (S (length res))).
    { rewrite seq_S, <- Hres. f_equal. f_equal. lia. }
    assert (Hhead : head (res ++ [c]) = Some (length out)) by by rewrite Hres'.
    unfold head_chore in Hstep. simpl in Hstep. rewrite Hhead in Hstep.
    simpl in Hstep.
    destruct (chs !! length out) as [ch|] eqn:Hch; simplify_eq/=.
    unfold available.
    destruct (event ch) eqn:Hev; split; auto_inv Itok.
    all: try (intros _; rewrite Nat.add_1_r; split; [done|lia]).
    split; [lia|]. unfold is_done. by rewrite Hch, Hev.
  - (* M_YieldFeed *)
    eapply yield_head_inv; [exact HI|done| |exact Hstep]. left. done.
  - (* M_PopFeed *)
    simplify_eq.
    destruct (seq_head_tail (length out - 1) (length res)) as [_ Htail]; [lia|].
    rewrite <- Hres in Htail.
    split; auto_inv Itok.
    intros _. rewrite Htail, length_seq.
    replace (S (length out - 1)) with (length out) by lia. split; [done|lia].
  - (* M_Poison *)
    case_match eqn:Hk; [apply Nat.ltb_lt in Hk|apply Nat.ltb_ge in Hk].
    + case_match eqn:Hfull; simplify_eq.
      apply andb_false_iff in Hfull as [Hfull|Hfull]; [lia|].
      apply Z.leb_gt in Hfull.
      split; auto_inv Itok. destruct Ipc. split; [done|lia].
    + simplify_eq. split; auto_inv Itok. by destruct Ipc.
  - (* M_PoisonRelease *)
    simplify_eq. split; auto_inv Itok.
  - (* M_Drain *)
    destruct res as [|c0 res'] eqn:Hr.
    + simplify_eq. split; auto_inv Itok.
      * intros c ch Hc. apply Iyld. lia.
      * right. simpl in *. split; [done|lia].
    + eapply yield_head_inv; [exact HI|done| |exact Hstep]. right. done.
  - (* M_PopDrain *)
    simplify_eq.
    destruct (seq_head_tail (length out - 1) (length res)) as [_ Htail]; [lia|].
    rewrite <- Hres in Htail.
    split; auto_inv Itok.
    intros _. rewrite Htail, length_seq.
    replace (S (length out - 1)) with (length out) by lia. split; [done|lia].
  - (* M_Except *)
    simplify_eq. destruct Ipc as (ch & Hch & Hev & Hexc).
    split; auto_inv Itok.
    + intros i w Hi. specialize (Iths _ _ Hi). destruct w; simpl in *; try done.
      by destruct Iths.
    + rewrite Nat.add_1_r. rewrite (take_S_r _ _ _ Hch), fmap_app.
      rewrite <- Iout. simpl. unfold outcome. by rewrite Hexc.
    + intros c Hc. destruct (decide (c = length out)) as [->|Hne].
      * unfold is_done. by rewrite Hch, Hev.
      * apply Idel. lia.
    + intros c ch0 Hc Hl. eapply Iyld; [|done]. lia.
    + left. exists e. by rewrite last_snoc.
Qed.

Lemma step_inv qs0 a s s' : Inv qs0 s → step a s = Some s' → Inv qs0 s'.
Proof.
  intros HI. destruct a as [|i]; simpl.
  - by apply main_step_inv.
  - destruct (threads s !! i) as [w|] eqn:Hi; [|done]. simpl.
    by apply worker_step_inv.
Qed.

Lemma sched_step_inv qs0 a s : Inv qs0 s → Inv qs0 (sched_step s a).
Proof.
  intros HI. unfold sched_step. destruct (step a s) as [s'|] eqn:Hs; [|done].
  simpl. by eapply step_inv.
Qed.

Lemma exec_inv qs0 sched s : Inv qs0 s → Inv qs0 (exec sched s).
Proof.
  revert s. induction sched as [|a sched IH]; intros s HI; [done|].
  simpl. apply IH. by apply sched_step_inv.
Qed.

Lemma exec_app sched1 sched2 s :
  exec (sched1 ++ sched2) s = exec sched2 (exec sched1 s).
Proof. apply foldl_app. Qed.

Lemma multi_threaded_inv (d : Dispatcher Q) :
  (1 ≤ d_cpus d)%Z → Inv (items (d_queries d)) (multi_threaded d).
Proof.
  intros Hc. split; simpl; try done; try lia.
  split; [lia|done].
Qed.

(** *** Termination measure

    Every action other than the idle spin of a worker (the timeout of
    [acquire] and the return to it) uses up some of a finite budget. *)

Local Arguments Nat.mul : simpl never.
Local Arguments Nat.sub : simpl never.

Lemma worker_step_measure s i w s' :
  threads s !! i = Some w → worker_step i w s = Some s' →
  measure s' ≤ measure s ∧ (spins (Worker i) s = false → measure s' < measure s).
Proof.
  destruct s as [cp qs chs sem qu cnt kill res ths p susp out].
  intros Hi Hstep. unfold spins, measure, main_cost. simpl in *. rewrite Hi.
  destruct w; simpl in Hstep.
  - simplify_eq/=. rewrite ?length_insert. sum_update Hi.
    destruct kill; simpl; split; try done; lia.
  - destruct sem as [|sem]; simplify_eq/=; rewrite ?length_insert;
      sum_update Hi; simpl; (split; [lia|]); try done. lia.
  - destruct qu as [|[c|] qu]; simplify_eq/=; rewrite ?length_insert;
      sum_update Hi; simpl; lia.
  - destruct (chs !! c) as [ch|]; simplify_eq/=.
    destruct (process (query ch) cnt); simplify_eq/=; rewrite ?length_insert;
      sum_update Hi; simpl; lia.
  - destruct (chs !! c) as [ch|]; simplify_eq/=. rewrite ?length_insert.
    sum_update Hi; simpl; lia.
  - simplify_eq/=. rewrite ?length_insert. sum_update Hi; simpl; lia.
  - destruct (chs !! c) as [ch|]; simplify_eq/=. rewrite ?length_insert.
    sum_update Hi; simpl; lia.
  - done.
  - done.
Qed.

Ltac unfold_measure :=
  unfold measure, main_cost, feed_cost, drain_cost, yield, raise;
  cbn [pc queries chores query_available query_queue query_count cpus
       kill_switch results threads suspended output set_pc set_suspended
       set_output set_queries set_chores set_query_queue set_results
       set_query_count set_query_available set_kill_switch set_threads];
  rewrite ?length_app, ?sum_list_with_snoc; cbn [length weight].

Lemma yield_head_measure s s' next :
  suspended s = false → results s ≠ [] →
  (pc s = M_YieldFeed ∧ next = M_PopFeed) ∨
  (pc s = M_Drain ∧ next = M_PopDrain) →
  yield_head next s = Some s' → measure s' < measure s.
Proof.
  destruct s as [cp qs chs sem qu cnt kill res ths p susp out].
  unfold yield_head. cbn. intros -> Hres Hpc Hstep.
  destruct res as [|c res]; [done|].
  destruct (head_chore _) as [ch|]; simplify_eq/=.
  destruct (get ch); simplify_eq/=.
  all: destruct Hpc as [[-> ->]|[-> ->]]; unfold_measure; lia.
Qed.

Lemma main_step_measure qs0 s s' :
  Inv qs0 s → main_step s = Some s' → measure s' < measure s.
Proof.
  destruct s as [cp qs chs sem qu cnt kill res ths p susp out].
  intros HI Hstep.
  pose proof (inv_pool _ _ HI) as Ipool.
  pose proof (inv_popping _ _ HI) as Ipop.
  pose proof (inv_pc _ _ HI) as Ipc.
  unfold main_step in Hstep.
  cbn [pc queries chores query_available query_queue query_count cpus
       kill_switch results threads suspended output] in *.
  destruct susp.
  { destruct p; simplify_eq; unfold_measure; lia. }
  destruct p; try done.
  - (* M_Spawn *)
    case_match eqn:Hlt; simplify_eq;
      [apply Z.ltb_lt in Hlt|apply Z.ltb_ge in Hlt]; unfold_measure; lia.
  - (* M_Feed *)
    destruct qs as [|q qs]; simplify_eq/=; unfold_measure; lia.
  - (* M_Put *)
    case_match; simplify_eq. unfold_measure; lia.
  - (* M_Release *)
    simplify_eq. unfold_measure; lia.
  - (* M_Append *)
    simpl in Hstep. destruct (head_chore _) as [ch|]; simplify_eq/=.
    destruct (available ch); unfold_measure; lia.
  - (* M_YieldFeed *)
    eapply yield_head_measure; [done| |by left|exact Hstep].
    simpl in *. destruct res; simpl in *; [lia|done].
  - (* M_PopFeed *)
    simplify_eq. destruct res as [|c res]; simpl in *; [lia|].
    unfold_measure. lia.
  - (* M_Poison *)
    case_match eqn:Hk; [apply Nat.ltb_lt in Hk|apply Nat.ltb_ge in Hk].
    + case_match; simplify_eq. unfold_measure. lia.
    + simplify_eq. unfold_measure. lia.
  - (* M_PoisonRelease *)
    simplify_eq. simpl in Ipc. unfold_measure. lia.
  - (* M_Drain *)
    destruct res as [|c res]; simplify_eq/=; [unfold_measure; lia|].
    eapply yield_head_measure; [done| |by right|exact Hstep]. done.
  - (* M_PopDrain *)
    simplify_eq. destruct res as [|c res]; simpl in *; [lia|].
    unfold_measure. lia.
  - (* M_Except *)
    simplify_eq. unfold_measure. lia.
Qed.

Lemma step_measure qs0 a s s' :
  Inv qs0 s → step a s = Some s' →
  measure s' ≤ measure s ∧ (spins a s = false → measure s' < measure s).
Proof.
  intros HI. destruct a as [|i].
  - intros Hstep. pose proof (main_step_measure _ _ _ HI Hstep). split; [lia|done].
  - simpl. destruct (threads s !! i) as [w|] eqn:Hi; [|done]. simpl.
    intros Hstep. pose proof (worker_step_measure _ _ _ _ Hi Hstep) as Hm.
    simpl in Hm. by rewrite Hi in Hm.
Qed.

Lemma productive_measure qs0 sched s :
  Inv qs0 s → productive sched s + measure (exec sched s) ≤ measure s.
Proof.
  revert s. induction sched as [|a sched IH]; intros s HI; [simpl; lia|].
  change (productive (a :: sched) s + measure (exec sched (sched_step s a))
          ≤ measure s).
  cbn [productive]. unfold sched_step.
  destruct (step a s) as [s'|] eqn:Hs; simpl.
  - destruct (step_measure _ _ _ _ HI Hs) as [Hle Hlt].
    specialize (IH s' (step_inv _ _ _ _ HI Hs)).
    destruct (spins a s); [lia|]. specialize (Hlt eq_refl). lia.
  - by apply IH.
Qed.

(** *** Runs in which the engine raises on no query *)

Lemma calm_update (ths : list (WorkerPC H E)) i w' :
  (∀ j w, ths !! j = Some w → calm w) → calm w' →
  ∀ j w, <[i:=w']> ths !! j = Some w → calm w.
Proof.
  intros Hall Hw' j w Hj. destruct (decide (j = i)) as [->|Hne].
  - apply list_lookup_insert_Some in Hj as [(_ & -> & _)|[? _]]; done.
  - rewrite list_lookup_insert_ne in Hj by done. eauto.
Qed.

Lemma chore_no_fault qs0 c ch :
  no_fault qs0 → chore_ok qs0 c ch → exception ch = None.
Proof.
  intros Hnf [Hq Hch]. destruct (event ch); [|by destruct Hch].
  destruct Hch as [total Hch].
  destruct (Hnf (query ch) total) as [h Hp].
  { by eapply list_elem_of_lookup_2. }
  rewrite Hp in Hch. by destruct Hch.
Qed.

Lemma worker_step_live qs0 s i w s' :
  no_fault qs0 → Inv qs0 s → Live s →
  threads s !! i = Some w → worker_step i w s = Some s' → Live s'.
Proof.
  destruct s as [cp qs chs sem qu cnt kill res ths p susp out].
  intros Hnf HI [Lkill Lths Lpc (ids & pills & Lqu & Lpills & Lids)] Hi Hstep.
  pose proof (inv_chores _ _ HI) as Ichs.
  pose proof (Lths _ _ Hi) as Hcalm.
  simpl in *. subst kill.
  destruct w; simpl in Hstep, Hcalm; try done.
  - simplify_eq. split; simpl; rewrite ?length_insert; try done.
    + by eapply calm_update.
    + exists ids, pills. sum_update Hi. simpl in *. done.
  - destruct sem; simplify_eq; (split; simpl; rewrite ?length_insert; try done).
    all: try (by eapply calm_update).
    all: exists ids, pills; sum_update Hi; simpl in *; done.
  - destruct ids as [|c ids]; simpl in Lqu.
    + destruct pills as [|pills]; simpl in Lqu; subst qu; simplify_eq.
      { exfalso.
        apply (inv_threads _ _ (worker_step_inv _ _ _ _ _ HI Hi eq_refl) i W_Crashed).
        simpl. apply list_lookup_insert_eq. by eapply lookup_lt_Some. }
      split; simpl; rewrite ?length_insert; try done.
      * by eapply calm_update.
      * exists [], pills. sum_update Hi. simpl in *.
        split; [done|]. split; [lia|by left].
    + subst qu. simplify_eq.
      split; simpl; rewrite ?length_insert; try done.
      * by eapply calm_update.
      * exists ids, pills. destruct Lids as [?|Lret]; [done|].
        sum_update Hi. simpl in *. split; [done|]. split; [lia|]. right. lia.
  - destruct (chs !! c) as [ch|] eqn:Hc; simplify_eq/=.
    destruct (Ichs _ _ Hc) as [Hq _].
    destruct (Hnf (query ch) cnt) as [h Hp].
    { by eapply list_elem_of_lookup_2. }
    rewrite Hp in Hstep. simplify_eq.
    split; simpl; rewrite ?length_insert; try done.
    + by eapply calm_update.
    + exists ids, pills. sum_update Hi. simpl in *. done.
  - destruct (chs !! c) as [ch|] eqn:Hc; simplify_eq/=.
    split; simpl; rewrite ?length_insert; try done.
    + by eapply calm_update.
    + exists ids, pills. sum_update Hi. simpl in *. done.
Qed.

Lemma yield_head_live qs0 s s' next :
  no_fault qs0 → Inv qs0 s → Live s →
  (∀ e, next ≠ M_Except e) →
  pills_put next (length (threads s)) = pills_put (pc s) (length (threads s)) →
  yield_head next s = Some s' → Live s'.
Proof.
  destruct s as [cp qs chs sem qu cnt kill res ths p susp out].
  intros Hnf HI [Lkill Lths Lpc Lqu] Hnext Hpills Hstep.
  pose proof (inv_chores _ _ HI) as Ichs.
  unfold yield_head, head_chore in Hstep. simpl in *.
  destruct (head res) as [c|]; simplify_eq/=.
  destruct (chs !! c) as [ch|] eqn:Hc; simplify_eq/=.
  pose proof (chore_no_fault _ _ _ Hnf (Ichs _ _ Hc)) as Hexc.
  unfold get in Hstep. rewrite Hexc in Hstep.
  destruct (event ch); simplify_eq.
  split; simpl; try done. by rewrite Hpills.
Qed.

Lemma main_step_live qs0 s s' :
  no_fault qs0 → Inv qs0 s → Live s → main_step s = Some s' → Live s'.
Proof.
  destruct s as [cp qs chs sem qu cnt kill res ths p susp out].
  intros Hnf HI HL Hstep.
  pose proof HL as [Lkill Lths Lpc (ids & pills & Lqu & Lpills & Lids)].
  pose proof (inv_pc _ _ HI) as Ipc.
  unfold main_step in Hstep. simpl in *.
  destruct susp.
  { destruct p; simplify_eq; split; simpl; eauto. }
  destruct p; simpl in *; try done.
  - (* M_Spawn *)
    case_match; simplify_eq; (split; simpl; try done).
    + intros i w Hi. apply lookup_app_Some in Hi as [Hi|[_ Hi]]; [by eauto|].
      destruct (i - length ths) as [|?]; by simplify_eq/=.
    + exists ids, pills. rewrite sum_list_with_snoc. simpl. by rewrite Nat.add_0_r.
    + eauto.
  - (* M_Feed *)
    destruct qs as [|q rest]; simplify_eq; split; simpl; eauto.
  - (* M_Put *)
    case_match; simplify_eq. split; simpl; try done.
    assert (pills = 0) as -> by lia.
    exists (ids ++ [c]), 0. simpl. rewrite !app_nil_r, fmap_app.
    split; [done|]. split; [done|]. right. lia.
  - (* M_Release *)
    simplify_eq. split; simpl; eauto.
  - (* M_Append *)
    destruct (head_chore _) as [ch|]; simplify_eq/=.
    split; simpl; try done.
    + by destruct (available ch).
    + exists ids, pills. by destruct (available ch).
  - (* M_YieldFeed *)
    by eapply (yield_head_live _ _ _ M_PopFeed Hnf HI HL).
  - (* M_PopFeed *)
    simplify_eq. split; simpl; eauto.
  - (* M_Poison *)
    case_match eqn:Hk; [apply Nat.ltb_lt in Hk|apply Nat.ltb_ge in Hk].
    + case_match; simplify_eq. split; simpl; try done.
      exists ids, (S pills). rewrite <- app_assoc.
      split; [|split; [lia|done]].
      f_equal. by rewrite replicate_S_end.
    + simplify_eq. split; simpl; try done.
      exists ids, pills. destruct Ipc. split; [done|]. split; [lia|done].
  - (* M_PoisonRelease *)
    simplify_eq. split; simpl; eauto.
  - (* M_Drain *)
    destruct res as [|c res]; simplify_eq/=.
    + split; simpl; eauto.
    + by eapply (yield_head_live _ _ _ M_PopDrain Hnf HI HL).
  - (* M_PopDrain *)
    simplify_eq. split; simpl; eauto.
  - (* M_Except *)
    by destruct (Lpc e).
Qed.

Lemma step_live qs0 a s s' :
  no_fault qs0 → Inv qs0 s → Live s → step a s = Some s' → Live s'.
Proof.
  intros Hnf HI HL. destruct a as [|i]; simpl.
  - by eapply main_step_live.
  - destruct (threads s !! i) as [w|] eqn:Hi; [|done]. simpl.
    by eapply worker_step_live.
Qed.

Lemma exec_live qs0 sched s :
  no_fault qs0 → Inv qs0 s → Live s → Live (exec sched s).
Proof.
  intros Hnf. revert s. induction sched as [|a sched IH]; intros s HI HL; [done|].
  simpl. apply IH; [by apply sched_step_inv|].
  unfold sched_step. destruct (step a s) as [s'|] eqn:Hs; simpl; [|done].
  by eapply step_live.
Qed.

Lemma multi_threaded_live (d : Dispatcher Q) : Live (multi_threaded d).
Proof.
  split; simpl; try done. exists [], 0. simpl. split; [done|]. split; [done|by left].
Qed.

(** *** Progress of a fault-free run *)

Lemma busy_dec (ths : list (WorkerPC H E)) :
  (∃ i w, ths !! i = Some w ∧ busy w = true) ∨
  (∀ i w, ths !! i = Some w → busy w = false).
Proof.
  induction ths as [|w ths IH].
  - right. intros i w. by rewrite lookup_nil.
  - destruct (busy w) eqn:Hw.
    + left. exists 0, w. done.
    + destruct IH as [(i & w' & Hi & Hb)|IH].
      * left. exists (S i), w'. done.
      * right. intros [|i] w' Hi; simplify_eq/=; eauto.
Qed.

Lemma sum_list_with_zero {A} (f : A → nat) l :
  (∀ i x, l !! i = Some x → f x = 0) → sum_list_with f l = 0.
Proof.
  induction l as [|a l IH]; intros Hall; [done|]. simpl.
  rewrite (Hall 0 a eq_refl), IH; [done|]. intros i x Hi. by apply (Hall (S i)).
Qed.

Lemma sum_list_with_lt_length {A} (f : A → nat) l :
  sum_list_with f l < length l → ∃ i x, l !! i = Some x ∧ f x = 0.
Proof.
  induction l as [|a l IH]; simpl; [lia|]. intros Hlt.
  destruct (f a) as [|n] eqn:Ha.
  - exists 0, a. done.
  - destruct IH as (i & x & Hi & Hx); [lia|]. exists (S i), x. done.
Qed.

Lemma queued_pills c n : sum_list_with (queued c) (replicate n None) = 0.
Proof. induction n; simpl; lia. Qed.

Lemma finished_done (p : MainPC E) : finished p = 1 ↔ p = G_Done.
Proof. destruct p; simpl; split; done. Qed.

Lemma busy_progress qs0 s i w :
  Inv qs0 s → threads s !! i = Some w → busy w = true →
  ∃ s', step (Worker i) s = Some s' ∧ measure s' < measure s.
Proof.
  intros HI Hi Hb.
  assert (Hstep : is_Some (worker_step i w s)).
  { destruct w; simpl in Hb; try done; simpl.
    - pose proof (inv_permits _ _ HI) as Hperm.
      destruct (sum_list_with_update at_get _ _ _ W_Get Hi) as (r & Hr & _).
      simpl in Hr. destruct (query_queue s) as [|[c|] qu]; simpl in *; [lia|done..].
    - assert (Hh : holds c (W_Process c : WorkerPC H E) = 1)
        by (simpl; by case_decide).
      pose proof (inv_tokens _ _ HI c) as Htok.
      destruct (sum_list_with_update (holds c) _ _ _ (W_Process c) Hi) as (r & Hr & _).
      unfold enqueued in Htok. case_decide; [|lia].
      destruct (lookup_lt_is_Some_2 (chores s) c) as [ch Hch]; [lia|].
      rewrite Hch. simpl. by destruct (process _ _).
    - assert (Hh : holds c (W_Complete c h : WorkerPC H E) = 1)
        by (simpl; by case_decide).
      pose proof (inv_tokens _ _ HI c) as Htok.
      destruct (sum_list_with_update (holds c) _ _ _ (W_Complete c h) Hi) as (r & Hr & _).
      unfold enqueued in Htok. case_decide; [|lia].
      destruct (lookup_lt_is_Some_2 (chores s) c) as [ch Hch]; [lia|].
      rewrite Hch. done. }
  destruct Hstep as [s' Hstep]. exists s'. simpl. rewrite Hi. simpl.
  split; [done|].
  apply (worker_step_measure _ _ _ _ Hi Hstep). simpl. rewrite Hi.
  by destruct w.
Qed.

Lemma exec_step a sched s s' :
  step a s = Some s' → exec (a :: sched) s = exec sched s'.
Proof.
  intros Hs. change (exec sched (sched_step s a) = exec sched s').
  unfold sched_step. by rewrite Hs.
Qed.

Lemma idle_progress qs0 s i w :
  Inv qs0 s → kill_switch s = false → 0 < query_available s →
  threads s !! i = Some w → w = W_Loop ∨ w = W_Acquire →
  ∃ sched, measure (exec sched s) < measure s.
Proof.
  intros HI Hkill Hsem Hi Hw.
  assert (Hacq : ∀ s1, threads s1 !! i = Some W_Acquire →
                       query_available s1 = query_available s →
                       ∃ s2, step (Worker i) s1 = Some s2 ∧ measure s2 < measure s1).
  { intros s1 Hi1 Hsem1. simpl. rewrite Hi1. simpl.
    destruct (query_available s1) as [|n] eqn:Hn; [lia|].
    eexists. split; [done|].
    apply (worker_step_measure s1 i W_Acquire); [done| |].
    - simpl. by rewrite Hn.
    - simpl. by rewrite Hi1, Hn. }
  destruct Hw as [->| ->].
  - set (s1 := set_thread i W_Acquire s).
    assert (Hs1 : step (Worker i) s = Some s1).
    { simpl. rewrite Hi. simpl. by rewrite Hkill. }
    assert (Hm : measure s1 ≤ measure s).
    { apply (worker_step_measure s i W_Loop); [done|]. simpl. by rewrite Hkill. }
    destruct (Hacq s1) as (s2 & Hs2 & Hm2); [|done|].
    { simpl. apply list_lookup_insert_eq. by eapply lookup_lt_Some. }
    exists [Worker i; Worker i].
    rewrite (exec_step _ _ _ _ Hs1), (exec_step _ _ _ _ Hs2). simpl. lia.
  - destruct (Hacq s) as (s2 & Hs2 & Hm2); [done..|].
    exists [Worker i]. by rewrite (exec_step _ _ _ _ Hs2).
Qed.

Lemma idle_worker w : calm w → busy w = false → returned w = 0 →
  (w = W_Loop ∨ w = W_Acquire) ∧ at_get w = 0 ∧ ∀ c, holds c w = 0.
Proof. destruct w; simpl; intros; try done; auto. Qed.

(** When the generator is blocked and no worker is working, there is an
    item with a free permit in the queue and a worker that has not
    returned. *)
Lemma main_blocked qs0 s :
  Inv qs0 s → Live s → pc s ≠ G_Done → main_step s = None →
  (∀ i w, threads s !! i = Some w → busy w = false) →
  0 < query_available s ∧
  sum_list_with returned (threads s) < length (threads s).
Proof.
  destruct s as [cp qs chs sem qu cnt kill res ths p susp out].
  intros HI HL Hpc Hstep Hidle.
  pose proof HL as [Lkill Lths Lpc (ids & pills & Lqu & Lpills & Lids)].
  pose proof HI as [Icpus Iqs Ichs Iths Itok Iperm Ipool Iqu Ires Ipop Iout Idel Iyld Ipc].
  unfold main_step in Hstep. simpl in *.
  assert (Hget : sum_list_with at_get ths = 0).
  { apply sum_list_with_zero. intros i w Hi.
    specialize (Hidle _ _ Hi). specialize (Lths _ _ Hi). by destruct w. }
  assert (Hholds : ∀ c, sum_list_with (holds c) ths = 0).
  { intros c. apply sum_list_with_zero. intros i w Hi.
    specialize (Hidle _ _ Hi). specialize (Lths _ _ Hi). by destruct w. }
  destruct susp; [by destruct p|].
  destruct p; simpl in *; try done;
    destruct (Ires ltac:(done)) as [Hres Hcount]; simpl in Hres, Hcount;
    rewrite ?Nat.sub_0_r in Hres, Hcount.
  - (* M_Spawn *) by case_match.
  - (* M_Feed *) by destruct qs.
  - (* M_Put *)
    case_match eqn:Hfull; [|done].
    apply andb_true_iff in Hfull as [_ Hfull]. apply Z.leb_le in Hfull.
    destruct Ipool as [_ Hpool]. specialize (Hpool ltac:(done)). lia.
  - (* M_Append *)
    assert (Hres' : res ++ [c] = seq (length out) (S (length res))).
    { rewrite seq_S, <- Hres. f_equal. f_equal. lia. }
    assert (Hhead : head (res ++ [c]) = Some (length out)) by by rewrite Hres'.
    unfold head_chore in Hstep. simpl in Hstep. rewrite Hhead in Hstep.
    simpl in Hstep.
    destruct (lookup_lt_is_Some_2 chs (length out)) as [ch Hch]; [lia|].
    by rewrite Hch in Hstep.
  - (* M_YieldFeed *)
    destruct Ipc as [Hlen Hd].
    destruct (seq_head_tail (length out) _ Hlen) as [Hhead _].
    rewrite <- Hres in Hhead.
    unfold yield_head, head_chore in Hstep. simpl in Hstep.
    rewrite Hhead in Hstep. simpl in Hstep. unfold is_done in Hd.
    destruct (chs !! length out) as [ch|]; [|done]. simpl in Hstep.
    unfold get in Hstep. destruct (event ch); [|done].
    by destruct (exception ch).
  - (* M_Poison *)
    destruct Ipc as [_ Hk].
    case_match eqn:Hlt; [apply Nat.ltb_lt in Hlt|done].
    case_match eqn:Hfull; [|done].
    apply andb_true_iff in Hfull as [_ Hfull]. apply Z.leb_le in Hfull. lia.
  - (* M_Drain *)
    destruct res as [|c res']; [done|].
    assert (Hlen : 1 ≤ length (c :: res')) by (simpl; lia).
    destruct (seq_head_tail (length out) _ Hlen) as [Hhead _].
    rewrite <- Hres in Hhead.
    unfold yield_head, head_chore in Hstep. simpl in Hstep, Hhead.
    simplify_eq. simpl in Hstep.
    destruct (lookup_lt_is_Some_2 chs (length out)) as [ch Hch]; [simpl in *; lia|].
    rewrite Hch in Hstep. simpl in Hstep.
    unfold get in Hstep. destruct (event ch) eqn:Hev; [by destruct (exception ch)|].
    specialize (Itok (length out)). rewrite Hholds in Itok.
    unfold is_done, enqueued in Itok. rewrite Hch, Hev in Itok. simpl in Itok.
    case_decide; [|simpl in *; lia].
    destruct ids as [|c' ids].
    { simpl in *. rewrite queued_pills in Itok. lia. }
    destruct Lids as [?|Hret]; [done|].
    destruct Ipool as [_ Hpool]. specialize (Hpool ltac:(done)).
    rewrite length_app in Iperm. simpl in Iperm. lia.
Qed.

Lemma progress qs0 s :
  no_fault qs0 → Inv qs0 s → Live s → pc s ≠ G_Done →
  ∃ sched, measure (exec sched s) < measure s.
Proof.
  intros Hnf HI HL Hpc.
  destruct (main_step s) as [s'|] eqn:Hmain.
  { exists [Main]. rewrite (exec_step Main [] s s' Hmain). simpl.
    by eapply main_step_measure. }
  (* the main thread is blocked: some worker can move *)
  destruct (busy_dec (threads s)) as [(i & w & Hi & Hb)|Hidle].
  { destruct (busy_progress _ _ _ _ HI Hi Hb) as (s' & Hs & Hm).
    exists [Worker i]. by rewrite (exec_step _ _ _ _ Hs). }
  destruct (main_blocked _ _ HI HL Hpc Hmain Hidle) as [Hsem Hret].
  apply sum_list_with_lt_length in Hret as (i & w & Hi & Hw).
  destruct (idle_worker w) as (Hw' & _); [by eapply live_threads|by eauto|done|].
  eapply idle_progress; eauto. by apply HL.
Qed.

(** A fault-free run can always be completed. *)
Lemma completion qs0 s :
  no_fault qs0 → Inv qs0 s → Live s → ∃ sched, pc (exec sched s) = G_Done.
Proof.
  intros Hnf. remember (measure s) as n eqn:Hn. revert s Hn.
  induction n as [n IH] using lt_wf_ind. intros s -> HI HL.
  destruct (decide (finished (pc s) = 1)) as [Hfin|Hfin].
  { exists []. by apply finished_done. }
  destruct (progress qs0 s) as [sched Hm]; [done..| |].
  { intros Hd. apply Hfin. by apply finished_done. }
  destruct (IH _ Hm (exec sched s) eq_refl) as [sched' Hd].
  { by apply exec_inv. }
  { by eapply exec_live. }
  exists (sched ++ sched'). by rewrite exec_app.
Qed.

(** *** The single-threaded generator *)

Lemma single_threaded_inv (d : Dispatcher Q) :
  SInv (items (d_queries d)) (single_threaded d).
Proof.
  split; [done|]. left. split; [done|]. split; [done|].
  intros e He. by apply elem_of_nil in He.
Qed.

Lemma single_step_inv qs0 a s s' : SInv qs0 s → step a s = Some s' → SInv qs0 s'.
Proof.
  destruct s as [cp qs chs sem qu cnt kill res ths p susp out].
  intros [(Hths & Hchs & Hqu) HS] Hstep. simpl in *. subst ths chs qu.
  destruct a as [|i]; [|done].
  simpl in Hstep. unfold main_step in Hstep. simpl in Hstep.
  destruct HS as [(-> & Hout & Hnr)|[-> Hout]].
  - destruct susp; simplify_eq.
    { split; [done|]. left. done. }
    destruct qs as [|q qs]; simplify_eq/=.
    { split; [done|]. right. by rewrite app_nil_r in Hout. }
    destruct (process q (c_ulong_incr cnt)) as [h|e] eqn:Hp; simplify_eq/=.
    + split; [done|]. left. split; [done|]. simpl. rewrite <- app_assoc.
      split; [done|].
      intros e He. apply elem_of_app in He as [He|He]; [by eapply Hnr|].
      by apply list_elem_of_singleton in He.
    + split; [done|]. right. done.
  - by destruct susp.
Qed.

Lemma single_exec_inv qs0 sched s : SInv qs0 s → SInv qs0 (exec sched s).
Proof.
  revert s. induction sched as [|a sched IH]; intros s HS; [done|].
  simpl. apply IH. unfold sched_step.
  destruct (step a s) as [s'|] eqn:Hs; [|done]. by eapply single_step_inv.
Qed.

Lemma single_step_measure qs0 a s s' :
  SInv qs0 s → step a s = Some s' → measure s' < measure s.
Proof.
  destruct s as [cp qs chs sem qu cnt kill res ths p susp out].
  intros [(Hths & Hchs & Hqu) HS] Hstep. simpl in *. subst ths chs qu.
  destruct a as [|i]; [|done].
  simpl in Hstep. unfold main_step in Hstep. simpl in Hstep.
  destruct HS as [(-> & _)|[-> _]]; [|by destruct susp].
  destruct susp; simplify_eq; [unfold_measure; lia|].
  destruct qs as [|q qs]; simplify_eq/=; [unfold_measure; lia|].
  destruct (process q _); simplify_eq/=; unfold_measure; lia.
Qed.

Lemma single_productive_measure qs0 sched s :
  SInv qs0 s → productive sched s + measure (exec sched s) ≤ measure s.
Proof.
  revert s. induction sched as [|a sched IH]; intros s HS; [simpl; lia|].
  change (productive (a :: sched) s + measure (exec sched (sched_step s a))
          ≤ measure s).
  cbn [productive]. unfold sched_step.
  destruct (step a s) as [s'|] eqn:Hs; simpl.
  - pose proof (single_step_measure _ _ _ _ HS Hs).
    specialize (IH s' (single_step_inv _ _ _ _ HS Hs)).
    destruct (spins a s); lia.
  - by apply IH.
Qed.

(** The single-threaded generator always runs to its end. *)
Lemma single_completion qs0 s :
  SInv qs0 s → ∃ sched, pc (exec sched s) = G_Done.
Proof.
  remember (length (queries s)) as n eqn:Hn. revert s Hn.
  induction n as [n IH] using lt_wf_ind. intros s -> HS.
  assert (Hresume : ∀ s1, SInv qs0 s1 → pc s1 = S_Loop → suspended s1 = false →
            length (queries s1) ≤ length (queries s) →
            ∃ sched, pc (exec sched s1) = G_Done).
  { intros s1 HS1 Hpc Hsusp Hlen.
    destruct (queries s1) as [|q qs] eqn:Hqs.
    - assert (Hs2 : step Main s1 = Some (set_pc G_Done s1)).
      { simpl. unfold main_step. by rewrite Hsusp, Hpc, Hqs. }
      exists [Main]. by rewrite (exec_step _ _ _ _ Hs2).
    - assert (∃ s2, step Main s1 = Some s2 ∧
                (pc s2 = G_Done ∨ length (queries s2) < length (queries s)))
        as (s2 & Hs2 & Hcase).
      { simpl. unfold main_step. rewrite Hsusp, Hpc, Hqs.
        destruct (process q _); eexists; (split; [done|]); simpl in *; [right; lia|by left]. }
      destruct Hcase as [Hd|Hlt].
      + exists [Main]. by rewrite (exec_step _ _ _ _ Hs2).
      + destruct (IH _ Hlt s2 eq_refl) as [sched Hd].
        { by eapply single_step_inv. }
        exists (Main :: sched). by rewrite (exec_step _ _ _ _ Hs2). }
  pose proof HS as [_ [(Hpc & _)|[Hpc _]]]; [|by exists []].
  destruct (suspended s) eqn:Hsusp; [|by apply Hresume].
  assert (Hs1 : step Main s = Some (set_suspended false s)).
  { simpl. unfold main_step. by rewrite Hsusp, Hpc. }
  destruct (Hresume (set_suspended false s)) as [sched Hd];
    [by eapply single_step_inv|done..|].
  exists (Main :: sched). by rewrite (exec_step _ _ _ _ Hs1).
Qed.

(** *** What the caller receives *)

Lemma sequential_lookup qs total i o :
  sequential qs total !! i = Some o → ∃ q, qs !! i = Some q ∧ result_of q o.
Proof.
  revert total i. induction qs as [|q qs IH]; intros total i Hi; [done|].
  simpl in Hi. destruct (process q (c_ulong_incr total)) as [h|e] eqn:Hp.
  - destruct i as [|i]; simplify_eq/=.
    + exists q. split; [done|]. exists (c_ulong_incr total). by rewrite Hp.
    + by eapply IH.
  - destruct i as [|i]; simplify_eq/=.
    exists q. split; [done|]. exists (c_ulong_incr total). by rewrite Hp.
Qed.

Lemma sequential_raised_last qs total i e :
  sequential qs total !! i = Some (Raised e) →
  S i = length (sequential qs total).
Proof.
  revert total i. induction qs as [|q qs IH]; intros total i Hi; [done|].
  simpl in *. destruct (process q (c_ulong_incr total)) as [h|e'] eqn:Hp.
  - destruct i as [|i]; simplify_eq/=. f_equal. by eapply IH.
  - by destruct i as [|i]; simplify_eq/=.
Qed.

Lemma sequential_length qs total : length (sequential qs total) ≤ length qs.
Proof.
  revert total. induction qs as [|q qs IH]; intros total; simpl; [done|].
  destruct (process q _); simpl; [|lia]. specialize (IH (c_ulong_incr total)). lia.
Qed.

Lemma sequential_no_fault qs total :
  no_fault qs → length (sequential qs total) = length qs.
Proof.
  revert total. induction qs as [|q qs IH]; intros total Hnf; simpl; [done|].
  destruct (Hnf q (c_ulong_incr total)) as [h ->]; [by left|]. simpl.
  rewrite IH; [done|]. intros q' t Hq'. apply Hnf. by right.
Qed.

Lemma output_lookup qs0 s i o :
  Inv qs0 s → output s !! i = Some o →
  ∃ q, qs0 !! i = Some q ∧ result_of q o.
Proof.
  intros HI Ho.
  assert (Hi : i < length (output s)) by by eapply lookup_lt_Some.
  rewrite (inv_output _ _ HI), list_lookup_fmap, lookup_take_lt in Ho by done.
  destruct (chores s !! i) as [ch|] eqn:Hch; simplify_eq/=.
  destruct (inv_chores _ _ HI _ _ Hch) as [Hq Hok].
  pose proof (inv_delivered _ _ HI _ Hi) as Hd.
  unfold is_done in Hd. rewrite Hch in Hd.
  destruct (event ch); [|done]. destruct Hok as [total Hok].
  exists (query ch). split; [done|]. exists total. unfold outcome.
  destruct (process (query ch) total); destruct Hok as [-> ->]; done.
Qed.

Lemma output_raised_last qs0 s i e :
  Inv qs0 s → output s !! i = Some (Raised e) → S i = length (output s).
Proof.
  intros HI Ho.
  assert (Hi : i < length (output s)) by by eapply lookup_lt_Some.
  destruct (decide (i + finished (pc s) < length (output s))) as [Hlt|Hge].
  - rewrite (inv_output _ _ HI), list_lookup_fmap, lookup_take_lt in Ho by done.
    destruct (chores s !! i) as [ch|] eqn:Hch; simplify_eq/=.
    pose proof (inv_yielded _ _ HI _ _ Hlt Hch) as Hexc.
    unfold outcome in Ho. by rewrite Hexc in Ho.
  - destruct (pc s); simpl in *; lia.
Qed.

Lemma chores_length qs0 s : Inv qs0 s → length (chores s) ≤ length qs0.
Proof.
  intros HI. destruct (length (chores s)) as [|n] eqn:Hn; [lia|].
  destruct (lookup_lt_is_Some_2 (chores s) n) as [ch Hch]; [lia|].
  destruct (inv_chores _ _ HI _ _ Hch) as [Hq _].
  apply lookup_lt_Some in Hq. lia.
Qed.

Lemma output_complete qs0 s :
  no_fault qs0 → Inv qs0 s → pc s = G_Done →
  length (output s) = length qs0.
Proof.
  intros Hnf HI Hpc. pose proof (inv_pc _ _ HI) as Ipc. rewrite Hpc in Ipc.
  destruct Ipc as [[e He]|[Hqs Hlen]].
  - rewrite last_lookup in He.
    destruct (output_lookup _ _ _ _ HI He) as (q & Hq & total & Ho).
    destruct (Hnf q total) as [h Hp]; [by eapply list_elem_of_lookup_2|].
    by rewrite Hp in Ho.
  - rewrite Hlen. rewrite (inv_queries _ _ HI) in Hqs.
    apply drop_nil_inv in Hqs. pose proof (chores_length _ _ HI). lia.
Qed.

(** With a deterministic [process], the outputs of a multi-threaded run
    are a prefix of the sequential ones. *)
Lemma process_deterministic q total total' :
  deterministic → process q total = process q total'.
Proof. intros Hdet. unfold process. by rewrite (Hdet q total total'). Qed.

Lemma prefix_sequential os qs total :
  deterministic →
  (∀ i o, os !! i = Some o → ∃ q, qs !! i = Some q ∧ result_of q o) →
  (∀ i e, os !! i = Some (Raised e) → S i = length os) →
  os `prefix_of` sequential qs total.
Proof.
  intros Hdet. revert qs total.
  induction os as [|o os IH]; intros qs total Hres Hlast; [apply prefix_nil|].
  destruct (Hres 0 o eq_refl) as (q & Hq & total' & Ho).
  rewrite (process_deterministic q total' (c_ulong_incr total) Hdet) in Ho.
  destruct qs as [|q' qs]; simplify_eq/=.
  destruct (process q (c_ulong_incr total)) as [h|e] eqn:Hp; simpl.
  - apply prefix_cons, IH.
    + intros i o Hi. apply (Hres (S i) o Hi).
    + intros i e Hi. specialize (Hlast (S i) e Hi). simpl in Hlast. lia.
  - specialize (Hlast 0 e eq_refl). destruct os; simplify_eq/=. done.
Qed.

Lemma output_prefix_sequential qs0 s :
  deterministic → Inv qs0 s → output s `prefix_of` sequential qs0 0%Z.
Proof.
  intros Hdet HI. apply prefix_sequential; [done|..].
  - intros i o. by apply output_lookup.
  - intros i e. by apply (output_raised_last qs0).
Qed.

Lemma output_finished_sequential qs0 s :
  deterministic → Inv qs0 s → pc s = G_Done →
  output s = sequential qs0 0%Z.
Proof.
  intros Hdet HI Hpc.
  pose proof (output_prefix_sequential _ _ Hdet HI) as Hpre.
  apply prefix_length_eq; [done|].
  pose proof (inv_pc _ _ HI) as Ipc. rewrite Hpc in Ipc.
  destruct Ipc as [[e He]|[Hqs Hlen]].
  - rewrite last_lookup in He.
    pose proof (prefix_lookup_Some _ _ _ _ He Hpre) as He'.
    apply sequential_raised_last in He'.
    assert (0 < length (output s)); [|lia].
    destruct (output s); [done|simpl; lia].
  - rewrite Hlen. rewrite (inv_queries _ _ HI) in Hqs.
    apply drop_nil_inv in Hqs. pose proof (sequential_length qs0 0%Z). lia.
Qed.

(** *** What a step leaves alone *)

Lemma main_step_frame s s' :
  main_step s = Some s' →
  (∃ l, threads s' = threads s ++ l) ∧
  (∃ l, chores s' = chores s ++ l) ∧
  (kill_switch s = true → kill_switch s' = true) ∧
  cpus s' = cpus s.
Proof.
  destruct s as [cp qs chs sem qu cnt kill res ths p susp out].
  unfold main_step, yield_head. simpl. intros Hstep.
  assert (Hsame : (∃ l, ths = ths ++ l) ∧ (∃ l, chs = chs ++ l)).
  { split; by exists []; rewrite app_nil_r. }
  destruct Hsame as [Hths Hchs].
  destruct susp; [destruct p; by simplify_eq/=|].
  destruct p; simpl in *; try done.
  - destruct qs; [|destruct (process _ _)]; by simplify_eq/=.
  - case_match; simplify_eq/=; [|done]. split; [by eexists|done].
  - destruct qs; simplify_eq/=; [done|].
    split; [done|]. split; [by eexists|done].
  - case_match; by simplify_eq/=.
  - by simplify_eq/=.
  - destruct (head_chore _); by simplify_eq/=.
  - destruct (head_chore _) as [ch|]; simplify_eq/=.
    destruct (get ch); by simplify_eq/=.
  - by simplify_eq/=.
  - repeat case_match; by simplify_eq/=.
  - by simplify_eq/=.
  - destruct res; simplify_eq/=; [done|].
    destruct (head_chore _) as [ch|]; simplify_eq/=.
    destruct (get ch); by simplify_eq/=.
  - by simplify_eq/=.
  - by simplify_eq/=.
Qed.

Lemma worker_step_frame s i w s' :
  worker_step i w s = Some s' →
  (∃ w', threads s' = <[i:=w']> (threads s)) ∧
  (chores s' = chores s ∨
   ∃ c ch', holds c w = 1 ∧ chores s' = <[c:=ch']> (chores s)) ∧
  (kill_switch s = true → kill_switch s' = true) ∧
  cpus s' = cpus s.
Proof.
  destruct s as [cp qs chs sem qu cnt kill res ths p susp out].
  intros Hstep. destruct w; simpl in *.
  - simplify_eq. split; [by eexists|]. split; [by left|done].
  - destruct sem; simplify_eq; (split; [by eexists|]); (split; [by left|done]).
  - destruct qu as [|[c|] qu]; simplify_eq;
      (split; [by eexists|]); (split; [by left|done]).
  - destruct (chs !! c) as [ch|]; simplify_eq/=.
    destruct (process _ _); simplify_eq;
      (split; [by eexists|]); (split; [by left|done]).
  - destruct (chs !! c) as [ch|]; simplify_eq/=.
    split; [by eexists|]. split; [|done]. right. eexists _, _.
    split; [|done]. by case_decide.
  - simplify_eq. split; [by eexists|]. split; [by left|done].
  - destruct (chs !! c) as [ch|]; simplify_eq/=.
    split; [by eexists|]. split; [|done]. right. eexists _, _.
    split; [|done]. by case_decide.
  - done.
  - done.
Qed.

(** The other actors do not move the worker [i]. *)
Lemma step_other_thread a s s' i w :
  step a s = Some s' → a ≠ Worker i →
  threads s !! i = Some w → threads s' !! i = Some w.
Proof.
  intros Hstep Ha Hi. destruct a as [|j]; simpl in Hstep.
  - destruct (main_step_frame _ _ Hstep) as ([l ->] & _).
    by apply lookup_app_l_Some.
  - destruct (threads s !! j) as [wj|]; simplify_eq/=.
    destruct (worker_step_frame _ _ _ _ Hstep) as ([w' ->] & _).
    rewrite list_lookup_insert_ne; [done|]. congruence.
Qed.

Lemma step_kill_switch a s s' :
  step a s = Some s' → kill_switch s = true → kill_switch s' = true.
Proof.
  intros Hstep. destruct a as [|j]; simpl in Hstep.
  - by apply main_step_frame.
  - destruct (threads s !! j) as [wj|]; simplify_eq/=.
    by eapply worker_step_frame.
Qed.

(** A chore whose event is set is never written again. *)
Lemma step_done_chore qs0 a s s' c ch :
  Inv qs0 s → step a s = Some s' →
  chores s !! c = Some ch → event ch = true → chores s' !! c = Some ch.
Proof.
  intros HI Hstep Hc Hev. destruct a as [|j]; simpl in Hstep.
  - destruct (main_step_frame _ _ Hstep) as (_ & [l ->] & _).
    by apply lookup_app_l_Some.
  - destruct (threads s !! j) as [wj|] eqn:Hj; simplify_eq/=.
    destruct (worker_step_frame _ _ _ _ Hstep) as (_ & [->|(c' & ch' & Hh & ->)] & _);
      [done|].
    pose proof (held_not_done _ _ _ _ _ HI Hj Hh) as Hnd.
    rewrite list_lookup_insert_ne; [done|]. intros ->.
    unfold is_done in Hnd. by rewrite Hc, Hev in Hnd.
Qed.

Lemma step_cpus a s s' : step a s = Some s' → cpus s' = cpus s.
Proof.
  intros Hstep. destruct a as [|j]; simpl in Hstep.
  - by apply main_step_frame.
  - destruct (threads s !! j) as [wj|]; simplify_eq/=.
    by eapply worker_step_frame.
Qed.

Lemma exec_cpus sched s : cpus (exec sched s) = cpus s.
Proof.
  revert s. induction sched as [|a sched IH]; intros s; [done|].
  simpl. rewrite IH. unfold sched_step.
  destruct (step a s) as [s'|] eqn:Hs; [|done]. by eapply step_cpus.
Qed.

Lemma exec_others qs0 sched s i w :
  Inv qs0 s → others i sched → threads s !! i = Some w →
  threads (exec sched s) !! i = Some w.
Proof.
  intros HI Hsched. revert s HI.
  induction Hsched as [|a sched Ha _ IH]; intros s HI Hi; [done|].
  simpl. apply IH; [by apply sched_step_inv|].
  unfold sched_step. destruct (step a s) as [s'|] eqn:Hs; [|done].
  by eapply step_other_thread.
Qed.

Lemma exec_kill_switch sched s :
  kill_switch s = true → kill_switch (exec sched s) = true.
Proof.
  revert s. induction sched as [|a sched IH]; intros s Hk; [done|].
  simpl. apply IH. unfold sched_step.
  destruct (step a s) as [s'|] eqn:Hs; [|done]. by eapply step_kill_switch.
Qed.

Lemma exec_done_chore qs0 sched s c ch :
  Inv qs0 s → chores s !! c = Some ch → event ch = true →
  chores (exec sched s) !! c = Some ch.
Proof.
  revert s. induction sched as [|a sched IH]; intros s HI Hc Hev; [done|].
  simpl. apply IH; [by apply sched_step_inv| |done].
  unfold sched_step. destruct (step a s) as [s'|] eqn:Hs; [|done].
  by eapply step_done_chore.
Qed.

Lemma exec_returned sched s i :
  threads s !! i = Some W_Returned →
  threads (exec sched s) !! i = Some W_Returned.
Proof.
  revert s. induction sched as [|a sched IH]; intros s Hi; [done|].
  simpl. apply IH. unfold sched_step.
  destruct (step a s) as [s'|] eqn:Hs; [|done]. simpl.
  destruct (decide (a = Worker i)) as [->|Ha].
  - simpl in Hs. by rewrite Hi in Hs.
  - by eapply step_other_thread.
Qed.

Lemma single_output_prefix qs0 s :
  SInv qs0 s → output s `prefix_of` sequential qs0 0%Z.
Proof.
  intros [_ [(_ & Hout & _)|[_ Hout]]].
  - rewrite <- Hout. by apply prefix_app_r.
  - by rewrite Hout.
Qed.

Lemma single_no_threads qs0 s i w : SInv qs0 s → threads s !! i = Some w → False.
Proof. intros [(Hths & _) _]. by rewrite Hths, lookup_nil. Qed.

Lemma set_thread_lookup (s : State) i w w' :
  threads s !! i = Some w → threads (set_thread i w' s) !! i = Some w'.
Proof. intros Hi. simpl. apply list_lookup_insert_eq. by eapply lookup_lt_Some. Qed.

(** *** Counting the chores in flight *)

Lemma sum_list_with_ext_in {A} (f g : A → nat) l :
  (∀ x, x ∈ l → f x = g x) → sum_list_with f l = sum_list_with g l.
Proof.
  induction l as [|a l IH]; intros Hfg; simpl; [done|].
  rewrite (Hfg a), IH; [done| |by left]. intros x Hx. apply Hfg. by right.
Qed.

Lemma sum_list_with_add {A} (f g : A → nat) l :
  sum_list_with (λ x, f x + g x) l = sum_list_with f l + sum_list_with g l.
Proof. induction l as [|a l IH]; simpl; lia. Qed.

Lemma sum_list_with_swap {A B} (g : A → B → nat) (la : list A) (lb : list B) :
  sum_list_with (λ a, sum_list_with (g a) lb) la
  = sum_list_with (λ b, sum_list_with (λ a, g a b) la) lb.
Proof.
  induction lb as [|b lb IH]; simpl.
  - by apply sum_list_with_zero.
  - by rewrite sum_list_with_add, IH.
Qed.

Lemma sum_list_with_le_length {A} (f : A → nat) l :
  (∀ x, f x ≤ 1) → sum_list_with f l ≤ length l.
Proof.
  intros Hf. induction l as [|a l IH]; simpl; [done|]. specialize (Hf a). lia.
Qed.

Lemma sum_indicator_seq (c' a n : nat) :
  sum_list_with (λ c, if decide (c' = c) then 1 else 0) (seq a n) ≤ 1 ∧
  (c' < a → sum_list_with (λ c, if decide (c' = c) then 1 else 0) (seq a n) = 0).
Proof.
  revert a. induction n as [|n IH]; intros a; simpl; [lia|].
  destruct (IH (S a)) as [Hle Hz]. case_decide; [|lia].
  subst. rewrite Hz by lia. lia.
Qed.

Lemma queued_seq_le_1 x n : sum_list_with (λ c, queued c x) (seq 0 n) ≤ 1.
Proof.
  destruct x as [c'|]; simpl.
  - apply sum_indicator_seq.
  - rewrite sum_list_with_zero; [lia|done].
Qed.

Lemma holds_seq_le_1 (w : WorkerPC H E) n :
  sum_list_with (λ c, holds c w) (seq 0 n) ≤ 1.
Proof.
  destruct w; simpl; try apply sum_indicator_seq.
  all: rewrite sum_list_with_zero; [lia|done].
Qed.

Lemma unfinished_sum (chs : list (Chore Q H E)) n :
  n ≤ length chs →
  length (filter (λ ch, event ch = false) (take n chs))
  = sum_list_with (λ c, 1 - is_done c chs) (seq 0 n).
Proof.
  induction n as [|n IH]; intros Hn; [done|].
  destruct (lookup_lt_is_Some_2 chs n) as [ch Hch]; [lia|].
  rewrite (take_S_r _ _ _ Hch), filter_app, length_app, seq_S.
  rewrite sum_list_with_app, IH by lia. f_equal. simpl.
  unfold is_done. rewrite Hch. rewrite filter_cons, filter_nil.
  destruct (event ch); case_decide; simpl; done || lia.
Qed.

Lemma unfinished_bound qs0 s :
  Inv qs0 s → unfinished s ≤ length (query_queue s) + length (threads s).
Proof.
  intros HI. unfold unfinished, enqueued_chores.
  set (n := length (chores s) - put_pending (pc s)).
  rewrite unfinished_sum by lia.
  assert (Hq : sum_list_with (λ c, sum_list_with (queued c) (query_queue s)) (seq 0 n)
               ≤ length (query_queue s)).
  { rewrite (sum_list_with_swap queued (seq 0 n) (query_queue s)).
    apply sum_list_with_le_length. intros x. apply queued_seq_le_1. }
  assert (Hh : sum_list_with (λ c, sum_list_with (holds c) (threads s)) (seq 0 n)
               ≤ length (threads s)).
  { rewrite (sum_list_with_swap holds (seq 0 n) (threads s)).
    apply sum_list_with_le_length. intros w. apply holds_seq_le_1. }
  assert (Heq : sum_list_with (λ c, 1 - is_done c (chores s)) (seq 0 n)
                = sum_list_with (λ c, sum_list_with (queued c) (query_queue s)
                                      + sum_list_with (holds c) (threads s)) (seq 0 n)).
  { apply sum_list_with_ext_in. intros c Hc. apply elem_of_seq in Hc.
    pose proof (inv_tokens _ _ HI c) as Htok. unfold enqueued in Htok.
    case_decide; lia. }
  rewrite Heq, sum_list_with_add. lia.
Qed.

(** The worker threads of a run: never more than [cpus], none on the
    single-threaded path, and [cpus] of them once the spawning loop of the
    multi-threaded path is over. *)
Lemma pool_size (d : Dispatcher Q) (sched : list Actor) :
  (1 ≤ d_cpus d)%Z →
  let s := exec sched (run d) in
  (Z.of_nat (length (threads s)) ≤ d_cpus d)%Z ∧
  (d_cpus d = 1%Z → threads s = []) ∧
  (d_cpus d ≠ 1%Z → pc s ≠ M_Spawn → Z.of_nat (length (threads s)) = d_cpus d).
Proof.
  intros Hcpus s. subst s. unfold run.
  destruct (d_cpus d =? 1)%Z eqn:Hc;
    [apply Z.eqb_eq in Hc|apply Z.eqb_neq in Hc].
  - destruct (single_exec_inv _ sched _ (single_threaded_inv d))
      as [(Hths & _) _].
    rewrite Hths. simpl. split; [lia|]. split; [done|]. intros; lia.
  - pose proof (exec_inv _ sched _ (multi_threaded_inv d Hcpus)) as HI.
    destruct (inv_pool _ _ HI) as [Hle Heq]. rewrite exec_cpus in Hle, Heq.
    simpl in *. split; [done|]. split; [intros; lia|]. intros _. apply Heq.
Qed.

Lemma no_fault_nil : no_fault [].
Proof. intros q total Hq. by apply elem_of_nil in Hq. Qed.

Lemma run_completion (d : Dispatcher Q) (sched : list Actor) :
  (1 ≤ d_cpus d)%Z → no_fault (items (d_queries d)) →
  ∃ sched', pc (exec sched' (exec sched (run d))) = G_Done.
Proof.
  intros Hcpus Hnf. unfold run. destruct (d_cpus d =? 1)%Z.
  - eapply single_completion, single_exec_inv, single_threaded_inv.
  - eapply completion; [done|by apply exec_inv, multi_threaded_inv|].
    eapply exec_live; [done|by apply multi_threaded_inv|apply multi_threaded_live].
Qed.

Lemma run_output_lookup (d : Dispatcher Q) (sched : list Actor) i o :
  (1 ≤ d_cpus d)%Z → output (exec sched (run d)) !! i = Some o →
  ∃ q, items (d_queries d) !! i = Some q ∧ result_of q o.
Proof.
  intros Hcpus. unfold run. destruct (d_cpus d =? 1)%Z.
  - intros Ho. eapply sequential_lookup.
    eapply prefix_lookup_Some; [done|].
    apply single_output_prefix, single_exec_inv, single_threaded_inv.
  - apply output_lookup. by apply exec_inv, multi_threaded_inv.
Qed.

(** A run takes a bounded number of actions, the idle spins of its
    workers apart. *)
Lemma run_productive (d : Dispatcher Q) (sched : list Actor) :
  (1 ≤ d_cpus d)%Z →
  productive sched (run d)
  ≤ 12 * length (items (d_queries d)) + 9 * Z.to_nat (d_cpus d) + 5.
Proof.
  intros Hcpus. unfold run. destruct (d_cpus d =? 1)%Z.
  - pose proof (single_productive_measure _ sched _ (single_threaded_inv d)) as Hm.
    unfold measure at 2 in Hm. unfold main_cost in Hm. simpl in Hm. lia.
  - pose proof (productive_measure _ sched _ (multi_threaded_inv d Hcpus)) as Hm.
    unfold measure at 2 in Hm. unfold main_cost, feed_cost in Hm. simpl in Hm. lia.
Qed.

Lemma stuck_exec sched s : stuck s → exec sched s = s.
Proof.
  intros Hs. induction sched as [|a sched IH]; [done|].
  change (exec sched (sched_step s a) = s).
  unfold sched_step. by rewrite (Hs a).
Qed.


(** *** The claims on runs *)

(** C1. Order preservation: whatever the schedule of the main thread and
    the workers, the [i]-th element the caller has received from [run] is
    the result for the [i]-th query. A run takes a bounded number of
    actions, idle spins of the workers apart; when [process] raises on no
    query, every state of the run can be continued to the end of the
    generator, and a finished generator has delivered one element per
    query. The dispatcher may have any pool size from 1 upwards; pool size
    1 is the single-threaded path. *)
Theorem order_preservation (d : Dispatcher Q) (sched : list Actor) :
  (1 ≤ d_cpus d)%Z →
  let qs := items (d_queries d) in
  let s := exec sched (run d) in
  (∀ i o, output s !! i = Some o → ∃ q, qs !! i = Some q ∧ result_of q o) ∧
  productive sched (run d) ≤ 12 * length qs + 9 * Z.to_nat (d_cpus d) + 5 ∧
  (no_fault qs →
   (pc s = G_Done → length (output s) = length qs) ∧
   (∃ sched', pc (exec sched' s) = G_Done)).
Proof.
  intros Hcpus qs s.
  assert (Hprod := run_productive d sched Hcpus).
  enough ((∀ i o, output s !! i = Some o →
             ∃ q, qs !! i = Some q ∧ result_of q o) ∧
          (no_fault qs →
           (pc s = G_Done → length (output s) = length qs) ∧
           (∃ sched', pc (exec sched' s) = G_Done))) as [? ?] by done.
  clear Hprod. subst qs s. unfold run.
  destruct (d_cpus d =? 1)%Z.
  - pose proof (single_exec_inv _ sched _ (single_threaded_inv d)) as HS.
    split.
    + intros i o Ho. eapply sequential_lookup.
      eapply prefix_lookup_Some; [done|]. by apply single_output_prefix.
    + intros Hnf. split; [|by eapply single_completion].
      intros Hpc. destruct HS as [_ [(Hpc' & _)|[_ Hout]]]; [congruence|].
      rewrite Hout. by apply sequential_no_fault.
  - pose proof (exec_inv _ sched _ (multi_threaded_inv d Hcpus)) as HI.
    split.
    + intros i o. by apply output_lookup.
    + intros Hnf. split; [by apply output_complete|].
      eapply completion; [done..|].
      eapply exec_live; [done| |apply multi_threaded_live].
      by apply multi_threaded_inv.
Qed.

(** What the two paths agree on, with a [process] that does not depend on
    the counter: the elements received so far from a run with pool size 1
    and from a run with a larger pool agree position by position, and two
    finished runs have delivered the same sequence. The single-threaded
    run can always be finished; the multi-threaded one can when [process]
    raises on no query, and otherwise it may block for ever. *)
Lemma paths_agree (qs : list Q) (hint1 hint : option nat)
    (cpus : Z) (sched1 sched : list Actor) :
  (1 < cpus)%Z → deterministic →
  let s1 := exec sched1 (run (mkDispatcher (mkIterable qs hint1) 1)) in
  let s := exec sched (run (mkDispatcher (mkIterable qs hint) cpus)) in
  (∀ i o1 o, output s1 !! i = Some o1 → output s !! i = Some o → o1 = o) ∧
  (pc s1 = G_Done → pc s = G_Done → output s1 = output s) ∧
  (∃ sched', pc (exec sched' s1) = G_Done) ∧
  (no_fault qs → ∃ sched', pc (exec sched' s) = G_Done).
Proof.
  intros Hcpus Hdet s1 s. subst s1 s. unfold run. simpl.
  destruct (cpus =? 1)%Z eqn:Hc; [apply Z.eqb_eq in Hc; lia|].
  set (d1 := mkDispatcher (mkIterable qs hint1) 1).
  set (d := mkDispatcher (mkIterable qs hint) cpus).
  pose proof (single_exec_inv _ sched1 _ (single_threaded_inv d1)) as HS.
  assert (Hd : (1 ≤ d_cpus d)%Z) by (simpl; lia).
  pose proof (exec_inv _ sched _ (multi_threaded_inv d Hd)) as HI.
  simpl in HS, HI.
  pose proof (single_output_prefix _ _ HS) as Hpre1.
  pose proof (output_prefix_sequential _ _ Hdet HI) as Hpre.
  split; [|split; [|split]].
  - intros i o1 o Ho1 Ho.
    pose proof (prefix_lookup_Some _ _ _ _ Ho1 Hpre1).
    pose proof (prefix_lookup_Some _ _ _ _ Ho Hpre). congruence.
  - intros Hpc1 Hpc. rewrite (output_finished_sequential _ _ Hdet HI Hpc).
    destruct HS as [_ [(Hpc' & _)|[_ Hout]]]; [congruence|done].
  - by eapply single_completion.
  - intros Hnf. eapply completion; [done..|].
    eapply exec_live; [done| |apply multi_threaded_live].
    by apply (multi_threaded_inv d).
Qed.

(** C4. Worker fault policy: when [process] raises [e] in the worker [i]
    on the chore [c], the next three actions of that worker, whatever the
    other threads do in between, are: set the kill switch (the chore is
    still unmarked then), mark the chore failed with [e], and return; the
    worker then stays returned for ever, so it takes nothing more from the
    queue. *)
Theorem worker_fault_policy (d : Dispatcher Q)
    (sched oA oB oC rest : list Actor) (i c : nat) (ch : Chore Q H E) (e : E) :
  (1 ≤ d_cpus d)%Z →
  let s := exec sched (run d) in
  threads s !! i = Some (W_Process c) →
  chores s !! c = Some ch →
  process (query ch) (query_count s) = inr e →
  others i oA → others i oB → others i oC →
  let sA := exec (Worker i :: oA) s in
  let sB := exec (Worker i :: oB) sA in
  let sC := exec (Worker i :: oC) sB in
  let sD := exec (Worker i :: rest) sC in
  threads sA !! i = Some (W_Kill c e) ∧
  (threads sB !! i = Some (W_Fail c e) ∧ kill_switch sB = true ∧
   is_done c (chores sB) = 0) ∧
  (threads sC !! i = Some W_Loop ∧
   ∃ ch', chores sC !! c = Some ch' ∧ event ch' = true ∧
          exception ch' = Some e ∧ hits ch' = None) ∧
  (threads sD !! i = Some W_Returned ∧ step (Worker i) sD = None).
Proof.
  intros Hcpus s Hi Hch Hp HoA HoB HoC sA sB sC sD.
  set (qs0 := items (d_queries d)).
  assert (HI : Inv qs0 s).
  { subst s. unfold run in *. destruct (d_cpus d =? 1)%Z.
    - destruct (single_no_threads qs0 _ _ _
                  (single_exec_inv _ sched _ (single_threaded_inv d)) Hi).
    - by apply exec_inv, multi_threaded_inv. }
  (* the fault is caught *)
  assert (HsA : step (Worker i) s = Some (set_thread i (W_Kill c e) s)).
  { simpl. rewrite Hi. simpl. by rewrite Hch; simpl; rewrite Hp. }
  assert (HIA : Inv qs0 sA) by by apply exec_inv.
  assert (HiA : threads sA !! i = Some (W_Kill c e)).
  { subst sA. rewrite (exec_step _ _ _ _ HsA).
    eapply exec_others;
      [exact (step_inv _ _ _ _ HI HsA)|done|by eapply set_thread_lookup]. }
  (* the kill switch is set *)
  set (sA' := set_thread i (W_Fail c e) (set_kill_switch true sA)).
  assert (HsB : step (Worker i) sA = Some sA').
  { simpl. by rewrite HiA. }
  assert (HIB : Inv qs0 sB) by by apply exec_inv.
  assert (HiB : threads sB !! i = Some (W_Fail c e)).
  { subst sB. rewrite (exec_step _ _ _ _ HsB).
    eapply exec_others; [exact (step_inv _ _ _ _ HIA HsB)|done|].
    by apply (set_thread_lookup (set_kill_switch true sA) i (W_Kill c e)). }
  assert (HkB : kill_switch sB = true).
  { subst sB. rewrite (exec_step _ _ _ _ HsB). by apply exec_kill_switch. }
  assert (HdB : is_done c (chores sB) = 0).
  { eapply held_not_done; [done..|]. simpl. by case_decide. }
  (* the chore is marked *)
  assert (∃ chB, chores sB !! c = Some chB ∧ event chB = false ∧ hits chB = None)
    as (chB & HchB & HevB & HhB).
  { pose proof (inv_tokens _ _ HIB c) as Htok.
    destruct (sum_list_with_update (holds c) _ _ _ (W_Fail c e) HiB) as (r & Hr & _).
    simpl in Hr. rewrite decide_True in Hr by done.
    unfold enqueued in Htok. case_decide; [|lia].
    destruct (lookup_lt_is_Some_2 (chores sB) c) as [chB HchB]; [lia|].
    exists chB. split; [done|]. unfold is_done in HdB. rewrite HchB in HdB.
    destruct (inv_chores _ _ HIB _ _ HchB) as [_ Hok].
    destruct (event chB); [done|]. by destruct Hok. }
  set (sB' := set_thread i W_Loop (set_chores (<[c:=fail chB e]> (chores sB)) sB)).
  assert (HsC : step (Worker i) sB = Some sB').
  { simpl. rewrite HiB. simpl. by rewrite HchB. }
  assert (HIB' : Inv qs0 sB') by exact (step_inv _ _ _ _ HIB HsC).
  assert (HIC : Inv qs0 sC) by by apply exec_inv.
  assert (HiC : threads sC !! i = Some W_Loop).
  { subst sC. rewrite (exec_step _ _ _ _ HsC).
    eapply exec_others; [done..|].
    by apply (set_thread_lookup (set_chores _ sB) i (W_Fail c e)). }
  assert (HchC : chores sC !! c = Some (fail chB e)).
  { subst sC. rewrite (exec_step _ _ _ _ HsC).
    eapply exec_done_chore; [done| |done].
    simpl. apply list_lookup_insert_eq. by eapply lookup_lt_Some. }
  assert (HkC : kill_switch sC = true).
  { subst sC. rewrite (exec_step _ _ _ _ HsC). by apply exec_kill_switch. }
  (* the worker returns *)
  assert (HsD : step (Worker i) sC = Some (set_thread i W_Returned sC)).
  { simpl. rewrite HiC. simpl. by rewrite HkC. }
  assert (HiD : threads sD !! i = Some W_Returned).
  { subst sD. rewrite (exec_step _ _ _ _ HsD).
    apply exec_returned. by eapply set_thread_lookup. }
  split; [done|]. split; [done|]. split.
  - split; [done|]. by exists (fail chB e).
  - split; [done|]. simpl. by rewrite HiD.
Qed.

(** C7, as amended. Completion discipline: in a run, a chore whose event
    is set is never written again, so the event is set at most once; when
    it is set, exactly one of the hits and the exception is recorded, and
    before that neither is. [complete] itself makes no check: on any chore,
    done or not, it returns with the event set and the new hits stored. *)
Theorem chore_completion_discipline (d : Dispatcher Q) (sched : list Actor)
    (a : Actor) :
  (1 ≤ d_cpus d)%Z →
  let s := exec sched (run d) in
  let s' := sched_step s a in
  (∀ c ch, chores s !! c = Some ch → event ch = true →
     chores s' !! c = Some ch ∧
     ((is_Some (hits ch) ∧ exception ch = None) ∨
      (hits ch = None ∧ is_Some (exception ch)))) ∧
  (∀ c ch, chores s !! c = Some ch → event ch = false →
     hits ch = None ∧ exception ch = None) ∧
  (∀ (ch : Chore Q H E) (h : H),
     event (complete ch h) = true ∧ hits (complete ch h) = Some h).
Proof.
  intros Hcpus s s'. split; [|split]; [| |done].
  - intros c ch Hc Hev.
    assert (HI : Inv (items (d_queries d)) s).
    { subst s. unfold run in *. destruct (d_cpus d =? 1)%Z.
      - destruct (single_exec_inv _ sched _ (single_threaded_inv d))
          as [(_ & Hchs & _) _].
        by rewrite Hchs in Hc.
      - by apply exec_inv, multi_threaded_inv. }
    split.
    + subst s'. unfold sched_step. destruct (step a s) as [s1|] eqn:Hs; [|done].
      by eapply step_done_chore.
    + destruct (inv_chores _ _ HI _ _ Hc) as [_ Hok]. rewrite Hev in Hok.
      destruct Hok as [total Hok].
      destruct (process (query ch) total); destruct Hok as [-> ->]; eauto.
  - intros c ch Hc Hev.
    assert (HI : Inv (items (d_queries d)) s).
    { subst s. unfold run in *. destruct (d_cpus d =? 1)%Z.
      - destruct (single_exec_inv _ sched _ (single_threaded_inv d))
          as [(_ & Hchs & _) _].
        by rewrite Hchs in Hc.
      - by apply exec_inv, multi_threaded_inv. }
    destruct (inv_chores _ _ HI _ _ Hc) as [_ Hok]. by rewrite Hev in Hok.
Qed.

(** C8, as amended. Backpressure bound: at every point of a run, the
    chores that were put on the queue and whose event is not set yet are
    at most the capacity of the queue plus the size of the pool, both equal
    to [cpus]: each of them is in the queue or with one worker. *)
Theorem backpressure_bound (d : Dispatcher Q) (sched : list Actor) :
  (1 ≤ d_cpus d)%Z →
  let s := exec sched (run d) in
  (Z.of_nat (length (query_queue s)) ≤ d_cpus d)%Z ∧
  (Z.of_nat (length (threads s)) ≤ d_cpus d)%Z ∧
  (Z.of_nat (unfinished s) ≤ d_cpus d + d_cpus d)%Z.
Proof.
  intros Hcpus s. subst s. unfold run. destruct (d_cpus d =? 1)%Z.
  - destruct (single_exec_inv _ sched _ (single_threaded_inv d))
      as [(Hths & Hchs & Hqu) _].
    unfold unfinished. rewrite Hths, Hchs, Hqu, take_nil. simpl. lia.
  - pose proof (exec_inv _ sched _ (multi_threaded_inv d Hcpus)) as HI.
    pose proof (unfinished_bound _ _ HI).
    pose proof (inv_queue _ _ HI) as Hqu. pose proof (inv_pool _ _ HI) as [Hths _].
    rewrite exec_cpus in Hqu, Hths. simpl in Hqu, Hths. lia.
Qed.

(** C9, as amended. Empty input: for an empty stream of queries, whose
    length hint is 0, the dispatcher keeps the requested number of workers
    as its pool size; the caller receives nothing, the run takes at most
    [9 * requested + 5] actions (idle spins of the workers apart) and can
    always be run to the end of the generator; no worker is spawned when
    one worker is requested, and otherwise the multi-threaded path spawns
    all the requested workers. *)
Theorem empty_input (queries : Iterable Q) (requested : Z)
    (sched : list Actor) :
  (0 < requested)%Z → items queries = [] → length_hint queries = 0%Z →
  ∃ d, dispatcher_init queries requested = inr d ∧
       d_cpus d = requested ∧
       let s := exec sched (run d) in
       output s = [] ∧
       productive sched (run d) ≤ 9 * Z.to_nat requested + 5 ∧
       (∃ sched', pc (exec sched' s) = G_Done) ∧
       (requested = 1%Z → threads s = []) ∧
       (requested ≠ 1%Z → pc s ≠ M_Spawn →
        Z.of_nat (length (threads s)) = requested).
Proof.
  intros Hreq Hqs Hhint. unfold dispatcher_init. rewrite Hhint.
  destruct (requested <=? 0)%Z eqn:Hle; [apply Z.leb_le in Hle; lia|].
  simpl. eexists. split; [done|]. split; [done|].
  set (d := mkDispatcher queries requested).
  assert (Hcpus : (1 ≤ d_cpus d)%Z) by (simpl; lia).
  set (s := exec sched (run d)). simpl. split; [|split; [|split]].
  - destruct (output s) as [|o out] eqn:Hout; [done|].
    destruct (run_output_lookup d sched 0 o Hcpus) as (q & Hq & _).
    + fold s. by rewrite Hout.
    + simpl in Hq. by rewrite Hqs in Hq.
  - pose proof (run_productive d sched Hcpus) as Hp. simpl in Hp.
    rewrite Hqs in Hp. simpl in Hp. lia.
  - apply run_completion; [done|]. simpl. rewrite Hqs. apply no_fault_nil.
  - by apply (pool_size d sched).
Qed.

(** C5, as amended. Pool downsizing: for a positive requested number of
    workers and a positive length hint, the dispatcher is built with
    [min(requested, hint)] as its pool size; no run of it has more workers
    than that, and unless the pool size is 1 a run has exactly that many
    once its spawning loop is over. *)
Theorem pool_downsizing (queries : Iterable Q) (cpus : Z) (n : nat)
    (sched : list Actor) :
  (0 < cpus)%Z → size_hint queries = Some n → 0 < n →
  ∃ d, dispatcher_init queries cpus = inr d ∧
       d_cpus d = Z.min cpus (Z.of_nat n) ∧
       let s := exec sched (run d) in
       (Z.of_nat (length (threads s)) ≤ d_cpus d)%Z ∧
       (d_cpus d ≠ 1%Z → pc s ≠ M_Spawn →
        Z.of_nat (length (threads s)) = d_cpus d).
Proof.
  intros Hcpus Hhint Hn. unfold dispatcher_init, length_hint. rewrite Hhint.
  destruct (cpus <=? 0)%Z eqn:Hle; [apply Z.leb_le in Hle; lia|].
  destruct (0 <? Z.of_nat n)%Z eqn:Hlt; [|apply Z.ltb_ge in Hlt; lia].
  eexists. split; [done|]. split; [done|]. simpl.
  set (d := mkDispatcher queries (Z.min cpus (Z.of_nat n))).
  destruct (pool_size d sched) as (Hle' & _ & Heq); [simpl; lia|].
  split; [exact Hle'|exact Heq].
Qed.

(** *** Further properties of runs *)

(** What a step of a worker leaves alone: the locals of the generator, its
    input and the counter. *)
Lemma worker_step_local s i w s' :
  worker_step i w s = Some s' →
  pc s' = pc s ∧ output s' = output s ∧ queries s' = queries s ∧
  query_count s' = query_count s ∧ suspended s' = suspended s.
Proof.
  destruct s as [cp qs chs sem qu cnt kill res ths p susp out].
  intros Hstep. destruct w; simpl in *.
  - by simplify_eq.
  - destruct sem; by simplify_eq.
  - destruct qu as [|[c|] qu]; by simplify_eq.
  - destruct (chs !! c) as [ch|]; simplify_eq/=.
    destruct (process _ _); by simplify_eq.
  - destruct (chs !! c) as [ch|]; by simplify_eq/=.
  - by simplify_eq.
  - destruct (chs !! c) as [ch|]; by simplify_eq/=.
  - done.
  - done.
Qed.

(** A step of the generator takes at most one query from the input, and
    counts it; past the single-threaded loop, an exception reaches the
    caller only with the kill switch set. *)
Lemma main_step_local s s' :
  main_step s = Some s' →
  ((queries s' = queries s ∧ query_count s' = query_count s) ∨
   (∃ q, queries s = q :: queries s' ∧
         query_count s' = c_ulong_incr (query_count s))) ∧
  (pc s ≠ S_Loop →
   output s' = output s ∨
   (∃ v, output s' = output s ++ [Yielded v]) ∨
   (∃ e, output s' = output s ++ [Raised e] ∧ kill_switch s' = true)).
Proof.
  destruct s as [cp qs chs sem qu cnt kill res ths p susp out].
  unfold main_step, yield_head. simpl. intros Hstep.
  destruct susp; [destruct p; simplify_eq/=; (split; [by left|by left])|].
  destruct p; simpl in *; try done.
  - split; [|done].
    destruct qs; [|destruct (process _ _)]; simplify_eq/=;
      [by left|right; by eexists..].
  - case_match; simplify_eq/=; (split; [by left|by left]).
  - destruct qs; simplify_eq/=; (split; [|by left]); [by left|right; by eexists].
  - case_match; simplify_eq/=. split; [by left|by left].
  - simplify_eq/=. split; [by left|by left].
  - destruct (head_chore _); simplify_eq/=. split; [by left|by left].
  - destruct (head_chore _) as [ch|]; simplify_eq/=.
    destruct (get ch); simplify_eq/=; (split; [by left|]); intros _;
      [right; left; by eexists|by left].
  - simplify_eq/=. split; [by left|by left].
  - repeat case_match; simplify_eq/=; (split; [by left|by left]).
  - simplify_eq/=. split; [by left|by left].
  - destruct res; simplify_eq/=; [split; [by left|by left]|].
    destruct (head_chore _) as [ch|]; simplify_eq/=.
    destruct (get ch); simplify_eq/=; (split; [by left|]); intros _;
      [right; left; by eexists|by left].
  - simplify_eq/=. split; [by left|by left].
  - simplify_eq/=. split; [by left|]. intros _. right. right. by eexists.
Qed.

Lemma generator_counted start (d : Dispatcher Q) :
  Counted (items (d_queries d)) (generator start d).
Proof.
  unfold Counted, consumed. simpl. split; [done|]. by rewrite Nat.sub_diag.
Qed.

Lemma step_counted qs0 a s s' :
  Counted qs0 s → step a s = Some s' → Counted qs0 s'.
Proof.
  unfold Counted, consumed. intros [Hlen Hcnt] Hstep.
  destruct a as [|i]; simpl in Hstep.
  - destruct (main_step_local _ _ Hstep) as [[[-> ->]|(q & Hq & ->)] _]; [done|].
    rewrite Hq in Hlen, Hcnt. simpl in Hlen, Hcnt. split; [lia|].
    rewrite Hcnt. unfold c_ulong_incr. rewrite Zplus_mod_idemp_l.
    f_equal. lia.
  - destruct (threads s !! i) as [w|]; simplify_eq/=.
    destruct (worker_step_local _ _ _ _ Hstep) as (_ & _ & -> & -> & _). done.
Qed.

Lemma exec_counted qs0 sched s : Counted qs0 s → Counted qs0 (exec sched s).
Proof.
  revert s. induction sched as [|a sched IH]; intros s HC; [done|].
  simpl. apply IH. unfold sched_step.
  destruct (step a s) as [s'|] eqn:Hs; [|done]. by eapply step_counted.
Qed.

Lemma step_alarm qs0 a s s' :
  Inv qs0 s → step a s = Some s' →
  (has_raised (output s) → kill_switch s = true) →
  has_raised (output s') → kill_switch s' = true.
Proof.
  intros HI Hstep Hal [e He].
  assert (Hpc : pc s ≠ S_Loop).
  { intros Hpc. pose proof (inv_pc _ _ HI) as Hok. by rewrite Hpc in Hok. }
  destruct a as [|i]; simpl in Hstep.
  - destruct (main_step_local _ _ Hstep) as [_ Hout].
    destruct (Hout Hpc) as [Ho|[[v Ho]|(e' & Ho & Hk)]]; [| |done].
    + apply (step_kill_switch Main s s' Hstep), Hal. exists e. by rewrite <- Ho.
    + apply (step_kill_switch Main s s' Hstep), Hal. exists e.
      rewrite Ho in He. apply elem_of_app in He as [He|He]; [done|].
      by apply list_elem_of_singleton in He.
  - destruct (threads s !! i) as [w|] eqn:Hi; simplify_eq/=.
    destruct (worker_step_local _ _ _ _ Hstep) as (_ & Ho & _).
    eapply (step_kill_switch (Worker i)); [simpl; by rewrite Hi|].
    apply Hal. exists e. by rewrite <- Ho.
Qed.

Lemma exec_alarm qs0 sched s :
  Inv qs0 s → (has_raised (output s) → kill_switch s = true) →
  has_raised (output (exec sched s)) → kill_switch (exec sched s) = true.
Proof.
  revert s. induction sched as [|a sched IH]; intros s HI Hal; [done|].
  simpl. apply IH; [by apply sched_step_inv|]. unfold sched_step.
  destruct (step a s) as [s'|] eqn:Hs; [|done]. by eapply step_alarm.
Qed.

(** A generator that has finished stays finished. *)
Lemma exec_pc_done sched s : pc s = G_Done → pc (exec sched s) = G_Done.
Proof.
  revert s. induction sched as [|a sched IH]; intros s Hpc; [done|].
  simpl. apply IH. unfold sched_step.
  destruct (step a s) as [s'|] eqn:Hs; [|done]. simpl.
  destruct a as [|i]; simpl in Hs.
  - unfold main_step in Hs. rewrite Hpc in Hs. by destruct (suspended s).
  - destruct (threads s !! i) as [w|]; simplify_eq/=.
    destruct (worker_step_local _ _ _ _ Hs) as (-> & _). done.
Qed.

(** The single-threaded generator touches neither the semaphore nor the
    kill switch. *)
Lemma single_step_quiet qs0 a s s' :
  SInv qs0 s → step a s = Some s' →
  query_available s' = query_available s ∧ kill_switch s' = kill_switch s.
Proof.
  destruct s as [cp qs chs sem qu cnt kill res ths p susp out].
  intros [(Hths & Hchs & Hqu) HS] Hstep. simpl in *. subst ths chs qu.
  destruct a as [|i]; [|done].
  simpl in Hstep. unfold main_step in Hstep. simpl in Hstep.
  destruct HS as [(-> & _)|[-> _]]; [|by destruct susp].
  destruct susp; simplify_eq; [done|].
  destruct qs as [|q qs]; simplify_eq/=; [done|].
  destruct (process q _); by simplify_eq/=.
Qed.

Lemma single_exec_quiet qs0 sched s :
  SInv qs0 s →
  query_available (exec sched s) = query_available s ∧
  kill_switch (exec sched s) = kill_switch s.
Proof.
  revert s. induction sched as [|a sched IH]; intros s HS; [done|].
  simpl. unfold sched_step. destruct (step a s) as [s'|] eqn:Hs; [|by apply IH].
  simpl. destruct (single_step_quiet _ _ _ _ HS Hs) as [<- <-].
  apply IH. by eapply single_step_inv.
Qed.

(** With the kill switch set, a worker that has not returned can always
    move, and each of its actions brings it closer to its return. *)
Lemma worker_step_rank qs0 s i w :
  Inv qs0 s → kill_switch s = true → threads s !! i = Some w →
  w ≠ W_Returned →
  ∃ s' w', step (Worker i) s = Some s' ∧ threads s' !! i = Some w' ∧
           rank w' < rank w.
Proof.
  intros HI Hkill Hi Hw.
  assert (Hlt : i < length (threads s)) by by eapply lookup_lt_Some.
  assert (Hheld : ∀ c, holds c w = 1 → is_Some (chores s !! c)).
  { intros c Hh. pose proof (inv_tokens _ _ HI c) as Htok.
    destruct (sum_list_with_update (holds c) _ _ _ w Hi) as (r & Hr & _).
    unfold enqueued in Htok. case_decide; [|lia].
    apply lookup_lt_is_Some_2. lia. }
  simpl. rewrite Hi. simpl. destruct w; simpl; try done.
  - rewrite Hkill. eexists _, _. split; [done|]. simpl.
    split; [by apply list_lookup_insert_eq|simpl; lia].
  - destruct (query_available s); eexists _, _; (split; [done|]); simpl;
      (split; [by apply list_lookup_insert_eq|simpl; lia]).
  - pose proof (inv_permits _ _ HI) as Hperm.
    destruct (sum_list_with_update at_get _ _ _ W_Get Hi) as (r & Hr & _).
    simpl in Hr.
    destruct (query_queue s) as [|[c|] qu]; simpl in *; [lia| |];
      eexists _, _; (split; [done|]); simpl;
      (split; [by apply list_lookup_insert_eq|simpl; lia]).
  - destruct (Hheld c) as [ch Hch]; [simpl; by case_decide|].
    rewrite Hch. simpl. destruct (process _ _); eexists _, _; (split; [done|]);
      simpl; (split; [by apply list_lookup_insert_eq|simpl; lia]).
  - destruct (Hheld c) as [ch Hch]; [simpl; by case_decide|].
    rewrite Hch. simpl. eexists _, _. split; [done|]. simpl.
    split; [by apply list_lookup_insert_eq|simpl; lia].
  - eexists _, _. split; [done|]. simpl.
    split; [by apply list_lookup_insert_eq|simpl; lia].
  - destruct (Hheld c) as [ch Hch]; [simpl; by case_decide|].
    rewrite Hch. simpl. eexists _, _. split; [done|]. simpl.
    split; [by apply list_lookup_insert_eq|simpl; lia].
  - by pose proof (inv_threads _ _ HI _ _ Hi).
Qed.

Lemma returned_dec (w : WorkerPC H E) : w = W_Returned ∨ w ≠ W_Returned.
Proof. destruct w; by (left + right). Qed.

Lemma exec_rank qs0 sched s i w :
  Inv qs0 s → kill_switch s = true → threads s !! i = Some w →
  rank w ≤ turns_of (Worker i) sched →
  threads (exec sched s) !! i = Some W_Returned.
Proof.
  revert s w. induction sched as [|a sched IH]; intros s w HI Hkill Hi Hr.
  - pose proof (inv_threads _ _ HI _ _ Hi) as Hok.
    destruct w; simpl in *; try done; unfold turns_of in Hr; simpl in Hr; lia.
  - destruct (returned_dec w) as [->|Hw]; [by apply exec_returned|].
    unfold turns_of in Hr. rewrite filter_cons in Hr.
    destruct (decide (a = Worker i)) as [->|Ha].
    + destruct (worker_step_rank _ _ _ _ HI Hkill Hi Hw)
        as (s' & w' & Hs & Hi' & Hlt).
      rewrite (exec_step _ _ _ _ Hs).
      apply (IH s' w'); [by eapply step_inv|by eapply step_kill_switch|done|].
      simpl in Hr. unfold turns_of. lia.
    + change (threads (exec sched (sched_step s a)) !! i = Some W_Returned).
      apply (IH _ w); [by apply sched_step_inv| | |by unfold turns_of].
      * unfold sched_step. destruct (step a s) as [s'|] eqn:Hs; [|done].
        by eapply step_kill_switch.
      * unfold sched_step. destruct (step a s) as [s'|] eqn:Hs; [|done].
        by eapply step_other_thread.
Qed.

Lemma sum_list_with_lt {A} (f : A → nat) l i x y :
  (∀ z, f z ≤ 1) → l !! i = Some x → f x = 0 → f y = 1 →
  sum_list_with f l < length l.
Proof.
  intros Hle Hi Hx Hy.
  destruct (sum_list_with_update f l i x y Hi) as (r & Hr & Hr').
  pose proof (sum_list_with_le_length f (<[i:=y]> l) Hle) as Hlen.
  rewrite length_insert in Hlen. lia.
Qed.

Lemma sum_list_with_ge {A} (f : A → nat) l i x :
  l !! i = Some x → f x ≤ sum_list_with f l.
Proof.
  intros Hi. destruct (sum_list_with_update f l i x x Hi) as (r & Hr & _). lia.
Qed.

Lemma returned_le_1 (w : WorkerPC H E) : returned w ≤ 1.
Proof. destruct w; simpl; lia. Qed.

Lemma returned_full s :
  sum_list_with returned (threads s) = length (threads s) → all_returned s.
Proof.
  intros Hsum i w Hi. destruct (returned_dec w) as [|Hw]; [done|].
  assert (Hlt : sum_list_with returned (threads s) < length (threads s)); [|lia].
  apply (sum_list_with_lt _ _ i w W_Returned); [apply returned_le_1|done| |done].
  by destruct w.
Qed.

(** Once a fault-free generator has finished, a worker that has not
    returned yet finds its poison pill. *)
Lemma shutdown_progress qs0 s :
  Inv qs0 s → Live s → pc s = G_Done →
  sum_list_with returned (threads s) < length (threads s) →
  ∃ sched, measure (exec sched s) < measure s.
Proof.
  intros HI HL Hpc Hret.
  destruct (busy_dec (threads s)) as [(i & w & Hi & Hb)|Hidle].
  { destruct (busy_progress _ _ _ _ HI Hi Hb) as (s' & Hs & Hm).
    exists [Worker i]. by rewrite (exec_step _ _ _ _ Hs). }
  pose proof HL as [Lkill Lths _ (ids & pills & Lqu & Lpills & _)].
  assert (Hget : sum_list_with at_get (threads s) = 0).
  { apply sum_list_with_zero. intros i w Hi.
    specialize (Hidle _ _ Hi). by destruct w. }
  pose proof (inv_permits _ _ HI) as Hperm.
  rewrite Hpc, Hget, Lqu, length_app, length_replicate in Hperm.
  rewrite Hpc in Lpills. simpl in Hperm, Lpills.
  assert (Hsem : 0 < query_available s) by lia.
  apply sum_list_with_lt_length in Hret as (i & w & Hi & Hw).
  destruct (idle_worker w) as (Hw' & _); [by eapply Lths|by eauto|done|].
  eapply idle_progress; eauto.
Qed.

Lemma shutdown qs0 s :
  no_fault qs0 → Inv qs0 s → Live s → pc s = G_Done →
  ∃ sched, sum_list_with returned (threads (exec sched s))
           = length (threads (exec sched s)).
Proof.
  intros Hnf. remember (measure s) as n eqn:Hn. revert s Hn.
  induction n as [n IH] using lt_wf_ind. intros s -> HI HL Hpc.
  destruct (decide (sum_list_with returned (threads s) = length (threads s)))
    as [Hall|Hnot]; [by exists []|].
  pose proof (sum_list_with_le_length returned (threads s) returned_le_1).
  destruct (shutdown_progress qs0 s) as [sched Hm]; [done..|lia|].
  destruct (IH _ Hm (exec sched s) eq_refl) as [sched' Hd].
  { by apply exec_inv. }
  { by eapply exec_live. }
  { by apply exec_pc_done. }
  exists (sched ++ sched'). by rewrite exec_app.
Qed.

(** An exception in the sequential outputs is that of the first query on
    which [process] raises. *)
Lemma sequential_raised_first qs total i e :
  deterministic → sequential qs total !! i = Some (Raised e) →
  (∃ q, qs !! i = Some q ∧ ∀ t, process q t = inr e) ∧
  (∀ j q, j < i → qs !! j = Some q →
     ∃ h, (∀ t, process q t = inl h) ∧
          sequential qs total !! j = Some (Yielded (Some h))).
Proof.
  intros Hdet. revert total i.
  induction qs as [|q qs IH]; intros total i Hi; [done|].
  simpl in *. destruct (process q (c_ulong_incr total)) as [h|e'] eqn:Hp.
  - destruct i as [|i]; [done|]. simpl in Hi.
    destruct (IH _ _ Hi) as [Hq Hbefore]. split; [done|].
    intros [|j] q' Hj Hq'; simplify_eq/=.
    + exists h. split; [|done]. intros t. rewrite <- Hp.
      by apply process_deterministic.
    + apply Hbefore; [lia|done].
  - destruct i as [|i]; simplify_eq/=. split.
    + exists q. split; [done|]. intros t. rewrite <- Hp.
      by apply process_deterministic.
    + intros j q' Hj. lia.
Qed.

Lemma single_done_stuck qs0 s : SInv qs0 s → pc s = G_Done → stuck s.
Proof.
  intros [(Hths & _) _] Hpc [|i]; simpl.
  - unfold main_step. rewrite Hpc. by destruct (suspended s).
  - by rewrite Hths, lookup_nil.
Qed.

(** The single-threaded generator never waits: the main thread can move
    until the generator is finished. *)
Lemma single_main_enabled qs0 s :
  SInv qs0 s → pc s ≠ G_Done →
  ∃ s', step Main s = Some s' ∧
        (pc s' = G_Done ∨
         2 * length (queries s') + (if suspended s' then 1 else 0)
         < 2 * length (queries s) + (if suspended s then 1 else 0)).
Proof.
  destruct s as [cp qs chs sem qu cnt kill res ths p susp out].
  intros [_ [(Hpc & _)|[Hpc _]]] Hnd; simpl in *; [subst p|done].
  unfold main_step. simpl. destruct susp.
  - eexists. split; [done|]. right. simpl. lia.
  - destruct qs as [|q qs]; [eexists; split; [done|by left]|].
    destruct (process q _); eexists; (split; [done|]); simpl;
      [right; lia|by left].
Qed.

Lemma single_main_turns qs0 n s :
  SInv qs0 s →
  pc s = G_Done ∨
  2 * length (queries s) + 1 + (if suspended s then 1 else 0) ≤ n →
  pc (exec (turns n Main) s) = G_Done.
Proof.
  revert s. induction n as [|n IH]; intros s HS Hn.
  - destruct Hn as [Hpc|Hn]; [done|lia].
  - destruct (decide (finished (pc s) = 1)) as [Hpc|Hpc].
    { apply finished_done in Hpc. by apply exec_pc_done. }
    assert (Hnd : pc s ≠ G_Done) by (intros Hd; by apply Hpc, finished_done).
    destruct (single_main_enabled _ _ HS Hnd) as (s' & Hs & Hcase).
    change (turns (S n) Main) with (Main :: turns n Main).
    rewrite (exec_step _ _ _ _ Hs). apply IH; [by eapply single_step_inv|].
    destruct Hn as [?|Hn]; [done|]. destruct Hcase as [?|Hlt]; [by left|].
    right. lia.
Qed.

(** X1. The permits of the semaphore never outnumber the items of the
    queue: in every state of a run the value of [query_available], plus the
    workers that have acquired a permit and are about to call
    [get_nowait], is at most the length of [query_queue]. So [get_nowait]
    finds an item each time: no worker thread ever leaves [run] on
    [queue.Empty]. *)
Theorem permits_have_items (d : Dispatcher Q) (sched : list Actor) :
  (1 ≤ d_cpus d)%Z →
  let s := exec sched (run d) in
  query_available s + sum_list_with at_get (threads s)
    ≤ length (query_queue s) ∧
  (∀ i, threads s !! i ≠ Some W_Crashed) ∧
  (∀ i, threads s !! i = Some W_Get →
     ∃ s' w, step (Worker i) s = Some s' ∧ threads s' !! i = Some w ∧
             (w = W_Returned ∨ ∃ c, w = W_Process c)).
Proof.
  intros Hcpus s. subst s. unfold run. destruct (d_cpus d =? 1)%Z.
  - pose proof (single_exec_inv _ sched _ (single_threaded_inv d)) as HS.
    destruct (single_exec_quiet _ sched _ (single_threaded_inv d)) as [Hsem _].
    destruct HS as [(Hths & _ & Hqu) _]. rewrite Hsem, Hths, Hqu. simpl.
    split; [done|]. split; intros i; by rewrite lookup_nil.
  - pose proof (exec_inv _ sched _ (multi_threaded_inv d Hcpus)) as HI.
    set (s := exec sched (multi_threaded d)) in *.
    pose proof (inv_permits _ _ HI) as Hperm. split; [lia|]. split.
    + intros i Hi. by pose proof (inv_threads _ _ HI _ _ Hi).
    + intros i Hi.
      destruct (sum_list_with_update at_get _ _ _ W_Get Hi) as (r & Hr & _).
      simpl in Hr. simpl. rewrite Hi. simpl.
      assert (Hlt : i < length (threads s)) by by eapply lookup_lt_Some.
      destruct (query_queue s) as [|[c|] qu]; simpl in *; [lia| |];
        eexists _, _; (split; [done|]); simpl;
        (split; [by apply list_lookup_insert_eq|]); [right; by eexists|by left].
Qed.

(** X2. Graceful shutdown: when [process] raises on no query, every state
    of a run can be continued to a final state in which the generator is
    finished, the caller has received one element per query, every worker
    thread has returned from [run] (each on its poison pill), the queue is
    empty and the semaphore is at 0; in that state no thread can move any
    more. *)
Theorem graceful_shutdown (d : Dispatcher Q) (sched : list Actor) :
  (1 ≤ d_cpus d)%Z → no_fault (items (d_queries d)) →
  ∃ sched',
    let s := exec sched' (exec sched (run d)) in
    pc s = G_Done ∧ length (output s) = length (items (d_queries d)) ∧
    all_returned s ∧ query_queue s = [] ∧ query_available s = 0 ∧
    kill_switch s = false ∧ stuck s.
Proof.
  intros Hcpus Hnf. unfold run.
  destruct (d_cpus d =? 1)%Z eqn:Hc.
  - pose proof (single_exec_inv _ sched _ (single_threaded_inv d)) as HS.
    destruct (single_completion _ _ HS) as [sched' Hd]. exists sched'.
    rewrite <- exec_app in *.
    pose proof (single_exec_inv _ (sched ++ sched') _ (single_threaded_inv d))
      as HS'.
    destruct (single_exec_quiet _ (sched ++ sched') _ (single_threaded_inv d))
      as [Hsem Hkill].
    pose proof (single_done_stuck _ _ HS' Hd) as Hstuck.
    destruct HS' as [(Hths & _ & Hqu) [(Hpc & _)|[_ Hout]]]; [congruence|].
    simpl. split; [done|]. split; [by rewrite Hout, sequential_no_fault|].
    split; [intros i w; by rewrite Hths, lookup_nil|]. done.
  - apply Z.eqb_neq in Hc.
    pose proof (exec_inv _ sched _ (multi_threaded_inv d Hcpus)) as HI.
    pose proof (exec_live _ sched _ Hnf (multi_threaded_inv d Hcpus)
                  (multi_threaded_live d)) as HL.
    destruct (completion _ _ Hnf HI HL) as [sched1 Hd].
    pose proof (exec_inv _ sched1 _ HI) as HI1.
    pose proof (exec_live _ sched1 _ Hnf HI HL) as HL1.
    destruct (shutdown _ _ Hnf HI1 HL1 Hd) as [sched2 Hall].
    exists (sched1 ++ sched2). rewrite exec_app. simpl.
    pose proof (exec_inv _ sched2 _ HI1) as HI2.
    pose proof (exec_live _ sched2 _ Hnf HI1 HL1) as HL2.
    pose proof (exec_pc_done sched2 _ Hd) as Hd2.
    set (s := exec sched2 (exec sched1 (exec sched (multi_threaded d)))) in *.
    pose proof (returned_full _ Hall) as Hret.
    destruct HL2 as [Lkill _ _ (ids & pills & Lqu & Lpills & Lids)].
    rewrite Hd2 in Lpills. simpl in Lpills.
    destruct (inv_pool _ _ HI2) as [_ Hpool].
    specialize (Hpool ltac:(by rewrite Hd2)).
    pose proof (inv_cpus _ _ HI2) as Hc2.
    assert (Hids : ids = []) by (destruct Lids; [done|lia]).
    assert (Hpills : pills = 0) by lia. subst ids pills. simpl in Lqu.
    pose proof (inv_permits _ _ HI2) as Hperm. rewrite Lqu in Hperm.
    simpl in Hperm.
    split; [done|]. split; [by eapply output_complete|].
    split; [done|]. split; [done|]. split; [lia|]. split; [done|].
    intros [|i]; simpl.
    + unfold main_step. rewrite Hd2. by destruct (suspended s).
    + destruct (threads s !! i) as [w|] eqn:Hi; [|done].
      by rewrite (Hret _ _ Hi).
Qed.

(** X3. Without a fault nothing is cancelled: when [process] raises on no
    query, the kill switch is never set, and a worker thread returns from
    [run] only on a poison pill, that is after the generator has taken the
    last query from its input and after every chore has been taken from the
    queue (which then holds poison pills only). *)
Theorem fault_free_workers (d : Dispatcher Q) (sched : list Actor) :
  (1 ≤ d_cpus d)%Z → no_fault (items (d_queries d)) →
  let s := exec sched (run d) in
  kill_switch s = false ∧ ¬ has_raised (output s) ∧
  (∀ i, threads s !! i = Some W_Returned →
     queries s = [] ∧ ∀ x, x ∈ query_queue s → x = None).
Proof.
  intros Hcpus Hnf s.
  assert (Hout : ¬ has_raised (output s)).
  { intros [e He]. apply list_elem_of_lookup in He as [i Hi].
    destruct (run_output_lookup d sched i _ Hcpus Hi) as (q & Hq & total & Ho).
    destruct (Hnf q total) as [h Hh]; [by eapply list_elem_of_lookup_2|].
    by rewrite Hh in Ho. }
  split; [|split; [done|]]; subst s; unfold run in *;
    destruct (d_cpus d =? 1)%Z.
  - by destruct (single_exec_quiet _ sched _ (single_threaded_inv d)) as [_ ->].
  - apply (exec_live _ sched _ Hnf (multi_threaded_inv d Hcpus)
             (multi_threaded_live d)).
  - intros i Hi. exfalso.
    by eapply single_no_threads; [eapply single_exec_inv, single_threaded_inv|].
  - pose proof (exec_inv _ sched _ (multi_threaded_inv d Hcpus)) as HI.
    pose proof (exec_live _ sched _ Hnf (multi_threaded_inv d Hcpus)
                  (multi_threaded_live d)) as HL.
    set (s := exec sched (multi_threaded d)) in *.
    intros i Hi.
    pose proof (sum_list_with_ge returned _ _ _ Hi) as Hret. simpl in Hret.
    destruct HL as [_ _ _ (ids & pills & Lqu & Lpills & Lids)].
    assert (Hids : ids = []) by (destruct Lids; [done|lia]). subst ids.
    split.
    + pose proof (inv_pc _ _ HI) as Hpc.
      destruct (pc s) eqn:Hp; simpl in Lpills, Hpc; try lia; try done;
        try (by destruct Hpc).
      destruct Hpc as [[e He]|[Hqs _]]; [|done].
      destruct Hout. exists e. apply last_Some in He as [l ->].
      apply elem_of_app. right. by apply list_elem_of_singleton.
    + intros x Hx. rewrite Lqu in Hx. simpl in Hx.
      by apply elem_of_replicate in Hx as [-> _].
Qed.

(** X4. The generator sets the kill switch before it lets an exception
    out: in a run of the multi-threaded path, once the caller has received
    an exception the kill switch is set and the generator is finished, and
    the exception is the last element the caller has received. *)
Theorem raise_sets_kill_switch (d : Dispatcher Q) (sched : list Actor) (e : E) :
  (1 < d_cpus d)%Z →
  let s := exec sched (run d) in
  Raised e ∈ output s →
  kill_switch s = true ∧ pc s = G_Done ∧ last (output s) = Some (Raised e).
Proof.
  intros Hcpus s He. subst s. unfold run in *.
  destruct (d_cpus d =? 1)%Z eqn:Hc; [apply Z.eqb_eq in Hc; lia|].
  assert (Hcpus' : (1 ≤ d_cpus d)%Z) by lia.
  pose proof (exec_inv _ sched _ (multi_threaded_inv d Hcpus')) as HI.
  split.
  { apply (exec_alarm _ sched _ (multi_threaded_inv d Hcpus')); [|by exists e].
    intros [e' He']. by apply elem_of_nil in He'. }
  set (s := exec sched (multi_threaded d)) in *.
  apply list_elem_of_lookup in He as [i Hi].
  pose proof (output_raised_last _ _ _ _ HI Hi) as Hlast.
  split.
  - pose proof (inv_output _ _ HI) as Hout. rewrite Hout in Hi.
    rewrite list_lookup_fmap in Hi.
    destruct (take (length (output s)) (chores s) !! i) as [ch|] eqn:Hch;
      [|done].
    apply lookup_take_Some in Hch as [Hch _]. simpl in Hi.
    apply finished_done. destruct (finished (pc s)) eqn:Hfin.
    + pose proof (inv_yielded _ _ HI i ch ltac:(lia) Hch) as Hex.
      unfold outcome in Hi. by rewrite Hex in Hi.
    + by destruct (pc s).
  - rewrite last_lookup, <- Hlast. done.
Qed.

(** X5. Cooperative cancellation: once the kill switch is set, a worker
    thread returns from [run] after at most six more actions of its own
    (at most one more item taken from the queue and handled), whatever the
    other threads do in between; it never waits for anybody. *)
Theorem cooperative_cancellation (d : Dispatcher Q) (sched rest : list Actor)
    (i : nat) (w : WorkerPC H E) :
  (1 ≤ d_cpus d)%Z →
  let s := exec sched (run d) in
  kill_switch s = true → threads s !! i = Some w →
  6 ≤ turns_of (Worker i) rest →
  threads (exec rest s) !! i = Some W_Returned.
Proof.
  intros Hcpus s Hkill Hi Hturns. subst s. unfold run in *.
  destruct (d_cpus d =? 1)%Z.
  - exfalso.
    by eapply single_no_threads; [eapply single_exec_inv, single_threaded_inv|].
  - eapply exec_rank; [by apply exec_inv, multi_threaded_inv|done..|].
    destruct w; simpl; lia.
Qed.

(** X6. The progress counter: in every state of a run [query_count] is the
    number of queries the generator has taken from its input so far, modulo
    [2 ^ 64]. A worker reads it when it processes the chore [c] (chores are
    numbered from 0), later than the generator has counted that chore: with
    fewer than [2 ^ 64] queries, the total handed to the callback for the
    chore [c] is at least [c + 1] and at most the number of queries. *)
Theorem progress_counter (d : Dispatcher Q) (sched : list Actor) :
  (1 ≤ d_cpus d)%Z →
  let qs := items (d_queries d) in
  let s := exec sched (run d) in
  query_count s = (Z.of_nat (consumed qs s) mod 2 ^ 64)%Z ∧
  consumed qs s ≤ length qs ∧
  ∀ i c, threads s !! i = Some (W_Process c) →
    c < consumed qs s ∧
    ((Z.of_nat (length qs) < 2 ^ 64)%Z →
     (Z.of_nat c < query_count s ≤ Z.of_nat (length qs))%Z).
Proof.
  intros Hcpus qs s.
  assert (HC : Counted qs s).
  { subst s. unfold run. destruct (d_cpus d =? 1)%Z;
      apply exec_counted, generator_counted. }
  destruct HC as [Hlen Hcnt]. split; [done|].
  assert (Hle : consumed qs s ≤ length qs) by (unfold consumed; lia).
  split; [done|]. intros i c Hi.
  assert (Hc : c < consumed qs s).
  { subst s. unfold run in *. destruct (d_cpus d =? 1)%Z.
    - exfalso.
      by eapply single_no_threads; [eapply single_exec_inv, single_threaded_inv|].
    - pose proof (exec_inv _ sched _ (multi_threaded_inv d Hcpus)) as HI.
      set (s := exec sched (multi_threaded d)) in *.
      pose proof (inv_tokens _ _ HI c) as Htok.
      destruct (sum_list_with_update (holds c) _ _ _ (W_Process c) Hi)
        as (r & Hr & _).
      simpl in Hr. rewrite decide_True in Hr by done.
      unfold enqueued in Htok. case_decide; [|lia].
      pose proof (inv_queries _ _ HI) as Hqs.
      pose proof (chores_length _ _ HI) as Hchs.
      unfold consumed. rewrite Hqs, length_drop. subst qs. lia. }
  split; [done|]. intros Hsmall. rewrite Hcnt, Z.mod_small; lia.
Qed.

Lemma run_first_fault (d : Dispatcher Q) (sched : list Actor)
    (i : nat) (e : E) :
  (1 ≤ d_cpus d)%Z → deterministic →
  let qs := items (d_queries d) in
  let s := exec sched (run d) in
  output s !! i = Some (Raised e) →
  (∃ q, qs !! i = Some q ∧ ∀ total, process q total = inr e) ∧
  (∀ j q, j < i → qs !! j = Some q →
     ∃ h, (∀ total, process q total = inl h) ∧
          output s !! j = Some (Yielded (Some h))) ∧
  length (output s) = S i.
Proof.
  intros Hcpus Hdet qs s Hi.
  assert (Hpre : output s `prefix_of` sequential qs 0%Z).
  { subst s. unfold run. destruct (d_cpus d =? 1)%Z.
    - apply single_output_prefix, single_exec_inv, single_threaded_inv.
    - by apply output_prefix_sequential, exec_inv, multi_threaded_inv. }
  pose proof (prefix_lookup_Some _ _ _ _ Hi Hpre) as Hseq.
  destruct (sequential_raised_first _ _ _ _ Hdet Hseq) as [Hq Hbefore].
  split; [done|]. split.
  - intros j q Hj Hqj. destruct (Hbefore j q Hj Hqj) as (h & Hh & Hsj).
    exists h. split; [done|].
    destruct (lookup_lt_is_Some_2 (output s) j) as [o Ho].
    { apply lookup_lt_Some in Hi. lia. }
    pose proof (prefix_lookup_Some _ _ _ _ Ho Hpre) as Hsj'. congruence.
  - pose proof (sequential_raised_last _ _ _ _ Hseq) as Hlast.
    pose proof (prefix_length _ _ Hpre) as Hlen.
    apply lookup_lt_Some in Hi. lia.
Qed.

(** X7. The exception the caller receives is that of the first failing
    query: when [process] does not depend on the counter and the [i]-th
    element received in a run is an exception [e], then [process] raises
    [e] on the [i]-th query and succeeds on every query before it, whose
    hits the caller has received at their positions; and nothing was
    delivered after the exception. *)
Theorem first_fault_raised (d : Dispatcher Q) (sched : list Actor)
    (i : nat) (e : E) :
  (1 ≤ d_cpus d)%Z → deterministic →
  let qs := items (d_queries d) in
  let s := exec sched (run d) in
  output s !! i = Some (Raised e) →
  (∃ q, qs !! i = Some q ∧ ∀ total, process q total = inr e) ∧
  (∀ j q, j < i → qs !! j = Some q →
     ∃ h, (∀ total, process q total = inl h) ∧
          output s !! j = Some (Yielded (Some h))) ∧
  length (output s) = S i.
Proof. apply run_first_fault. Qed.

(** X8. The single-threaded path cannot deadlock: with a pool of size 1
    the main thread can always move until the generator is finished, and
    when the caller drives it alone, [2 * n + 2] actions for [n] queries
    (a [next()] and the processing of one query, for each query; a last
    [next()] and the end of the loop) take it to its end, where the outputs
    are those of the queries processed one after the other, up to the
    first exception. No worker thread exists at any time. *)
Theorem single_threaded_run (d : Dispatcher Q) (sched : list Actor) (n : nat) :
  d_cpus d = 1%Z →
  let qs := items (d_queries d) in
  (threads (exec sched (run d)) = [] ∧
   (pc (exec sched (run d)) ≠ G_Done →
    is_Some (step Main (exec sched (run d))))) ∧
  (2 * length qs + 2 ≤ n →
   let s := exec (turns n Main) (run d) in
   pc s = G_Done ∧ output s = sequential qs 0%Z ∧ stuck s).
Proof.
  intros Hc qs. unfold run. rewrite Hc. change (1 =? 1)%Z with true. cbv iota.
  pose proof (single_threaded_inv d) as HS0. split.
  - pose proof (single_exec_inv _ sched _ HS0) as HS. split; [apply HS|].
    intros Hpc. destruct (single_main_enabled _ _ HS Hpc) as (s' & Hs & _).
    by exists s'.
  - intros Hn. set (s := exec (turns n Main) (single_threaded d)).
    assert (Hd : pc s = G_Done).
    { apply (single_main_turns (items (d_queries d))); [done|].
      right. simpl. subst qs. lia. }
    pose proof (single_exec_inv _ (turns n Main) _ HS0) as HS.
    split; [done|]. split; [|by eapply single_done_stuck].
    destruct HS as [_ [(Hpc & _)|[_ Hout]]]; [|done].
    fold s in Hpc. congruence.
Qed.

(** X9. Each chore is in one place at a time: in every state of a run a
    chore is at most once in the queue, or held by at most one worker, or
    done, and never two of these. So no query is processed twice, a worker
    never holds a chore that is still in the queue or already done, and
    two workers never hold the same chore. *)
Theorem chore_exclusive (d : Dispatcher Q) (sched : list Actor) (c : nat) :
  (1 ≤ d_cpus d)%Z →
  let s := exec sched (run d) in
  (sum_list_with (queued c) (query_queue s)
   + sum_list_with (holds c) (threads s) + is_done c (chores s) ≤ 1) ∧
  (∀ i j wi wj, threads s !! i = Some wi → threads s !! j = Some wj →
     holds c wi = 1 → holds c wj = 1 → i = j) ∧
  (∀ i w, threads s !! i = Some w → holds c w = 1 →
     (Some c ∉ query_queue s) ∧ is_done c (chores s) = 0).
Proof.
  intros Hcpus s.
  assert (Hsum : sum_list_with (queued c) (query_queue s)
                 + sum_list_with (holds c) (threads s)
                 + is_done c (chores s) ≤ 1).
  { subst s. unfold run. destruct (d_cpus d =? 1)%Z.
    - destruct (single_exec_inv _ sched _ (single_threaded_inv d))
        as [(-> & -> & ->) _].
      simpl. unfold is_done. rewrite lookup_nil. lia.
    - pose proof (exec_inv _ sched _ (multi_threaded_inv d Hcpus)) as HI.
      rewrite (inv_tokens _ _ HI c). unfold enqueued. case_decide; lia. }
  split; [done|]. split.
  - intros i j wi wj Hi Hj Hhi Hhj.
    destruct (decide (i = j)) as [|Hne]; [done|]. exfalso.
    destruct (sum_list_with_update (holds c) _ _ _ (W_Loop : WorkerPC H E) Hi)
      as (r & Hr & Hr').
    assert (Hj' : <[i:=W_Loop]> (threads s) !! j = Some wj)
      by by rewrite list_lookup_insert_ne.
    pose proof (sum_list_with_ge (holds c) _ _ _ Hj') as Hge.
    simpl in Hr'. lia.
  - intros i w Hi Hh.
    pose proof (sum_list_with_ge (holds c) _ _ _ Hi) as Hge. split; [|lia].
    intros Hin. apply list_elem_of_lookup in Hin as [k Hk].
    pose proof (sum_list_with_ge (queued c) _ _ _ Hk) as Hq.
    simpl in Hq. rewrite decide_True in Hq by done. lia.
Qed.

End Invariants.


(** ** The claims on the set-up *)

Section SetupClaims.
Context {Q H E : Type}.

Lemma py_or_detected (x y : option Z) :
  detected x → detected y → detected (py_or x y).
Proof. intros Hx Hy. unfold py_or. by destruct (truthy x). Qed.

Lemma py_or_int_positive (x : option Z) : detected x → 0 < py_or_int x 1.
Proof.
  destruct x as [n|]; simpl; [|lia]. intros Hn.
  destruct (n =? 0) eqn:Hz; [lia|]. apply Z.eqb_neq in Hz. lia.
Qed.

Lemma select_cpus_positive (cpus : Z) (psutil_cpu_count os_cpu_count : option Z) :
  detected psutil_cpu_count → detected os_cpu_count →
  0 < select_cpus cpus psutil_cpu_count os_cpu_count.
Proof.
  intros Hp Ho. unfold select_cpus.
  destruct (0 <? cpus) eqn:Hc; [by apply Z.ltb_lt in Hc|].
  by apply py_or_int_positive, py_or_detected.
Qed.




(** C6. Invalid pool size: with a worker count of zero or less, the
    constructor of the dispatcher raises [ValueError]; it returns no
    dispatcher, so no generator exists, no query is processed and no thread
    is spawned. The queries are not looked at. *)
Theorem invalid_pool_size (queries : Iterable Q) (cpus : Z) :
  cpus <= 0 → dispatcher_init queries cpus = inl (ValueError cpus).
Proof.
  intros Hc. unfold dispatcher_init.
  destruct (cpus <=? 0) eqn:Hle; [done|]. apply Z.leb_gt in Hle. lia.
Qed.

End SetupClaims.

(** ** A single query *)

Section SingleQuery.
Context {Q H E : Type}.
Variable query_fn : Q -> H + E.
Variable callback : Q -> Z -> option E.
Variable psutil_cpu_count os_cpu_count : option Z.

Lemma entry_point_single (query : Q) (requested : Z) :
  detected psutil_cpu_count → detected os_cpu_count →
  entry_point psutil_cpu_count os_cpu_count (as_iterable (inl query)) requested
  = inr (single_threaded (mkDispatcher (as_iterable (inl query)) 1)
           : State Q H E).
Proof.
  intros Hps Hos. unfold entry_point, dispatcher_init.
  pose proof (select_cpus_positive requested _ _ Hps Hos) as Hpos.
  set (n := select_cpus requested psutil_cpu_count os_cpu_count) in *.
  destruct (n <=? 0) eqn:Hle; [apply Z.leb_le in Hle; lia|].
  unfold length_hint. simpl. rewrite Z.min_r by lia. done.
Qed.

(** X16. A single query runs in the main thread: called with one query
    object instead of an iterable, [phmmer], [nhmmer] and [hmmscan] build a
    dispatcher of pool size 1 whatever the number of workers requested
    (also 0, or more than one), so the generator is the single-threaded
    one: no worker thread is ever spawned, and the caller, driving it
    alone, receives the result of the query (its hits, or the exception it
    raises) and then the end of the generator. *)
Theorem single_query_run (query : Q) (requested : Z) (sched : list Actor) :
  detected psutil_cpu_count → detected os_cpu_count →
  ∃ s0 : State Q H E,
    phmmer psutil_cpu_count os_cpu_count (as_iterable (inl query)) requested
      = inr s0 ∧
    nhmmer psutil_cpu_count os_cpu_count (as_iterable (inl query)) requested
      = inr s0 ∧
    hmmscan psutil_cpu_count os_cpu_count (as_iterable (inl query)) requested
      = inr s0 ∧
    cpus s0 = 1 ∧
    threads (exec query_fn callback sched s0) = [] ∧
    let s := exec query_fn callback (turns 4 Main) s0 in
    pc s = G_Done ∧
    output s = [to_output (process query_fn callback query 1)].
Proof.
  intros Hps Hos. eexists. unfold phmmer, nhmmer, hmmscan.
  split; [by apply entry_point_single|]. split; [by apply entry_point_single|].
  split; [by apply entry_point_single|]. split; [done|].
  set (d := mkDispatcher (as_iterable (inl query)) 1).
  pose proof (single_threaded_inv query_fn callback d) as HS0.
  split.
  { by destruct (single_exec_inv query_fn callback _ sched _ HS0) as [(-> & _) _]. }
  assert (Hd : pc (exec query_fn callback (turns 4 Main) (single_threaded d))
               = G_Done).
  { apply (single_main_turns query_fn callback [query]); [done|].
    right. simpl. lia. }
  split; [done|].
  destruct (single_exec_inv query_fn callback _ (turns 4 Main) _ HS0)
    as [_ [(Hpc & _)|[_ ->]]]; [congruence|].
  simpl. change (c_ulong_incr 0) with 1.
  by destruct (process query_fn callback query 1).
Qed.
End SingleQuery.

(** ** The [query] methods of the workers *)

Section WorkerQueries.
Context {Hmm Gm Om Sq Msa H E : Type}.
Variable search_hmm : Hmm + Gm + Om → H + E.
Variable search_seq : Sq → H + E.
Variable search_msa : Msa → H + E.
Variable scan_seq : Sq → H + E.

Local Abbreviation Object := (Object Hmm Gm Om Sq Msa).
Local Abbreviation worker_query :=
  (worker_query search_hmm search_seq search_msa scan_seq).

Lemma engine_call_inr (r : H + E) (exc : PyException) :
  engine_call r ≠ inr (inl exc).
Proof. by destruct r. Qed.

Lemma worker_query_registered (p : Program) (query : Object) :
  if registered p query
  then ∃ r, worker_query p query = engine_call r
  else worker_query p query = inr (inl (unsupported p query)).
Proof. destruct p, query; simpl; by eauto. Qed.

Lemma worker_query_type_error (p : Program) (query : Object) exc :
  worker_query p query = inr (inl exc) →
  registered p query = false ∧ exc = unsupported p query.
Proof.
  pose proof (worker_query_registered p query) as Hq.
  destruct (registered p query).
  - destruct Hq as [r ->]. intros Hr. by apply engine_call_inr in Hr.
  - rewrite Hq. intros ?; by simplify_eq.
Qed.

(** X11. A query of an unsupported class fails its own turn, not the
    call: with a callback that does not raise, when the [i]-th element the
    caller receives from a run of the dispatcher of a program is a
    [TypeError] of the module, then the [i]-th query is of a class that is
    not registered for the program and the message names the program and
    that class; every query before it was of a registered class and was
    answered with its hits, and nothing comes after the exception. When
    all the queries are of registered classes, no such [TypeError] is
    received. *)
Theorem unsupported_query_raised (p : Program)
    (callback : Object → Z → option (PyException + E))
    (d : Dispatcher Object) (sched : list Actor) :
  (1 ≤ d_cpus d)%Z → (∀ q total, callback q total = None) →
  let qs := items (d_queries d) in
  let s := exec (worker_query p) callback sched (run d) in
  (∀ i exc, output s !! i = Some (Raised (inl exc)) →
     (∃ q, qs !! i = Some q ∧ registered p q = false ∧
           exc = unsupported p q) ∧
     (∀ j q, (j < i)%nat → qs !! j = Some q →
        registered p q = true ∧
        ∃ hits, output s !! j = Some (Yielded (Some hits))) ∧
     length (output s) = S i) ∧
  ((∀ q, q ∈ qs → registered p q = true) →
   ∀ exc, Raised (inl exc) ∉ output s).
Proof.
  intros Hcpus Hcb qs s.
  assert (Hdet : deterministic callback).
  { intros q t t'. by rewrite !Hcb. }
  assert (Hproc : ∀ q t, process (worker_query p) callback q t = worker_query p q).
  { intros q t. unfold process. rewrite Hcb. by destruct (worker_query p q). }
  assert (Hfirst : ∀ i exc, output s !! i = Some (Raised (inl exc)) →
     (∃ q, qs !! i = Some q ∧ registered p q = false ∧
           exc = unsupported p q) ∧
     (∀ j q, (j < i)%nat → qs !! j = Some q →
        registered p q = true ∧
        ∃ hits, output s !! j = Some (Yielded (Some hits))) ∧
     length (output s) = S i).
  { intros i exc Hi.
    destruct (run_first_fault (worker_query p) callback d sched i _ Hcpus Hdet Hi)
      as ((q & Hq & Hraise) & Hbefore & Hlen).
    split.
    { exists q. split; [done|]. specialize (Hraise 0). rewrite Hproc in Hraise.
      by apply worker_query_type_error in Hraise. }
    split; [|done]. intros j qj Hj Hqj.
    destruct (Hbefore j qj Hj Hqj) as (h & Hh & Hout).
    split; [|by exists h]. specialize (Hh 0). rewrite Hproc in Hh.
    pose proof (worker_query_registered p qj) as Hr.
    destruct (registered p qj); [done|]. by rewrite Hr in Hh. }
  split; [done|]. intros Hall exc Hin.
  apply list_elem_of_lookup in Hin as [i Hi].
  destruct (Hfirst i exc Hi) as ((q & Hq & Hr & _) & _).
  rewrite Hall in Hr; [done|]. by eapply list_elem_of_lookup_2.
Qed.
End WorkerQueries.

(** ** The profiles of [hmmscan] *)

Section ScanProfilesFacts.
Context {Hmm Gm Om Sq Msa : Type}.
Variable configure : Hmm → Gm.
Variable optimized : Gm → Om.

Local Abbreviation Object := (Object Hmm Gm Om Sq Msa).
Local Abbreviation optimize_item := (@optimize_item Hmm Gm Om Sq Msa configure optimized).
Local Abbreviation optimize_profiles :=
  (@optimize_profiles Hmm Gm Om Sq Msa configure optimized).
Local Abbreviation scan_targets := (@scan_targets Hmm Gm Om Sq Msa configure optimized).

Lemma optimize_item_profile (item : Object) :
  if is_profile item
  then ∃ om, optimize_item item = inr om
  else optimize_item item
       = inl (TypeError ("Expected HMM, Profile or OptimizedProfile, found "
                         +:+ type_name item)).
Proof. destruct item; simpl; by eauto. Qed.

Lemma optimize_profiles_spec (l : list Object) (acc : list Om) :
  (Forall (λ item, is_profile item = true) l ∧
   ∃ block, optimize_profiles l acc = inr (acc ++ block) ∧
            optimize_item <$> l = inr <$> block) ∨
  (∃ pre item post,
     l = pre ++ item :: post ∧
     Forall (λ item, is_profile item = true) pre ∧ is_profile item = false ∧
     optimize_profiles l acc
     = inl (TypeError ("Expected HMM, Profile or OptimizedProfile, found "
                       +:+ type_name item))).
Proof.
  revert acc. induction l as [|item l IH]; intros acc.
  - left. split; [done|]. exists []. by rewrite app_nil_r.
  - pose proof (optimize_item_profile item) as Hitem.
    destruct (is_profile item) eqn:Hp.
    + destruct Hitem as [om Hom].
      destruct (IH (acc ++ [om])) as [(Hall & block & Hb & Hmap)|
                                     (pre & bad & post & -> & Hpre & Hbad & Hb)].
      * left. split; [by constructor|]. exists (om :: block). split.
        -- simpl. by rewrite Hom, Hb, <- app_assoc.
        -- by rewrite !fmap_cons, Hom, Hmap.
      * right. exists (item :: pre), bad, post. split; [done|].
        split; [by constructor|]. split; [done|]. simpl. by rewrite Hom.
    + right. exists [], item, l. split; [done|]. split; [done|].
      split; [done|]. simpl. by rewrite Hitem.
Qed.

(** X12. The profiles of [hmmscan]: an iterable whose items are all of
    class [HMM], [Profile] or [OptimizedProfile] becomes a block with one
    optimized profile per item, in the order of the items (an HMM is
    configured and then optimized, a profile is optimized, an optimized
    profile is taken as it is); otherwise [TypeError] is raised, naming the
    class of the first item that is of none of the three classes, and no
    block is built. A block that is given as such is handed on unchanged. *)
Theorem scan_profiles_converted (l : list Object) :
  ((Forall (λ item, is_profile item = true) l ∧
    ∃ block, scan_targets (ProfileIterable l) = inr block ∧
             length block = length l ∧
             optimize_item <$> l = inr <$> block) ∨
   (∃ pre item post,
      l = pre ++ item :: post ∧
      Forall (λ item, is_profile item = true) pre ∧ is_profile item = false ∧
      scan_targets (ProfileIterable l)
      = inl (TypeError ("Expected HMM, Profile or OptimizedProfile, found "
                        +:+ type_name item)))) ∧
  (∀ om, optimize_item (OptimizedProfile om) = inr om) ∧
  (∀ gm, optimize_item (Profile gm) = inr (optimized gm)) ∧
  (∀ hmm, optimize_item (HMM hmm) = inr (optimized (configure hmm))) ∧
  (∀ block, scan_targets (OptimizedProfileBlock block) = inr block).
Proof.
  split; [|done].
  destruct (optimize_profiles_spec l []) as [(Hall & block & Hb & Hmap)|Hbad].
  - left. split; [done|]. exists block. split; [done|]. split; [|done].
    apply (f_equal length) in Hmap. by rewrite !length_fmap in Hmap.
  - by right.
Qed.
End ScanProfilesFacts.

(** ** The command-line [_hmmpress] *)

Section PressCommandFacts.
Context {Exc : Type}.
Variable press : string → gset string → gset string * option Exc.

Lemma check_outputs_spec (force : bool) (paths : list string) (fs : gset string) :
  let fs' := fst (check_outputs force paths fs) in
  let printed := snd (check_outputs force paths fs) in
  fs' ⊆ fs ∧
  (∀ p, p ∉ paths → p ∈ fs → p ∈ fs') ∧
  (force = true → printed = None ∧ ∀ p, p ∈ paths → p ∉ fs') ∧
  (force = false →
   fs' = fs ∧
   match printed with
   | None => ∀ p, p ∈ paths → p ∉ fs
   | Some message =>
       ∃ pre p post, paths = pre ++ p :: post ∧ p ∈ fs ∧
                     (∀ x, x ∈ pre → x ∉ fs) ∧
                     message = ("file " +:+ p +:+ " already exists")%string
   end).
Proof.
  revert fs. induction paths as [|path rest IH]; intros fs; simpl.
  - assert (Hnil : ∀ p : string, p ∈ @nil string → p ∉ fs).
    { intros p Hp. by apply elem_of_nil in Hp. }
    split; [done|]. split; [done|]. split; by intros _.
  - destruct (decide (path ∈ fs)) as [Hin|Hnot].
    + destruct force.
      * destruct (IH (fs ∖ {[path]})) as (Hsub & Hkeep & Hforce & _).
        assert (Hpath : path ∉ fst (check_outputs true rest (fs ∖ {[path]}))).
        { intros Hx. apply Hsub, elem_of_difference in Hx as [_ Hx].
          by apply Hx, elem_of_singleton. }
        split.
        { intros x Hx. by apply Hsub, elem_of_difference in Hx as [? _]. }
        split.
        { intros p Hp Hpfs. apply Hkeep.
          - intros Hr. apply Hp, elem_of_cons. by right.
          - apply elem_of_difference. split; [done|].
            rewrite elem_of_singleton. intros ->. apply Hp, elem_of_cons.
            by left. }
        split; [|done]. intros _. destruct (Hforce eq_refl) as [Hnone Hgone].
        split; [done|]. intros p Hp.
        apply elem_of_cons in Hp as [->|Hp]; [done|by apply Hgone].
      * simpl. split; [done|]. split; [done|]. split; [done|].
        intros _. split; [done|]. exists [], path, rest.
        split; [done|]. split; [done|]. split; [|done].
        intros x Hx. by apply elem_of_nil in Hx.
    + destruct (IH fs) as (Hsub & Hkeep & Hforce & Hplain).
      split; [done|]. split.
      { intros p Hp Hpfs. apply Hkeep; [|done].
        intros Hr. apply Hp, elem_of_cons. by right. }
      split.
      * intros Hf. destruct (Hforce Hf) as [Hnone Hgone]. split; [done|].
        intros p Hp. apply elem_of_cons in Hp as [->|Hp]; [|by apply Hgone].
        intros Hx. by apply Hnot, Hsub.
      * intros Hf. destruct (Hplain Hf) as [Heq Hprinted]. split; [done|].
        destruct (snd (check_outputs force rest fs)) as [message|].
        -- destruct Hprinted as (pre & p & post & -> & Hp & Hpre & ->).
           exists (path :: pre), p, post. split; [done|]. split; [done|].
           split; [|done]. intros x Hx.
           apply elem_of_cons in Hx as [->|Hx]; [done|by apply Hpre].
        -- intros p Hp. apply elem_of_cons in Hp as [->|Hp]; [done|by apply Hprinted].
Qed.

(** X15. The command-line [hmmpress] and existing files: without
    [--force], when one of the four output files exists, the command
    prints the name of the first one that exists (in the order [.h3m],
    [.h3i], [.h3f], [.h3p]) and returns 1; it has removed no file and has
    not started to press. Without [--force] and with none of the four
    files present, it presses on the files as they are. With [--force] it
    always presses, after it has removed those of the four files that
    existed, and no other file. *)
Theorem hmmpress_cli_guard (force : bool) (hmmfile : string)
    (fs : gset string) :
  (force = false → (∃ p, p ∈ output_paths hmmfile ∧ p ∈ fs) →
   ∃ pre p post,
     output_paths hmmfile = pre ++ p :: post ∧ p ∈ fs ∧
     (∀ x, x ∈ pre → x ∉ fs) ∧
     _hmmpress press force hmmfile fs
     = (fs, [("file " +:+ p +:+ " already exists")%string], inr 1)) ∧
  (force = false → (∀ p, p ∈ output_paths hmmfile → p ∉ fs) →
   _hmmpress press force hmmfile fs = press_exit press hmmfile fs) ∧
  (force = true →
   ∃ fs1,
     (∀ p, p ∈ fs1 ↔ p ∈ fs ∧ p ∉ output_paths hmmfile) ∧
     _hmmpress press force hmmfile fs = press_exit press hmmfile fs1).
Proof.
  unfold _hmmpress.
  destruct (check_outputs_spec force (output_paths hmmfile) fs)
    as (Hsub & Hkeep & Hforce & Hplain).
  destruct (check_outputs force (output_paths hmmfile) fs) as [fs1 printed];
    simpl in *.
  split; [|split].
  - intros Hf [p [Hp Hpfs]]. destruct (Hplain Hf) as [-> Hprinted].
    destruct printed as [message|]; [|by destruct (Hprinted p Hp)].
    destruct Hprinted as (pre & p' & post & Hpaths & Hp' & Hpre & ->).
    by exists pre, p', post.
  - intros Hf Hnone. destruct (Hplain Hf) as [-> Hprinted].
    destruct printed as [message|]; [|done].
    destruct Hprinted as (pre & p & post & Hpaths & Hp & _).
    destruct (Hnone p); [|done]. rewrite Hpaths.
    apply elem_of_app. right. apply elem_of_cons. by left.
  - intros Hf. destruct (Hforce Hf) as [-> Hgone]. exists fs1. split; [|done].
    intros p. split.
    + intros Hp. split; [by apply Hsub|]. intros Hout. by apply (Hgone p).
    + intros [Hp Hout]. by apply Hkeep.
Qed.
End PressCommandFacts.

(** ** Concrete runs: counterexamples and instances *)

Local Open Scope nat_scope.

(** C3. Fault isolation, on the run of [stuck_schedule]: three queries on
    two workers, [process] raising on the second one. The first query is
    completed and the second one is marked failed, but the generator is
    waiting in [query_queue.put(None)] with a full queue and both workers
    have returned: no actor can move, the caller never receives the result
    of the first query, and the exception of the second one is never
    raised to it. *)
Theorem fault_isolation_stuck :
  let s := exec faulty_engine none_callback stuck_schedule (run three_queries) in
  is_done 0 (chores s) = 1 ∧ is_done 1 (chores s) = 1 ∧
  (hits <$> chores s !! 0) = Some (Some 10) ∧
  (exception <$> chores s !! 1) = Some (Some 99) ∧
  pc s = M_Poison 1 ∧ queue_full (cpus s) (query_queue s) = true ∧
  threads s = [W_Returned; W_Returned] ∧
  output s = [] ∧
  stuck faulty_engine none_callback s ∧
  ∀ sched, output (exec faulty_engine none_callback sched s) = [].
Proof.
  intros s.
  assert (Hstuck : stuck faulty_engine none_callback s).
  { intros [|[|[|i]]]; reflexivity. }
  repeat split; try reflexivity; [done|].
  intros sched. by rewrite stuck_exec.
Qed.

(** C2. Single-thread equivalence, on three queries of which the second
    one raises, with an engine that does not depend on the counter. With
    pool size 1 the caller receives the hits of the first query and then
    the exception of the second one, and the generator is finished. With
    pool size 2, on the run of [stuck_schedule], no thread can move: the
    caller has received nothing and receives nothing whatever the schedule
    from there, and the generator never finishes. The two paths do not
    deliver the same results. *)
Theorem single_thread_divergence :
  let s1 := exec faulty_engine none_callback (turns 4 Main) (run one_worker) in
  let s := exec faulty_engine none_callback stuck_schedule (run three_queries) in
  deterministic none_callback ∧
  items (d_queries one_worker) = items (d_queries three_queries) ∧
  d_cpus one_worker = 1%Z ∧ d_cpus three_queries = 2%Z ∧
  pc s1 = G_Done ∧ output s1 = [Yielded (Some 10); Raised 99] ∧
  stuck faulty_engine none_callback s ∧
  ∀ sched,
    let s' := exec faulty_engine none_callback sched s in
    output s' = [] ∧ pc s' ≠ G_Done ∧ output s' ≠ output s1.
Proof.
  intros s1 s.
  assert (Hstuck : stuck faulty_engine none_callback s).
  { intros [|[|[|i]]]; reflexivity. }
  assert (Hout : output s = []) by reflexivity.
  assert (Hpc : pc s = M_Poison 1) by reflexivity.
  split; [by intros q total total'|].
  split; [reflexivity|]. split; [reflexivity|]. split; [reflexivity|].
  split; [reflexivity|]. split; [reflexivity|]. split; [exact Hstuck|].
  intros sched s'. subst s'. rewrite stuck_exec by exact Hstuck.
  rewrite Hout, Hpc. split; [reflexivity|]. split; discriminate.
Qed.

(** C5, the claim as stated fails: an empty list of queries provides the
    length hint 0, and the pool keeps the 8 requested workers instead of
    [min(8, 0)]. *)
Lemma pool_downsizing_counterexample :
  size_hint no_queries = Some 0 ∧
  ∃ d, dispatcher_init no_queries 8 = inr d ∧
       d_cpus d ≠ Z.min 8 (length_hint no_queries).
Proof. split; [done|]. eexists. split; [reflexivity|]. vm_compute. by intros H. Qed.

(** C7, the claim as stated fails: [complete] on a chore that is already
    done does not fail, it replaces the stored hits. *)
Lemma complete_overwrites :
  let ch : Chore nat nat nat := complete (new_chore 1) 10 in
  event ch = true ∧ hits ch = Some 10 ∧
  hits (complete ch 20) = Some 20 ∧ hits (complete ch 20) ≠ hits ch.
Proof. simpl. repeat split; done. Qed.

(** C8, the claim as stated fails: on the run of [slow_head_schedule] six
    chores are on the queue or past it and none has been received by the
    caller, with a queue of capacity 2 and a pool of 2 workers. *)
Lemma backpressure_counterexample :
  let s := exec engine none_callback slow_head_schedule (run six_queries) in
  unconsumed s = 6 ∧
  ¬ (Z.of_nat (unconsumed s) ≤ cpus s + cpus s + 1)%Z.
Proof. intros s. split; [reflexivity|]. vm_compute. by intros H. Qed.

(** C9, the claim as stated fails: with no query and 8 workers requested,
    the finished run has spawned 8 worker threads. *)
Lemma empty_input_counterexample :
  ∃ d, dispatcher_init no_queries 8 = inr d ∧
       let s := exec engine none_callback (turns 29 Main) (run d) in
       pc s = G_Done ∧ output s = [] ∧
       length (threads s) = 8 ∧ ¬ length (threads s) ≤ 1.
Proof.
  eexists. split; [reflexivity|]. intros s.
  repeat split; try reflexivity. vm_compute. lia.
Qed.

(** The claims at concrete inputs. *)

Lemma engine_no_fault qs : no_fault engine none_callback qs.
Proof. intros q total _. by exists (10 * q). Defined.

Lemma none_callback_deterministic : deterministic none_callback.
Proof. by intros q total total'. Defined.

Lemma order_preservation_witness :
  (1 ≤ d_cpus six_queries)%Z ∧
  let s0 := exec engine none_callback slow_head_schedule (run six_queries) in
  let s := exec engine none_callback delivering_schedule (run six_queries) in
  (* the workers finish the queries 2 to 5 before the first one *)
  (is_done 0 (chores s0) = 0 ∧ is_done 1 (chores s0) = 1 ∧
   is_done 2 (chores s0) = 1 ∧ is_done 3 (chores s0) = 1 ∧
   is_done 4 (chores s0) = 1) ∧
  (pc s = G_Done ∧
   output s = [Yielded (Some 10); Yielded (Some 20); Yielded (Some 30);
               Yielded (Some 40); Yielded (Some 50); Yielded (Some 60)]) ∧
  (∀ i o, output s !! i = Some o →
     ∃ q, [1; 2; 3; 4; 5; 6] !! i = Some q ∧ result_of engine none_callback q o) ∧
  productive engine none_callback delivering_schedule (run six_queries)
    ≤ 12 * 6 + 9 * 2 + 5 ∧
  (pc s = G_Done → length (output s) = 6) ∧
  ∃ sched', pc (exec engine none_callback sched' s) = G_Done.
Proof.
  split; [simpl; lia|]. intros s0 s.
  split; [repeat split; vm_compute; reflexivity|].
  split; [split; vm_compute; reflexivity|].
  destruct (order_preservation engine none_callback six_queries
              delivering_schedule) as (Horder & Hbound & Hdone); [simpl; lia|].
  split; [exact Horder|]. split; [exact Hbound|].
  exact (Hdone (engine_no_fault _)).
Defined.

Lemma worker_fault_policy_witness :
  let s := exec faulty_engine none_callback fault_schedule (run three_queries) in
  let sA := exec faulty_engine none_callback [Worker 1; Main] s in
  let sB := exec faulty_engine none_callback [Worker 1; Worker 0] sA in
  let sC := exec faulty_engine none_callback [Worker 1] sB in
  let sD := exec faulty_engine none_callback [Worker 1; Worker 1; Main] sC in
  threads s !! 1 = Some (W_Process 1) ∧
  threads sA !! 1 = Some (W_Kill 1 99) ∧
  (threads sB !! 1 = Some (W_Fail 1 99) ∧ kill_switch sB = true ∧
   is_done 1 (chores sB) = 0) ∧
  (threads sC !! 1 = Some W_Loop ∧
   ∃ ch', chores sC !! 1 = Some ch' ∧ event ch' = true ∧
          exception ch' = Some 99 ∧ hits ch' = None) ∧
  (threads sD !! 1 = Some W_Returned ∧
   step faulty_engine none_callback (Worker 1) sD = None).
Proof.
  intros s sA sB sC sD. split; [reflexivity|].
  apply (worker_fault_policy faulty_engine none_callback three_queries
           fault_schedule [Main] [Worker 0] [] [Worker 1; Main] 1 1
           (new_chore 2) 99).
  - simpl. lia.
  - reflexivity.
  - reflexivity.
  - reflexivity.
  - repeat constructor; discriminate.
  - repeat constructor; discriminate.
  - constructor.
Defined.

Lemma pool_downsizing_witness :
  (0 < 8)%Z ∧ size_hint (py_list [1; 2]) = Some 2 ∧ 0 < 2 ∧
  ∃ d, dispatcher_init (py_list [1; 2]) 8 = inr d ∧
       d_cpus d = Z.min 8 2 ∧
       let s := exec engine none_callback (turns 4 Main) (run d) in
       (Z.of_nat (length (threads s)) ≤ d_cpus d)%Z ∧
       (d_cpus d ≠ 1%Z → pc s ≠ M_Spawn →
        Z.of_nat (length (threads s)) = d_cpus d).
Proof.
  split; [lia|]. split; [reflexivity|]. split; [lia|].
  apply (pool_downsizing engine none_callback (py_list [1; 2]) 8 2 (turns 4 Main));
    [lia|reflexivity|lia].
Defined.

Lemma invalid_pool_size_witness :
  (-3 <= 0)%Z ∧
  dispatcher_init (py_list [1; 2; 3]) (-3) = inl (ValueError (-3)).
Proof. split; [lia|]. apply invalid_pool_size. lia. Defined.

Lemma chore_completion_discipline_witness :
  (1 ≤ d_cpus three_queries)%Z ∧
  let s := exec faulty_engine none_callback stuck_schedule (run three_queries) in
  let s' := sched_step faulty_engine none_callback s (Worker 0) in
  ∀ c ch, chores s !! c = Some ch → event ch = true →
    chores s' !! c = Some ch ∧
    ((is_Some (hits ch) ∧ exception ch = None) ∨
     (hits ch = None ∧ is_Some (exception ch))).
Proof.
  split; [simpl; lia|]. intros s s'.
  apply (chore_completion_discipline faulty_engine none_callback three_queries
           stuck_schedule (Worker 0)).
  simpl. lia.
Defined.

Lemma backpressure_bound_witness :
  (1 ≤ d_cpus six_queries)%Z ∧
  let s := exec engine none_callback slow_head_schedule (run six_queries) in
  (Z.of_nat (length (query_queue s)) ≤ 2)%Z ∧
  (Z.of_nat (length (threads s)) ≤ 2)%Z ∧
  (Z.of_nat (unfinished s) ≤ 2 + 2)%Z.
Proof.
  split; [simpl; lia|].
  apply (backpressure_bound engine none_callback six_queries slow_head_schedule).
  simpl. lia.
Defined.

Lemma empty_input_witness :
  (0 < 8)%Z ∧ items no_queries = [] ∧ length_hint no_queries = 0%Z ∧
  ∃ d, dispatcher_init no_queries 8 = inr d ∧
       d_cpus d = 8%Z ∧
       let s := exec engine none_callback (turns 29 Main) (run d) in
       output s = [] ∧
       productive engine none_callback (turns 29 Main) (run d) ≤ 9 * 8 + 5 ∧
       (∃ sched', pc (exec engine none_callback sched' s) = G_Done) ∧
       ((8 = 1)%Z → threads s = []) ∧
       ((8 ≠ 1)%Z → pc s ≠ M_Spawn → Z.of_nat (length (threads s)) = 8%Z).
Proof.
  split; [lia|]. split; [reflexivity|]. split; [reflexivity|].
  apply (empty_input engine none_callback no_queries 8 (turns 29 Main));
    [lia|reflexivity|reflexivity].
Defined.


(** The further properties at concrete inputs. *)

Lemma permits_have_items_witness :
  (1 ≤ d_cpus three_queries)%Z ∧
  let s := exec faulty_engine none_callback stuck_schedule (run three_queries) in
  query_available s + sum_list_with at_get (threads s)
    ≤ length (query_queue s) ∧
  ∀ i, threads s !! i ≠ Some W_Crashed.
Proof.
  split; [simpl; lia|]. intros s.
  destruct (permits_have_items faulty_engine none_callback three_queries
              stuck_schedule) as (Hperm & Hcrash & _); [simpl; lia|].
  split; [exact Hperm|exact Hcrash].
Defined.

Lemma graceful_shutdown_witness :
  (1 ≤ d_cpus six_queries)%Z ∧ no_fault engine none_callback [1; 2; 3; 4; 5; 6] ∧
  ∃ sched',
    let s := exec engine none_callback sched'
               (exec engine none_callback slow_head_schedule (run six_queries)) in
    pc s = G_Done ∧ length (output s) = 6 ∧ all_returned s ∧
    query_queue s = [] ∧ query_available s = 0 ∧ kill_switch s = false ∧
    stuck engine none_callback s.
Proof.
  split; [simpl; lia|]. split; [exact (engine_no_fault _)|].
  apply (graceful_shutdown engine none_callback six_queries slow_head_schedule);
    [simpl; lia|exact (engine_no_fault _)].
Defined.

Lemma fault_free_workers_witness :
  (1 ≤ d_cpus six_queries)%Z ∧ no_fault engine none_callback [1; 2; 3; 4; 5; 6] ∧
  let s := exec engine none_callback slow_head_schedule (run six_queries) in
  kill_switch s = false ∧ ¬ has_raised (output s) ∧
  ∀ i, threads s !! i = Some W_Returned →
       queries s = [] ∧ ∀ x, x ∈ query_queue s → x = None.
Proof.
  split; [simpl; lia|]. split; [exact (engine_no_fault _)|].
  apply (fault_free_workers engine none_callback six_queries slow_head_schedule);
    [simpl; lia|exact (engine_no_fault _)].
Defined.

Lemma raise_sets_kill_switch_witness :
  (1 < d_cpus two_queries)%Z ∧
  let s := exec faulty_engine none_callback raise_schedule (run two_queries) in
  Raised 99 ∈ output s ∧
  kill_switch s = true ∧ pc s = G_Done ∧ last (output s) = Some (Raised 99).
Proof.
  split; [simpl; lia|]. intros s.
  assert (Hin : Raised 99 ∈ output s) by (vm_compute; constructor).
  split; [exact Hin|].
  apply (raise_sets_kill_switch faulty_engine none_callback two_queries
           raise_schedule 99); [simpl; lia|exact Hin].
Defined.

Lemma cooperative_cancellation_witness :
  (1 ≤ d_cpus three_queries)%Z ∧
  let s := exec faulty_engine none_callback kill_schedule (run three_queries) in
  kill_switch s = true ∧ threads s !! 0 = Some (W_Process 0) ∧
  6 ≤ turns_of (Worker 0) (turns 6 (Worker 0) ++ [Main]) ∧
  threads (exec faulty_engine none_callback (turns 6 (Worker 0) ++ [Main]) s) !! 0
  = Some W_Returned.
Proof.
  split; [simpl; lia|]. intros s.
  split; [reflexivity|]. split; [reflexivity|].
  assert (Hturns : 6 ≤ turns_of (Worker 0) (turns 6 (Worker 0) ++ [Main]))
    by (vm_compute; lia).
  split; [exact Hturns|].
  apply (cooperative_cancellation faulty_engine none_callback three_queries
           kill_schedule (turns 6 (Worker 0) ++ [Main]) 0 (W_Process 0));
    [simpl; lia|reflexivity|reflexivity|exact Hturns].
Defined.

Lemma progress_counter_witness :
  (1 ≤ d_cpus three_queries)%Z ∧
  let s := exec faulty_engine none_callback kill_schedule (run three_queries) in
  query_count s = (Z.of_nat (consumed [1; 2; 3]%nat s) mod 2 ^ 64)%Z ∧
  consumed [1; 2; 3] s ≤ 3 ∧
  ∀ i c, threads s !! i = Some (W_Process c) →
    c < consumed [1; 2; 3] s ∧
    ((Z.of_nat 3 < 2 ^ 64)%Z → (Z.of_nat c < query_count s ≤ Z.of_nat 3)%Z).
Proof.
  split; [simpl; lia|].
  apply (progress_counter faulty_engine none_callback three_queries kill_schedule).
  simpl. lia.
Defined.

Lemma first_fault_raised_witness :
  (1 ≤ d_cpus one_worker)%Z ∧ deterministic none_callback ∧
  let s := exec faulty_engine none_callback (turns 4 Main) (run one_worker) in
  output s !! 1 = Some (Raised 99) ∧
  (∃ q, [1; 2; 3] !! 1 = Some q ∧
        ∀ total, process faulty_engine none_callback q total = inr 99) ∧
  (∀ j q, j < 1 → [1; 2; 3] !! j = Some q →
     ∃ h, (∀ total, process faulty_engine none_callback q total = inl h) ∧
          output s !! j = Some (Yielded (Some h))) ∧
  length (output s) = 2.
Proof.
  split; [simpl; lia|]. split; [exact none_callback_deterministic|]. intros s.
  split; [reflexivity|].
  apply (first_fault_raised faulty_engine none_callback one_worker
           (turns 4 Main) 1 99);
    [simpl; lia|exact none_callback_deterministic|reflexivity].
Defined.

Lemma single_threaded_run_witness :
  d_cpus one_worker = 1%Z ∧
  (2 * 3 + 2 ≤ 8 →
   let s := exec faulty_engine none_callback (turns 8 Main) (run one_worker) in
   pc s = G_Done ∧
   output s = sequential faulty_engine none_callback [1; 2; 3] 0%Z ∧
   stuck faulty_engine none_callback s).
Proof.
  split; [reflexivity|].
  destruct (single_threaded_run faulty_engine none_callback one_worker [] 8)
    as [_ Hrun]; [reflexivity|]. exact Hrun.
Defined.

Lemma chore_exclusive_witness :
  (1 ≤ d_cpus three_queries)%Z ∧
  let s := exec faulty_engine none_callback kill_schedule (run three_queries) in
  ∀ i w, threads s !! i = Some w → holds 0 w = 1 →
    (Some 0 ∉ query_queue s) ∧ is_done 0 (chores s) = 0.
Proof.
  split; [simpl; lia|]. intros s.
  destruct (chore_exclusive faulty_engine none_callback three_queries
              kill_schedule 0) as (_ & _ & Hheld); [simpl; lia|].
  exact Hheld.
Defined.

Lemma unsupported_query_raised_witness :
  (1 ≤ d_cpus scan_queries)%Z ∧ (∀ q total, quiet_callback q total = None) ∧
  let s := exec (worker_query hmm_engine seq_engine seq_engine seq_engine Hmmscan)
             quiet_callback (turns 4 Main) (run scan_queries) in
  output s !! 1
  = Some (Raised (inl (TypeError "Unsupported query type for `hmmscan`: HMM"))) ∧
  ∀ i exc, output s !! i = Some (Raised (inl exc)) →
    (∃ q, items (d_queries scan_queries) !! i = Some q ∧
          registered Hmmscan q = false ∧ exc = unsupported Hmmscan q) ∧
    (∀ j q, j < i → items (d_queries scan_queries) !! j = Some q →
       registered Hmmscan q = true ∧
       ∃ hits, output s !! j = Some (Yielded (Some hits))) ∧
    length (output s) = S i.
Proof.
  split; [simpl; lia|]. split; [reflexivity|]. intros s.
  split; [reflexivity|].
  destruct (unsupported_query_raised hmm_engine seq_engine seq_engine seq_engine
              Hmmscan quiet_callback scan_queries (turns 4 Main))
    as [Hfirst _]; [simpl; lia|reflexivity|].
  exact Hfirst.
Defined.

Lemma single_query_run_witness :
  detected (Some 4%Z) ∧ detected None ∧
  ∃ s0 : State nat nat nat,
    phmmer (Some 4%Z) None (as_iterable (inl 2)) 8 = inr s0 ∧
    (cpus s0 = 1)%Z ∧
    let s := exec faulty_engine none_callback (turns 4 Main) s0 in
    pc s = G_Done ∧ output s = [Raised 99].
Proof.
  assert (H4 : detected (Some 4%Z)) by (simpl; lia).
  split; [exact H4|]. split; [exact I|].
  destruct (single_query_run faulty_engine none_callback (Some 4%Z) None 2 8 []
              H4 I) as (s0 & Hs0 & _ & _ & Hcpus & _ & Hrun).
  exists s0. split; [exact Hs0|]. split; [exact Hcpus|]. exact Hrun.
Defined.
